(** * Receptive fields of virtualearn3d: a shallow embedding of
    [src/utils/receptive_field.py] and the properties of its specification.

    The Python class [ReceptiveField] is embedded as a record; its methods are
    functions over that record.  Exceptions are values of [result]; [fit], the
    only method that assigns attributes, returns the instance it leaves behind
    together with its outcome.

    numpy's float64 is an interface ([Float64]) with two instances: IEEE
    binary64 itself (Rocq's primitive floats, module [B64]) and exact rational
    arithmetic extended with NaN (module [Exact]).  The methods are written
    once, over the interface.

    The handling of the input and output paths by [Pipeline.__init__]
    ([src/pipeline/pipeline.py]) and [SequentialPipeline.run]
    ([src/pipeline/sequential_pipeline.py]) is embedded in the module
    [Pipelines], over the collaborators of those classes. *)

From Stdlib Require Import ZArith QArith Qcanon Qround Floats Lia Bool Sorted Lqa.
From stdpp Require Import base numbers list.

Set Warnings "-inexact-float".
Set Default Proof Using "Type".
Local Open Scope Z_scope.

(** ** Exceptions *)

Inductive exn := ValueError | IndexError | TypeError | OverflowError | AttributeError.

Inductive result (A : Type) : Type :=
| Ok (a : A)
| Raise (e : exn).
Arguments Ok {A} a.
Arguments Raise {A} e.

Definition bind {A B} (r : result A) (k : A -> result B) : result B :=
  match r with
  | Ok a => k a
  | Raise e => Raise e
  end.

Notation "'let*' x ':=' r 'in' k" := (bind r (fun x => k))
  (at level 10, x pattern, r at level 100, k at level 200).

Definition raises {A} (r : result A) : Prop := exists e, r = Raise e.

Fixpoint mapM {A B} (f : A -> result B) (l : list A) : result (list B) :=
  match l with
  | [] => Ok []
  | a :: l' => let* b := f a in let* bs := mapM f l' in Ok (b :: bs)
  end.

Fixpoint foldM {A B} (f : B -> A -> result B) (b : B) (l : list A) : result B :=
  match l with
  | [] => Ok b
  | a :: l' => let* b' := f b a in foldM f b' l'
  end.

(** ** The float64 interface *)

Class Float64 (F : Type) := {
  fnan : F;
  fisnan : F -> bool;
  fadd : F -> F -> F;
  fsub : F -> F -> F;
  fmul : F -> F -> F;
  fdiv : F -> F -> F;
  fopp : F -> F;
  (** [np.mod]: the remainder has the sign of the divisor. *)
  fmod : F -> F -> F;
  ffloor : F -> F;
  fceil : F -> F;
  (** [np.round] with no decimals: round half to even. *)
  frint : F -> F;
  (** Conversion of an integer to float64. *)
  fofZ : Z -> F;
  (** The integer part (toward zero) of a finite value, [None] for NaN and
      the infinities. *)
  ftrunc : F -> option Z
}.

(** ** Integers of numpy and Python *)

Definition int64_min : Z := - 2 ^ 63.
Definition int64_max : Z := 2 ^ 63 - 1.

Definition in_int64 (z : Z) : bool := (int64_min <=? z) && (z <=? int64_max).

(** Two's complement wrap-around of int64 arithmetic. *)
Definition wrap64 (z : Z) : Z := (z + 2 ^ 63) mod 2 ^ 64 - 2 ^ 63.

(** Index normalisation of numpy and Python sequences of length [len]:
    a negative index counts from the end. *)
Definition norm_index (len : nat) (i : Z) : result nat :=
  if (0 <=? i) && (i <? Z.of_nat len) then Ok (Z.to_nat i)
  else if (- Z.of_nat len <=? i) && (i <? 0) then Ok (Z.to_nat (i + Z.of_nat len))
  else Raise IndexError.

Definition getitem {A} (l : list A) (i : Z) : result A :=
  let* k := norm_index (length l) i in
  match l !! k with
  | Some a => Ok a
  | None => Raise IndexError
  end.

(** ** Arrays *)

(** A two-dimensional ndarray of shape [(length rows, ncols)]. *)
Record ndarray (A : Type) := mk_ndarray { ncols : nat; rows : list (list A) }.
Arguments mk_ndarray {A} ncols rows.
Arguments ncols {A} _.
Arguments rows {A} _.

Definition wf_ndarray {A} (X : ndarray A) : Prop :=
  Forall (fun r => length r = ncols X) (rows X).

(** Broadcasting of two lengths along one axis. *)
Definition broadcast_len (a b : nat) : result nat :=
  if (a =? b)%nat then Ok a
  else if (b =? 1)%nat then Ok a
  else if (a =? 1)%nat then Ok b
  else Raise ValueError.

Definition stretch {A} (n : nat) (u : list A) : list A :=
  match u with
  | [a] => replicate n a
  | _ => u
  end.

(** Element-wise operation of two one-dimensional arrays. *)
Definition vec_op {A B C} (op : A -> B -> C) (u : list A) (v : list B) : result (list C) :=
  let* n := broadcast_len (length u) (length v) in
  Ok (zip_with op (stretch n u) (stretch n v)).

(** Element-wise operation of a two-dimensional array with a one-dimensional
    one, the latter broadcast along the rows. *)
Definition mat_op {A B C} (op : A -> B -> C) (X : ndarray A) (v : list B) : result (ndarray C) :=
  let* n := broadcast_len (ncols X) (length v) in
  Ok (mk_ndarray n (map (fun r => zip_with op (stretch n r) (stretch n v)) (rows X))).

Definition mat_map {A B} (f : A -> B) (X : ndarray A) : ndarray B :=
  mk_ndarray (ncols X) (map (map f) (rows X)).

(** [Y[Ni] = row]: the rows of [Y] at the indices [Ni] become [row]. *)
Definition scatter {A} (Y : list (list A)) (Ni : list Z) (row : list A)
  : result (list (list A)) :=
  foldM (fun Y n => let* k := norm_index (length Y) n in Ok (<[k := row]> Y)) Y Ni.

(** A value of shape [(length r,)] assigned to rows of width [d]. *)
Definition broadcast_to {A} (r : list A) (d : nat) : result (list A) :=
  if (length r =? d)%nat then Ok r
  else match r with
       | [a] => Ok (replicate d a)
       | _ => Raise ValueError
       end.

(** An array handed back as a matrix or, flattened, as a vector. *)
Inductive array_out (A : Type) : Type :=
| Vector (ys : list A)
| Matrix (Y : ndarray A).
Arguments Vector {A} ys.
Arguments Matrix {A} Y.

(** [Y if Y.shape[1] > 1 else Y.flatten()] *)
Definition matrix_or_vector {A} (d : nat) (Y : list (list A)) : array_out A :=
  if (1 <? d)%nat then Matrix (mk_ndarray d Y) else Vector (concat Y).

Section Model.
Context {F : Type} {FF : Float64 F}.

Definition one : F := fofZ 1.
Definition two : F := fofZ 2.
(** The literals [1e-15] and [0.05]: the float64 nearest to the decimal. *)
Definition eps15 : F := fdiv one (fofZ (10 ^ 15)).
Definition default_cell : F := fdiv (fofZ 5) (fofZ 100).

(** [x.astype(int)] on a float64: the integer part; what does not fit
    (NaN and the infinities included) becomes the least int64. *)
Definition astype_int (a : F) : Z :=
  match ftrunc a with
  | Some z => if in_int64 z then z else int64_min
  | None => int64_min
  end.

(** Python's [int(a)] on a float. *)
Definition py_int (a : F) : result Z :=
  match ftrunc a with
  | Some z => Ok z
  | None => if fisnan a then Raise ValueError else Raise OverflowError
  end.

(** [np.prod] of a float array. *)
Definition prod (l : list F) : F := foldl fmul one l.

(** ** The class *)

Record ReceptiveField := mk_rf {
  cell_size : list F;
  dimensionality : nat;
  bounding_radii : list F;
  num_cells : Z;
  (** The indexing matrix [N], [None] until [fit]. *)
  rf_N : option (list (list Z));
  (** The center [x], [None] until [fit]. *)
  rf_x : option (list F);
  (** The number of points [m], [None] until [fit]. *)
  rf_m : option nat
}.

Definition set_x (self : ReceptiveField) (x : list F) : ReceptiveField :=
  mk_rf (cell_size self) (dimensionality self) (bounding_radii self)
        (num_cells self) (rf_N self) (Some x) (rf_m self).
Definition set_N (self : ReceptiveField) (N : list (list Z)) : ReceptiveField :=
  mk_rf (cell_size self) (dimensionality self) (bounding_radii self)
        (num_cells self) (Some N) (rf_x self) (rf_m self).
Definition set_m (self : ReceptiveField) (m : nat) : ReceptiveField :=
  mk_rf (cell_size self) (dimensionality self) (bounding_radii self)
        (num_cells self) (rf_N self) (rf_x self) (Some m).

(** [int(np.round(1/np.prod(cell_size/2)))] *)
Definition compute_num_cells (cs : list F) : result Z :=
  py_int (frint (fdiv one (prod (map (fun s => fdiv s two) cs)))).

(** [__init__], called with the keywords [cell_size] and [bounding_radii]. *)
Definition init (kw_cell_size : option (list F)) (kw_bounding_radii : option (list F))
  : result ReceptiveField :=
  let cs := default (replicate 3 default_cell) kw_cell_size in
  match kw_bounding_radii with
  | None => Raise ValueError
  | Some br =>
      let* nc := compute_num_cells cs in
      Ok (mk_rf cs (length cs) br nc None None None)
  end.

(** An array without elements: no row, or rows of no column. *)
Definition no_elements {A} (X : ndarray A) : bool :=
  match concat (rows X) with
  | [] => true
  | _ :: _ => false
  end.

(** [center_and_scale]: [(X - self.x) / self.bounding_radii].  While
    [self.x] is [None] the subtraction raises TypeError at the first element
    of [X]; an array without elements has none, the difference is an array of
    the shape of [X], and the division goes on with that shape. *)
Definition center_and_scale (self : ReceptiveField) (X : ndarray F) : result (ndarray F) :=
  match rf_x self with
  | None =>
      if no_elements X then mat_op fdiv X (bounding_radii self)
      else Raise TypeError
  | Some x =>
      let* D := mat_op fsub X x in
      mat_op fdiv D (bounding_radii self)
  end.

(** [undo_center_and_scale]: [self.bounding_radii * X + self.x].  While
    [self.x] is [None] the addition raises TypeError at the first element of
    the product, and returns the product when it has no element. *)
Definition undo_center_and_scale (self : ReceptiveField) (X : ndarray F) : result (ndarray F) :=
  let* P := mat_op (fun a r => fmul r a) X (bounding_radii self) in
  match rf_x self with
  | None => if no_elements P then Ok P else Raise TypeError
  | Some x => mat_op fadd P x
  end.

(** *** The indexing matrix *)

(** One pass of the loop that fills [dim_factors]:
    [dim_factors[i] = int(dim_factors[i-1] * np.ceil((b[i-1]-a[i-1]) / cell_size[i-1]))] *)
Definition dim_factors_step (a b cs : list F) (df : list Z) (i : nat) : result (list Z) :=
  let* prev := getitem df (Z.of_nat i - 1) in
  let* bi := getitem b (Z.of_nat i - 1) in
  let* ai := getitem a (Z.of_nat i - 1) in
  let* ci := getitem cs (Z.of_nat i - 1) in
  let* v := py_int (fmul (fofZ prev) (fceil (fdiv (fsub bi ai) ci))) in
  if in_int64 v then Ok (<[i := v]> df) else Raise OverflowError.

Definition dim_factors (self : ReceptiveField) (a b : list F) : result (list Z) :=
  foldM (dim_factors_step a b (cell_size self))
        (replicate (dimensionality self) 1)
        (seq 1 (dimensionality self - 1)%nat).

(** The point-wise cell indices, [I] in the source. *)
Definition point_indices (self : ReceptiveField) (X : ndarray F) : result (list Z) :=
  match rf_x self with
  | None => Raise AttributeError
  | Some x =>
      let b := replicate (length x) one in
      let a := map fopp b in
      let* df := dim_factors self a b in
      let* Xa := mat_op fsub X a in
      let* Xq := mat_op fdiv Xa (cell_size self) in
      let Fl := mat_map (fun q => ffloor (fadd q eps15)) Xq in
      let* T := mat_op (fun q f => astype_int (fmul q (fofZ f))) Fl df in
      let* mx := vec_op (fun s f => astype_int (fmul (fsub (ffloor (fdiv two s)) one) (fofZ f)))
                        (cell_size self) df in
      (* np.apply_along_axis refuses an array without rows *)
      if decide (rows T = []) then Raise ValueError else
      let* C := mapM (fun r => vec_op Z.min r mx) (rows T) in
      Ok (map (fun r => wrap64 (foldr Z.add 0%Z r)) C)
  end.

(** [np.max(np.unique(I[I != -1], return_counts=True)[1])] *)
Definition max_num_neighs (Ix : list Z) : result nat :=
  let J := filter (fun i => i <> (-1)%Z) Ix in
  match J with
  | [] => Raise ValueError
  | _ => Ok (foldr Nat.max 0%nat (map (fun i => length (filter (fun i' => i' = i) J)) J))
  end.

(** One pass of [for j, i in enumerate(I)]:
    [N[i, index_pointers[i]] = j; index_pointers[i] += 1].
    The counters [j] and [index_pointers[i]] are bounded by the number of
    points, the length of an array, and never wrap. *)
Definition populate_step (K : nat) (st : list (list Z) * list Z) (j : nat) (i : Z)
  : result (list (list Z) * list Z) :=
  let '(N, ptrs) := st in
  let* p := getitem ptrs i in
  let* r := norm_index (length N) i in
  let* c := norm_index K p in
  Ok (alter (fun row => <[c := Z.of_nat j]> row) r N,
      alter (fun q => q + 1) r ptrs).

Fixpoint populate_loop (K : nat) (j : nat) (Ix : list Z) (st : list (list Z) * list Z)
  : result (list (list Z) * list Z) :=
  match Ix with
  | [] => Ok st
  | i :: Ix' => let* st' := populate_step K st j i in populate_loop K (S j) Ix' st'
  end.

Definition populate (R : Z) (Ix : list Z) : result (list (list Z)) :=
  let* K := max_num_neighs Ix in
  if (R <? 0)%Z then Raise ValueError else
  let N0 := replicate (Z.to_nat R) (replicate K (-1)%Z) in
  let ptrs0 := replicate (Z.to_nat R) 0%Z in
  let* st := populate_loop K 0%nat Ix (N0, ptrs0) in
  Ok (fst st).

(** [shadow_indexing_matrix_from_points] *)
Definition shadow_indexing_matrix_from_points (self : ReceptiveField) (X : ndarray F)
  : result (list (list Z)) :=
  let* Ix := point_indices self X in
  populate (num_cells self) Ix.

(** [fit(X, x)]: the outcome and the instance as the call leaves it. *)
Definition fit (self : ReceptiveField) (X : option (ndarray F)) (x : option (list F))
  : result unit * ReceptiveField :=
  match x with
  | None => (Raise ValueError, self)
  | Some x =>
      match X with
      | None => (Raise ValueError, self)
      | Some X =>
          let self1 := set_x self x in
          match center_and_scale self1 X with
          | Raise e => (Raise e, self1)
          | Ok X' =>
              match shadow_indexing_matrix_from_points self1 X' with
              | Raise e => (Raise e, self1)
              | Ok N =>
                  let self2 := set_N self1 N in
                  let self3 := set_m self2 (length (rows X')) in
                  (Ok tt, self3)
              end
          end
      end
  end.

(** *** Centroids *)

(** [np.sum(self.N >= 0, axis=1, dtype=bool)] *)
Definition not_nan_flags (N : list (list Z)) : list bool :=
  map (fun Ni => existsb (fun n => 0 <=? n) Ni) N.

(** [Ni[Ni >= 0]] *)
Definition members (Ni : list Z) : list Z := filter (fun n => 0 <= n) Ni.

(** [A[idx]] for a list of row indices. *)
Definition take_rows {A} (l : list A) (idx : list Z) : result (list A) :=
  mapM (getitem l) idx.

(** [np.sum(A, axis=0)] of [n]-vectors. *)
Definition sum_axis0 (n : nat) (sel : list (list F)) : list F :=
  match sel with
  | [] => replicate n (fofZ 0)
  | r :: rs => foldl (zip_with fadd) r rs
  end.

(** [np.mean(A, axis=0)] of [n]-vectors. *)
Definition mean_axis0 (n : nat) (sel : list (list F)) : list F :=
  map (fun s => fdiv s (fofZ (Z.of_nat (length sel)))) (sum_axis0 n sel).

(** The row of cell [Ni] in the comprehension that builds [Y]. *)
Definition centroid_row (X : ndarray F) (flag : bool) (Ni : list Z) : result (list F) :=
  if flag then
    let* sel := take_rows (rows X) (members Ni) in
    Ok (mean_axis0 (ncols X) sel)
  else Ok (replicate (ncols X) fnan).

(** [np.flatnonzero(~not_nan_flags)] *)
Definition missing_indices (flags : list bool) : list Z :=
  map (fun p => Z.of_nat (fst p))
      (filter (fun p => snd p = false) (zip (seq 0 (length flags)) flags)).

(** [np.prod] of an int64 array. *)
Definition prod_int (l : list Z) : Z := foldl (fun p c => wrap64 (p * c)) 1 l.

(** The support points of the interpolation, [sup_missing_Y] in the source,
    from the indices of the empty cells. *)
Definition sup_missing_Y (self : ReceptiveField) (missing : list Z) : result (ndarray F) :=
  match rf_x self with
  | None => Raise AttributeError
  | Some x =>
      let b := replicate (length x) one in
      let a := map fopp b in
      let* ba := vec_op fsub b a in
      let* q := vec_op fdiv ba (cell_size self) in
      let cells_per_axis := map (fun c => astype_int (fceil c)) q in
      let* radix := mapM (fun j => let* c := getitem cells_per_axis (Z.of_nat j) in
                                   Ok (prod_int (take j cells_per_axis), c))
                         (seq 0 (dimensionality self)) in
      let num_steps :=
        mk_ndarray (dimensionality self)
          (map (fun idx => map (fun pc => fmod (ffloor (fdiv (fofZ idx) (fofZ (fst pc))))
                                              (fofZ (snd pc))) radix) missing) in
      let* sc := mat_op fmul num_steps (cell_size self) in
      mat_op (fun s ai => fadd ai s) sc a
  end.

(** The nearest-neighbour query of scipy's [KDTree]: for the data points, the
    query points and [k], the indices of the neighbours of each query point. *)
Context (kdt_query : list (list F) -> ndarray F -> Z -> result (list (list Z))).

Definition interpolate_step (non_empty_Y : list (list F)) (n : nat) (Inb : list (list Z))
    (Y : list (list F)) (it : nat * Z) : result (list (list F)) :=
  let* Ii := getitem Inb (Z.of_nat (fst it)) in
  let* sel := take_rows non_empty_Y Ii in
  let* k := norm_index (length Y) (snd it) in
  Ok (<[k := mean_axis0 n sel]> Y).

(** [centroids_from_points(X, interpolate)] *)
Definition centroids_from_points (self : ReceptiveField) (X : ndarray F) (interpolate : bool)
  : result (ndarray F) :=
  let* X := center_and_scale self X in
  match rf_N self with
  | None => Raise TypeError
  | Some N =>
      let flags := not_nan_flags N in
      let* Y := mapM (fun p => centroid_row X (fst p) (snd p)) (zip flags N) in
      if interpolate then
        let missing := missing_indices flags in
        let* sup := sup_missing_Y self missing in
        let non_empty_Y := map snd (filter (fun p => fst p = true) (zip flags Y)) in
        let num_neighs := 3 ^ Z.of_nat (dimensionality self) - 1 in
        let* Inb := kdt_query non_empty_Y sup num_neighs in
        let Inb := if Z.of_nat (length non_empty_Y) <? num_neighs
                   then map (filter (fun i => i < Z.of_nat (length non_empty_Y))) Inb
                   else Inb in
        let* Y := foldM (interpolate_step non_empty_Y (ncols X) Inb) Y
                        (zip (seq 0 (length missing)) missing) in
        Ok (mk_ndarray (ncols X) Y)
      else Ok (mk_ndarray (ncols X) Y)
  end.

(** *** Propagation *)

Inductive pyscalar := PyInt (z : Z) | PyFloat (f : F).

(** The values handed to [propagate_values]: a one- or two-dimensional
    ndarray of integers or of floats, or a Python list of numbers. *)
Inductive values :=
| NdInt1 (xs : list Z)
| NdInt2 (d : nat) (vs : list (list Z))
| NdFloat1 (xs : list F)
| NdFloat2 (d : nat) (vs : list (list F))
| PyList (xs : list pyscalar).

Inductive dtype := DInt | DFloat.

(** [len(v[0])], or 1 when that raises. *)
Definition val_dim (v : values) : nat :=
  match v with
  | NdInt2 d (_ :: _) => d
  | NdFloat2 d (_ :: _) => d
  | _ => 1%nat
  end.

(** [v.dtype if isinstance(v, np.ndarray) else type(v[0])] *)
Definition Ytype (v : values) : result dtype :=
  match v with
  | NdInt1 _ | NdInt2 _ _ => Ok DInt
  | NdFloat1 _ | NdFloat2 _ _ => Ok DFloat
  | PyList [] => Raise IndexError
  | PyList (PyInt _ :: _) => Ok DInt
  | PyList (PyFloat _ :: _) => Ok DFloat
  end.

(** [np.full([n, d], np.nan, dtype=float)] *)
Definition full_nan_float (n d : nat) : list (list F) :=
  replicate n (replicate d fnan).

(** [np.full([n, d], np.nan, dtype=int)].  [np.full] is
    [a = empty(shape, dtype); multiarray.copyto(a, fill_value, casting='unsafe')]:
    the NaN is cast to the integer dtype like any float (numpy warns of an
    invalid value from 1.24 on) and nothing is raised. *)
Definition full_nan_int (n d : nat) : list (list Z) :=
  replicate n (replicate d (astype_int fnan)).

(** A Python number stored into a float64 array: a float as it is, an int
    by Python's [float(z)], the nearest float64, which raises OverflowError
    when that is not finite. *)
Definition py_float (a : pyscalar) : result F :=
  match a with
  | PyInt z =>
      match ftrunc (fofZ z) with
      | Some _ => Ok (fofZ z)
      | None => Raise OverflowError
      end
  | PyFloat f => Ok f
  end.

(** A Python number stored into an int64 array. *)
Definition py_int64 (a : pyscalar) : result Z :=
  let* z := match a with
            | PyInt z => Ok z
            | PyFloat f => py_int f
            end in
  if in_int64 z then Ok z else Raise OverflowError.

(** [v[i]] as a row of a float64 output of width [d]. *)
Definition value_row_float (v : values) (d : nat) (i : nat) : result (list F) :=
  match v with
  | NdInt1 xs => let* a := getitem xs (Z.of_nat i) in Ok (replicate d (fofZ a))
  | NdInt2 _ vs => let* r := getitem vs (Z.of_nat i) in broadcast_to (map fofZ r) d
  | NdFloat1 xs => let* a := getitem xs (Z.of_nat i) in Ok (replicate d a)
  | NdFloat2 _ vs => let* r := getitem vs (Z.of_nat i) in broadcast_to r d
  | PyList xs =>
      let* a := getitem xs (Z.of_nat i) in
      let* f := py_float a in
      Ok (replicate d f)
  end.

(** [v[i]] as a row of an int64 output of width [d]. *)
Definition value_row_int (v : values) (d : nat) (i : nat) : result (list Z) :=
  match v with
  | NdInt1 xs => let* a := getitem xs (Z.of_nat i) in Ok (replicate d a)
  | NdInt2 _ vs => let* r := getitem vs (Z.of_nat i) in broadcast_to r d
  | NdFloat1 xs => let* a := getitem xs (Z.of_nat i) in Ok (replicate d (astype_int a))
  | NdFloat2 _ vs => let* r := getitem vs (Z.of_nat i) in broadcast_to (map astype_int r) d
  | PyList xs =>
      let* a := getitem xs (Z.of_nat i) in
      let* z := py_int64 a in
      Ok (replicate d z)
  end.

(** [for i, Ni in enumerate(non-empty rows): Y[Ni] = v[i]], with [get i]
    for [v[i]] *)
Fixpoint propagate_loop {A} (get : nat -> result (list A)) (i : nat)
    (cells : list (list Z)) (Y : list (list A)) : result (list (list A)) :=
  match cells with
  | [] => Ok Y
  | Ni :: cells' =>
      let* row := get i in
      let* Y' := scatter Y Ni row in
      propagate_loop get (S i) cells' Y'
  end.

(** [self.N[np.sum(self.N >= 0, dtype=bool, axis=1)]] *)
Definition nonempty_rows (N : list (list Z)) : list (list Z) :=
  filter (fun Ni => existsb (fun n => 0 <=? n) Ni = true) N.

(** The output of [propagate_values]: an array of the dtype of the values. *)
Inductive output :=
| IntOut (o : array_out Z)
| FloatOut (o : array_out F).

(** [propagate_values(v, safe)] *)
Definition propagate_values (self : ReceptiveField) (v : values) (safe : bool)
  : result output :=
  let d := val_dim v in
  let* t := Ytype v in
  match rf_m self with
  | None => Raise TypeError
  | Some m =>
      match t with
      | DFloat =>
          let Y := full_nan_float (m + 1) d in
          match rf_N self with
          | None => Raise TypeError
          | Some N =>
              let* Y := propagate_loop (value_row_float v d) 0 (nonempty_rows N) Y in
              let Y := removelast Y in
              if safe && existsb (existsb fisnan) Y then Raise ValueError
              else Ok (FloatOut (matrix_or_vector d Y))
          end
      | DInt =>
          let Y := full_nan_int (m + 1) d in
          match rf_N self with
          | None => Raise TypeError
          | Some N =>
              let* Y := propagate_loop (value_row_int v d) 0 (nonempty_rows N) Y in
              let Y := removelast Y in
              (* np.isnan of an integer array is False everywhere *)
              Ok (IntOut (matrix_or_vector d Y))
          end
      end
  end.

End Model.

(** ** IEEE binary64 *)

Module B64.

Definition of_Z (z : Z) : float := SF2Prim (binary_normalize prec emax z 0 false).

(** The value of a finite float as [n * 2^e], [n] signed. *)
Definition dyadic (x : float) : option (Z * Z) :=
  match Prim2SF x with
  | S754_zero _ => Some (0, 0)
  | S754_finite s m e => Some (if s then Z.neg m else Z.pos m, e)
  | _ => None
  end.

Definition trunc (x : float) : option Z :=
  match dyadic x with
  | Some (n, e) => Some (if e <? 0 then Z.quot n (2 ^ (- e)) else n * 2 ^ e)
  | None => None
  end.

Definition signed_of (neg : bool) (mag : Z) : float :=
  if neg then PrimFloat.opp (of_Z mag) else of_Z mag.

Definition floor (x : float) : float :=
  match Prim2SF x with
  | S754_finite s m e =>
      if e <? 0 then
        let q := Z.pos m / 2 ^ (- e) in
        if s then PrimFloat.opp (of_Z (if Z.pos m mod 2 ^ (- e) =? 0 then q else q + 1))
        else of_Z q
      else x
  | _ => x
  end.

Definition ceil (x : float) : float := PrimFloat.opp (floor (PrimFloat.opp x)).

Definition rint (x : float) : float :=
  match Prim2SF x with
  | S754_finite s m e =>
      if e <? 0 then
        let q := Z.pos m / 2 ^ (- e) in
        let r := Z.pos m mod 2 ^ (- e) in
        let up := match 2 * r ?= 2 ^ (- e) with
                  | Lt => false
                  | Gt => true
                  | Eq => Z.odd q
                  end in
        signed_of s (if up then q + 1 else q)
      else x
  | _ => x
  end.

Definition mod_ (x y : float) : float :=
  match Prim2SF x, Prim2SF y with
  | S754_nan, _ | _, S754_nan | S754_infinity _, _ | _, S754_zero _ => PrimFloat.nan
  | S754_zero _, S754_infinity sy => signed_of sy 0
  | S754_finite sx _ _, S754_infinity sy => if Bool.eqb sx sy then x else y
  | _, _ =>
      match dyadic x, dyadic y with
      | Some (nx, ex), Some (ny, ey) =>
          let e := Z.min ex ey in
          let r := (nx * 2 ^ (ex - e)) mod (ny * 2 ^ (ey - e)) in
          if r =? 0 then signed_of (ny <? 0) 0
          else SF2Prim (binary_normalize prec emax r e false)
      | _, _ => PrimFloat.nan
      end
  end.

#[global] Instance binary64 : Float64 float := {|
  fnan := PrimFloat.nan;
  fisnan := PrimFloat.is_nan;
  fadd := PrimFloat.add;
  fsub := PrimFloat.sub;
  fmul := PrimFloat.mul;
  fdiv := PrimFloat.div;
  fopp := PrimFloat.opp;
  fmod := mod_;
  ffloor := floor;
  fceil := ceil;
  frint := rint;
  fofZ := of_Z;
  ftrunc := trunc
|}.

End B64.

(** ** Exact arithmetic: the rationals and NaN *)

Module Exact.

Inductive xnum := XNaN | XFin (q : Qc).

Definition lift1 (f : Qc -> Qc) (a : xnum) : xnum :=
  match a with
  | XFin p => XFin (f p)
  | XNaN => XNaN
  end.

Definition lift2 (f : Qc -> Qc -> Qc) (a b : xnum) : xnum :=
  match a, b with
  | XFin p, XFin q => XFin (f p q)
  | _, _ => XNaN
  end.

Definition of_Z (z : Z) : Qc := Q2Qc (inject_Z z).

Definition floorZ (q : Qc) : Z := Qfloor q.

Definition rintZ (q : Qc) : Z :=
  let f := Qfloor q in
  match (q - of_Z f ?= Q2Qc (1 # 2))%Qc with
  | Lt => f
  | Gt => f + 1
  | Eq => if Z.odd f then f + 1 else f
  end.

(** Division by zero has no finite value: it is NaN here. *)
Definition div (a b : xnum) : xnum :=
  match a, b with
  | XFin p, XFin q => if Qc_eq_dec q (Q2Qc 0) then XNaN else XFin (p / q)%Qc
  | _, _ => XNaN
  end.

Definition mod_ (a b : xnum) : xnum :=
  match a, b with
  | XFin p, XFin q =>
      if Qc_eq_dec q (Q2Qc 0) then XNaN
      else XFin (p - q * of_Z (floorZ (p / q)))%Qc
  | _, _ => XNaN
  end.

Definition trunc (a : xnum) : option Z :=
  match a with
  | XFin q => Some (Z.quot (Qnum q) (Z.pos (Qden q)))
  | XNaN => None
  end.

#[global] Instance exact64 : Float64 xnum := {|
  fnan := XNaN;
  fisnan := fun a => match a with XNaN => true | XFin _ => false end;
  fadd := lift2 Qcplus;
  fsub := lift2 Qcminus;
  fmul := lift2 Qcmult;
  fdiv := div;
  fopp := lift1 Qcopp;
  fmod := mod_;
  ffloor := lift1 (fun q => of_Z (floorZ q));
  fceil := lift1 (fun q => of_Z (- floorZ (- q)));
  frint := lift1 (fun q => of_Z (rintZ q));
  fofZ := fun z => XFin (of_Z z);
  ftrunc := trunc
|}.

(** A rational literal. *)
Definition lit (q : Q) : xnum := XFin (Q2Qc q).

End Exact.

(** * The vocabulary of the properties *)

(** The index [i] addresses row [c] of a matrix of [R] rows. *)
Definition in_cell (R c : nat) (i : Z) : bool :=
  match norm_index R i with
  | Ok c' => (c' =? c)%nat
  | Raise _ => false
  end.

(** The points of cell [c]: the positions, counted from [j], of the entries
    of [Ix] that address row [c]. *)
Fixpoint cell_members (R c : nat) (j : nat) (Ix : list Z) : list Z :=
  match Ix with
  | [] => []
  | i :: Ix' =>
      (if in_cell R c i then [Z.of_nat j] else []) ++ cell_members R c (S j) Ix'
  end.

(** A row of width [K]: its points, then shadow indices. *)
Definition pad (K : nat) (l : list Z) : list Z := l ++ replicate (K - length l) (-1).

(** The state of the population loop after the points of [pre]: row [c]
    holds the points [pre c] and its pointer is their number. *)
Definition pop_inv (K R : nat) (pre : nat -> list Z) (st : list (list Z) * list Z) : Prop :=
  length (fst st) = R /\ length (snd st) = R /\
  forall c, (c < R)%nat ->
    fst st !! c = Some (pad K (pre c)) /\
    snd st !! c = Some (Z.of_nat (length (pre c))) /\
    (length (pre c) <= K)%nat.

(** The slot [s] of cell [c] in the indexing matrix. *)
Definition slot (N : list (list Z)) (c s : nat) : option Z :=
  match N !! c with
  | Some row => row !! s
  | None => None
  end.

(** The shape of an indexing matrix built from [m] points: every point has
    one slot, and a row without points holds shadow indices only. *)
Definition covers (N : list (list Z)) (m : nat) : Prop :=
  (forall j, (j < m)%nat ->
     exists c s, slot N c s = Some (Z.of_nat j) /\
       forall c' s', slot N c' s' = Some (Z.of_nat j) -> c' = c /\ s' = s) /\
  (forall c row, N !! c = Some row ->
     Forall (fun n => n = -1 \/ 0 <= n < Z.of_nat m) row /\
     ((forall j, (j < m)%nat -> Z.of_nat j ∉ row) -> Forall (fun n => n = -1) row)).

(** The positions, counted from [j], of the elements that satisfy [P]. *)
Fixpoint find_indices {A} (P : A -> bool) (j : nat) (l : list A) : list nat :=
  match l with
  | [] => []
  | a :: l' => (if P a then [j] else []) ++ find_indices P (S j) l'
  end.

(** The indices of the non-empty cells, in ascending order. *)
Definition nonempty_cells (N : list (list Z)) : list nat :=
  find_indices (existsb (fun n => 0 <=? n)) 0 N.

(** The entries of a row built from [m] points. *)
Definition row_ok (m : nat) (Ni : list Z) : Prop :=
  Forall (fun n => n = -1 \/ 0 <= n < Z.of_nat m) Ni.

(** The rows [Y] are the values [vs] of the non-empty cells of [N], in
    ascending cell order, propagated to the [m] points: the row of a point
    is the value of the cell that holds it, and every point is in a
    non-empty cell. *)
Definition propagated {A} (N : list (list Z)) (m d : nat) (vs Y : list (list A)) : Prop :=
  length Y = m /\
  Forall (fun r => length r = d) Y /\
  (forall i c row j r,
     nonempty_cells N !! i = Some c -> N !! c = Some row -> Z.of_nat j ∈ row ->
     vs !! i = Some r -> Y !! j = Some r) /\
  (forall j, (j < m)%nat ->
     exists i c row, nonempty_cells N !! i = Some c /\ N !! c = Some row /\
                     Z.of_nat j ∈ row).

Section Vocabulary.
Context {F : Type} {FF : Float64 F}.
Implicit Types (v : @values F) (X : ndarray F) (x : list F).

(** [len(v)] *)
Definition v_len v : nat :=
  match v with
  | NdInt1 xs => length xs
  | NdInt2 _ vs => length vs
  | NdFloat1 xs => length xs
  | NdFloat2 _ vs => length vs
  | PyList xs => length xs
  end.

(** The floats of a list of Python numbers that float64 can hold: the
    floats of the list and the nearest floats of its ints, when these are
    finite. *)
Fixpoint float_list (xs : list (@pyscalar F)) : option (list F) :=
  match xs with
  | [] => Some []
  | a :: xs' =>
      match py_float a with
      | Ok f => option_map (cons f) (float_list xs')
      | Raise _ => None
      end
  end.

(** Float-typed values, as the rows they put into the output: a float
    ndarray of one dimension or of two with at least one column, or a list
    of numbers that float64 can hold and that starts with a float. *)
Definition float_rows v : option (list (list F)) :=
  match v with
  | NdFloat1 xs => Some (map (fun a => [a]) xs)
  | NdFloat2 d vs =>
      if (1 <=? d)%nat && forallb (fun r => (length r =? d)%nat) vs then Some vs else None
  | PyList (PyFloat f :: xs) =>
      option_map (map (fun a => [a])) (float_list (PyFloat f :: xs))
  | _ => None
  end.

(** The integers of a list of Python ints that fit int64. *)
Fixpoint int_list (xs : list (@pyscalar F)) : option (list Z) :=
  match xs with
  | [] => Some []
  | PyInt z :: xs' => if in_int64 z then option_map (cons z) (int_list xs') else None
  | PyFloat _ :: _ => None
  end.

(** Integer-typed values, as the rows they put into the output: an integer
    ndarray of one dimension or of two with at least one column, or a
    non-empty list of Python ints. *)
Definition int_rows v : option (list (list Z)) :=
  match v with
  | NdInt1 xs => Some (map (fun a => [a]) xs)
  | NdInt2 d vs =>
      if (1 <=? d)%nat && forallb (fun r => (length r =? d)%nat) vs then Some vs else None
  | PyList xs =>
      match int_list xs with
      | Some (z :: zs) => Some (map (fun a => [a]) (z :: zs))
      | _ => None
      end
  | _ => None
  end.

(** The number of entries of an output along its first axis. *)
Definition array_len {A} (o : array_out A) : nat :=
  match o with
  | Vector ys => length ys
  | Matrix Y => length (rows Y)
  end.

Definition out_len (o : @output F) : nat :=
  match o with
  | IntOut o => array_len o
  | FloatOut o => array_len o
  end.

(** [X'_jk = (X_jk - x_k) / r_k] *)
Definition normalize_row x (rad r : list F) : list F :=
  zip_with fdiv (zip_with fsub r x) rad.

(** [X_jk = r_k * X'_jk + x_k] *)
Definition denormalize_row x (rad r : list F) : list F :=
  zip_with fadd (zip_with (fun a s => fmul s a) r rad) x.

(** The rows of the normalised points [X'] selected by the indices [idx]. *)
Definition selects X (idx : list Z) (sel : list (list F)) : Prop :=
  Forall2 (fun j r => rows X !! Z.to_nat j = Some r) idx sel.

(** The points of a cell: the entries of its row of the indexing matrix
    that are not the shadow index. *)
Definition non_shadow (row : list Z) : list Z := filter (fun n => n <> -1) row.

(** The sum of numbers, added from left to right, and their arithmetic
    mean: the sum over the count. *)
Definition sum_of (l : list F) : F :=
  match l with
  | [] => fofZ 0
  | a :: l' => foldl fadd a l'
  end.

Definition mean_of (l : list F) : F := fdiv (sum_of l) (fofZ (Z.of_nat (length l))).

(** The coordinates [k] of points. *)
Definition coordinates (k : nat) (pts : list (list F)) (coords : list F) : Prop :=
  Forall2 (fun p a => p !! k = Some a) pts coords.

(** The normalised coordinate: [(a - c) / s] for the coordinate [a] of a
    point, [c] of the center and the bounding radius [s] of the axis. *)
Definition normalized (c s a : F) : F := fdiv (fsub a c) s.

End Vocabulary.

(** Finite, and finite non-zero, numbers of the exact instance. *)
Definition is_fin (a : Exact.xnum) : bool :=
  match a with
  | Exact.XFin _ => true
  | Exact.XNaN => false
  end.

Definition is_nonzero (a : Exact.xnum) : bool :=
  match a with
  | Exact.XFin q => negb (Qc_eq_bool q (Q2Qc 0))
  | Exact.XNaN => false
  end.

(** ** The scenario of the specification

    A grid of 2 x 2 cells over [[-1,1]^2], fitted in binary64 to the points
    (-0.5,-0.5), (0.5,0.5) and (0.9,0.9) around the center (0,0). *)

Module Scenario.
Local Open Scope float_scope.

Definition cell_size : list float := [1; 1].
Definition radii : list float := [1; 1].
Definition center : list float := [0; 0].
Definition points : ndarray float :=
  mk_ndarray 2 [[-0.5; -0.5]; [0.5; 0.5]; [0.9; 0.9]].

(** The instance as [__init__] builds it. *)
Definition rf0 : ReceptiveField := mk_rf cell_size 2 radii 4 None None None.

(** The instance after [fit(points, center)]. *)
Definition rf1 : ReceptiveField :=
  mk_rf cell_size 2 radii 4
        (Some [[0; -1]; [-1; -1]; [-1; -1]; [1; 2]]%Z) (Some center) (Some 3%nat).

End Scenario.

(** ** The cell index of a point, coordinate by coordinate *)

Section IndexFormula.
Context {F : Type} {FF : Float64 F}.

(** [(np.floor((X - a)/cell_size + 1e-15) * dim_factors).astype(int)] for one
    coordinate [xk] of a point, along an axis of cell size [s] and factor
    [f]; [a] is -1 on every axis. *)
Definition coord_index (xk s : F) (f : Z) : Z :=
  astype_int (fmul (ffloor (fadd (fdiv (fsub xk (fopp one)) s) eps15)) (fofZ f)).

(** [((np.floor(2/cell_size) - 1) * dim_factors).astype(int)] for one axis:
    the bound of the clip. *)
Definition max_coord_index (s : F) (f : Z) : Z :=
  astype_int (fmul (fsub (ffloor (fdiv two s)) one) (fofZ f)).

(** The clipped coordinate indices of a point. *)
Fixpoint index_terms (r cs : list F) (df : list Z) : list Z :=
  match r, cs, df with
  | xk :: r', s :: cs', f :: df' =>
      Z.min (coord_index xk s f) (max_coord_index s f) :: index_terms r' cs' df'
  | _, _, _ => []
  end.

(** The index of a point: the sum, in int64, of its clipped coordinate
    indices. *)
Definition flat_index (cs : list F) (df : list Z) (r : list F) : Z :=
  wrap64 (foldr Z.add 0 (index_terms r cs df)).

End IndexFormula.

(** ** Regular grids

    A grid is regular when the box [[-1, 1]] holds a whole number [c] of
    cells along each axis: the cell size of the axis is [2/c]. *)

Definition regular_cells (cs : list Z) : list Exact.xnum :=
  map (fun c => fdiv two (fofZ c)) cs.

Definition prodZ (cs : list Z) : Z := foldr Z.mul 1 cs.

(** The factors [p, p c_1, p c_1 c_2, ...] of the axes. *)
Fixpoint radix_factors (p : Z) (cs : list Z) : list Z :=
  match cs with
  | [] => []
  | c :: cs' => p :: radix_factors (p * c) cs'
  end.

(** A finite coordinate inside [[-1, 1]]. *)
Definition in_box (a : Exact.xnum) : bool :=
  match a with
  | Exact.XFin q => Qle_bool (-1) q && Qle_bool q 1
  | Exact.XNaN => false
  end.

(** The minimum vertex of cell [idx] of a regular grid, axis by axis: the
    mixed-radix digits of [idx] are the numbers of cells to step from -1;
    [p] is the factor of the first axis. *)
Fixpoint min_vertex (p : Z) (cs : list Z) (idx : Z) : list Exact.xnum :=
  match cs with
  | [] => []
  | c :: cs' =>
      fadd (fopp one) (fmul (fofZ ((idx / p) mod c)) (fdiv two (fofZ c)))
      :: min_vertex (p * c) cs' idx
  end.

(** * The pipelines: [src/pipeline/pipeline.py] and
      [src/pipeline/sequential_pipeline.py]

    [Pipeline.__init__] and [SequentialPipeline.run], the handling of the
    paths to the input and the output point clouds.  The validators of
    [IOUtils], [os.path.dirname] and the method [run_case], which drives the
    executor, the components and the writers, are the parameters of the
    model; the messages to the logger are left out. *)

Module Pipelines.

(** A Python [str]: the sequence of its code points. *)
Definition str := list N.

(** What [in_pcloud] and [out_pcloud] hold: a path, or a list (or tuple) of
    paths, an element of which may be [None]. *)
Inductive pclouds :=
| OnePath (s : str)
| ManyPaths (l : list (option str)).

Class Collaborators := {
  (** What a collaborator raises. *)
  E : Type;
  (** The state that [run_case] works on, [self.state]. *)
  state : Type;
  (** [IOUtils.validate_path_to_file(path, msg, accept_url=...)]: the
      exception it raises, if any; [accept_url] is [None] where the call
      leaves it to its default. *)
  validate_path_to_file : str -> option bool -> option E;
  (** [IOUtils.validate_path_to_directory(path, msg)], on whatever
      [Pipeline.__init__] hands to it. *)
  validate_path_to_directory : pclouds -> option E;
  (** [os.path.dirname] *)
  dirname : str -> str;
  (** [self.run_case(in_pcloud, out_pcloud=out_pcloud)]: the state it leaves
      and the exception it raises, if any. *)
  run_case : state -> option str -> option str -> state * option E
}.

Section WithCollaborators.
Context {C : Collaborators}.

Inductive failure :=
| PipelineException
| PyIndexError
| Raised (e : E).

Inductive res (A : Type) : Type :=
| Done (a : A)
| Fail (f : failure).
Arguments Done {A} a.
Arguments Fail {A} f.

(** The outcome of a call of a collaborator. *)
Definition call (r : option E) : res unit :=
  match r with
  | None => Done tt
  | Some e => Fail (Raised e)
  end.

(** [for a in l: f(a)], left at the first exception. *)
Fixpoint for_each {A} (f : A -> res unit) (l : list A) : res unit :=
  match l with
  | [] => Done tt
  | a :: l' =>
      match f a with
      | Done _ => for_each f l'
      | Fail e => Fail e
      end
  end.

(** [for path in p]: the elements of a list, the characters of a [str]. *)
Definition iterate (p : pclouds) : list (option str) :=
  match p with
  | OnePath s => map (fun c => Some [c]) s
  | ManyPaths l => l
  end.

(** [p[i]] for [i >= 0]: an element of a list, a character of a [str]. *)
Definition index (p : pclouds) (i : nat) : res (option str) :=
  match p with
  | OnePath s =>
      match s !! i with
      | Some c => Done (Some [c])
      | None => Fail PyIndexError
      end
  | ManyPaths l =>
      match l !! i with
      | Some path => Done path
      | None => Fail PyIndexError
      end
  end.

Record Pipeline := mk_pipeline {
  in_pcloud : pclouds;
  out_pcloud : option pclouds
}.

(** [Pipeline.__init__], called with the keywords [in_pcloud] and
    [out_pcloud].  Which of the two validations of [out_pcloud] runs is
    decided by [isinstance(self.in_pcloud, (list, tuple))]. *)
Definition init (kw_in_pcloud kw_out_pcloud : option pclouds) : res Pipeline :=
  match kw_in_pcloud with
  | None => Fail PipelineException
  | Some inp =>
      let checked_in :=
        match inp with
        | ManyPaths l =>
            for_each (fun path =>
                        match path with
                        | None => Fail PipelineException
                        | Some s => call (validate_path_to_file s (Some true))
                        end) l
        | OnePath s => call (validate_path_to_file s None)
        end in
      match checked_in with
      | Fail e => Fail e
      | Done _ =>
          match kw_out_pcloud with
          | None => Done (mk_pipeline inp None)
          | Some out =>
              let checked_out :=
                match inp with
                | ManyPaths _ =>
                    for_each (fun path =>
                                match path with
                                | None => Fail PipelineException
                                | Some s =>
                                    call (validate_path_to_directory (OnePath (dirname s)))
                                end) (iterate out)
                | OnePath _ => call (validate_path_to_directory out)
                end in
              match checked_out with
              | Fail e => Fail e
              | Done _ => Done (mk_pipeline inp (Some out))
              end
          end
      end
  end.

(** The loop of [SequentialPipeline.run], from the case [i] on. *)
Fixpoint run_loop (i : nat) (in_pclouds : list (option str)) (out : option pclouds)
    (st : state) : state * res unit :=
  match in_pclouds with
  | [] => (st, Done tt)
  | inp :: rest =>
      let out_i := match out with
                   | None => Done None
                   | Some o => index o i
                   end in
      match out_i with
      | Fail e => (st, Fail e)
      | Done o =>
          match run_case st inp o with
          | (st', Some e) => (st', Fail (Raised e))
          | (st', None) => run_loop (S i) rest out st'
          end
      end
  end.

(** [SequentialPipeline.run]: a single path is a list of one path. *)
Definition run (self : Pipeline) (st : state) : state * res unit :=
  let in_pclouds := match in_pcloud self with
                    | OnePath s => [Some s]
                    | ManyPaths l => l
                    end in
  run_loop 0 in_pclouds (out_pcloud self) st.

End WithCollaborators.

Arguments Done {C A} a.
Arguments Fail {C A} f.

End Pipelines.

(** Collaborators for the examples: every path is valid, and [run_case]
    records the case it is called for. *)
Definition recording : Pipelines.Collaborators := {|
  Pipelines.E := unit;
  Pipelines.state := list (option Pipelines.str * option Pipelines.str);
  Pipelines.validate_path_to_file := fun _ _ => None;
  Pipelines.validate_path_to_directory := fun _ => None;
  Pipelines.dirname := fun s => s;
  Pipelines.run_case := fun st i o => (st ++ [(i, o)], None)
|}.

(** * Properties *)

(** ** Index normalisation *)

Ltac zbool :=
  repeat match goal with
         | |- context [(?a <=? ?b)] => destruct (Z.leb_spec a b)
         | |- context [(?a <? ?b)] => destruct (Z.ltb_spec a b)
         end; simpl; try lia; try done.

Lemma norm_index_Ok (len : nat) (i : Z) (k : nat) :
  norm_index len i = Ok k ->
  (k < len)%nat /\ (i = Z.of_nat k \/ i = Z.of_nat k - Z.of_nat len).
Proof. unfold norm_index. zbool; intros [= <-]; lia. Qed.

Lemma norm_index_of_nat (len k : nat) :
  (k < len)%nat -> norm_index len (Z.of_nat k) = Ok k.
Proof. intros Hk. unfold norm_index. zbool. by rewrite Nat2Z.id. Qed.

Lemma norm_index_nonneg (len : nat) (i : Z) (k : nat) :
  0 <= i -> norm_index len i = Ok k -> i = Z.of_nat k /\ (k < len)%nat.
Proof.
  intros Hi H. apply norm_index_Ok in H as [Hk [->| ->]]; lia.
Qed.

Lemma norm_index_shadow (len : nat) : norm_index (S len) (-1) = Ok len.
Proof. unfold norm_index. zbool. f_equal. lia. Qed.

Lemma getitem_Ok {A} (l : list A) (i : Z) (a : A) :
  getitem l i = Ok a -> exists k, norm_index (length l) i = Ok k /\ l !! k = Some a.
Proof.
  unfold getitem. destruct (norm_index (length l) i) as [k|e] eqn:E; [|discriminate].
  simpl. destruct (l !! k) eqn:El; [|discriminate]. intros [= <-]. eauto.
Qed.

Lemma getitem_of_nat {A} (l : list A) (k : nat) (a : A) :
  l !! k = Some a -> getitem l (Z.of_nat k) = Ok a.
Proof.
  intros Hk. unfold getitem.
  rewrite norm_index_of_nat by (by eapply lookup_lt_Some). simpl. by rewrite Hk.
Qed.

Lemma getitem_past_end {A} (l : list A) (k : nat) :
  (length l <= k)%nat -> getitem l (Z.of_nat k) = Raise IndexError.
Proof. intros Hk. unfold getitem, norm_index. zbool. Qed.

(** ** The population of the indexing matrix *)

Lemma insert_pad (K : nat) (l : list Z) (x : Z) :
  (length l < K)%nat -> <[length l := x]> (pad K l) = pad K (l ++ [x]).
Proof.
  intros Hl. unfold pad.
  replace (K - length l)%nat with (S (K - length (l ++ [x]))) by (rewrite length_app; simpl; lia).
  rewrite insert_app_r_alt by lia. rewrite Nat.sub_diag. simpl.
  by rewrite <- app_assoc.
Qed.

Lemma cell_members_lookup (R c j : nat) (Ix : list Z) (z : Z) :
  z ∈ cell_members R c j Ix <->
  exists k i, z = Z.of_nat (j + k) /\ Ix !! k = Some i /\ norm_index R i = Ok c.
Proof.
  revert j. induction Ix as [|i Ix IH]; intros j; simpl.
  - split; [by intros ?%elem_of_nil | by intros (k & i & _ & ? & _)].
  - rewrite elem_of_app, IH. split.
    + intros [Hz | (k & i' & -> & Hk & Hc)].
      * unfold in_cell in Hz. destruct (norm_index R i) as [c'|] eqn:E; [|by apply elem_of_nil in Hz].
        destruct (Nat.eqb_spec c' c) as [->|]; [|by apply elem_of_nil in Hz].
        apply list_elem_of_singleton in Hz as ->.
        exists 0%nat, i. split; [f_equal; lia | done].
      * exists (S k), i'. split; [f_equal; lia | done].
    + intros ([|k] & i' & -> & Hk & Hc); simpl in Hk.
      * injection Hk as ->. left. unfold in_cell. rewrite Hc, Nat.eqb_refl.
        apply list_elem_of_singleton. f_equal. lia.
      * right. exists k, i'. split; [f_equal; lia | done].
Qed.

Lemma cell_members_ge (R c j : nat) (Ix : list Z) (z : Z) :
  z ∈ cell_members R c j Ix -> Z.of_nat j <= z < Z.of_nat (j + length Ix).
Proof.
  intros (k & i & -> & Hk & _)%cell_members_lookup.
  apply lookup_lt_Some in Hk. lia.
Qed.

Lemma cell_members_NoDup (R c j : nat) (Ix : list Z) : NoDup (cell_members R c j Ix).
Proof.
  revert j. induction Ix as [|i Ix IH]; intros j; simpl; [constructor|].
  destruct (in_cell R c i); simpl; [|done].
  constructor; [|done]. intros Hin%cell_members_ge. lia.
Qed.

Lemma in_cell_Ok (R c c' : nat) (i : Z) :
  norm_index R i = Ok c -> in_cell R c' i = (c =? c')%nat.
Proof. intros H. unfold in_cell. by rewrite H. Qed.

Lemma populate_step_inv (K R : nat) pre st (j : nat) (i : Z) st' :
  pop_inv K R pre st ->
  populate_step K st j i = Ok st' ->
  (exists c, norm_index R i = Ok c) /\
  pop_inv K R (fun c => pre c ++ (if in_cell R c i then [Z.of_nat j] else [])) st'.
Proof.
  destruct st as [N ptrs]. intros (HN & Hp & Hrows). simpl in HN, Hp, Hrows.
  unfold populate_step.
  destruct (getitem ptrs i) as [p|] eqn:Eg; [simpl|discriminate].
  apply getitem_Ok in Eg as (r & Hr & Hpr). rewrite Hp in Hr. rewrite HN, Hr. simpl.
  destruct (norm_index_Ok _ _ _ Hr) as [HrR _].
  destruct (Hrows r HrR) as (Hrow & Hptr & Hlen).
  rewrite Hptr in Hpr. injection Hpr as <-.
  destruct (norm_index K _) as [c|] eqn:Ec; [simpl|discriminate].
  apply norm_index_nonneg in Ec as [Hc HcK]; [|lia].
  apply Nat2Z.inj in Hc. subst c.
  intros [= <-]. split; [by eauto|]. unfold pop_inv. simpl.
  split; [by rewrite length_alter|]. split; [by rewrite length_alter|].
  intros c Hc. rewrite (in_cell_Ok _ _ _ _ Hr).
  destruct (Nat.eqb_spec r c) as [->|Hne].
  - rewrite !list_lookup_alter_eq, Hrow, Hptr. simpl.
    rewrite insert_pad by done. rewrite length_app. simpl.
    split; [done|]. split; [f_equal; lia | lia].
  - rewrite !list_lookup_alter_ne by done. rewrite app_nil_r. by apply Hrows.
Qed.

Lemma populate_loop_inv (K R : nat) (Ix : list Z) pre st (j : nat) st' :
  pop_inv K R pre st ->
  populate_loop K j Ix st = Ok st' ->
  Forall (fun i => exists c, norm_index R i = Ok c) Ix /\
  pop_inv K R (fun c => pre c ++ cell_members R c j Ix) st'.
Proof.
  revert pre st j. induction Ix as [|i Ix IH]; intros pre st j Hinv; simpl.
  - intros [= <-]. split; [constructor|].
    destruct Hinv as (? & ? & Hrows). repeat split; try done;
      rewrite app_nil_r; by apply Hrows.
  - destruct (populate_step K st j i) as [st1|] eqn:Es; [simpl|discriminate].
    intros Hloop.
    destruct (populate_step_inv _ _ _ _ _ _ _ Hinv Es) as [Hi Hinv1].
    destruct (IH _ _ _ Hinv1 Hloop) as [HIx (H1 & H2 & Hrows)].
    split; [by constructor|].
    repeat split; try done; destruct (Hrows c) as (Ha & Hb & Hc); try done;
      by rewrite ?app_assoc.
Qed.

(** What a successful population returns: every index of [Ix] addresses a
    row, and row [c] is the list of the points of cell [c], in their order,
    padded with the shadow index. *)
Lemma populate_Ok (R : Z) (Ix : list Z) (N : list (list Z)) :
  populate R Ix = Ok N ->
  exists K : nat,
    0 <= R /\ Ix <> [] /\ length N = Z.to_nat R /\
    Forall (fun i => exists c, norm_index (Z.to_nat R) i = Ok c) Ix /\
    forall c, (c < Z.to_nat R)%nat ->
      N !! c = Some (pad K (cell_members (Z.to_nat R) c 0 Ix)) /\
      (length (cell_members (Z.to_nat R) c 0 Ix) <= K)%nat.
Proof.
  unfold populate.
  destruct (max_num_neighs Ix) as [K|] eqn:EK; [simpl|discriminate].
  destruct (Z.ltb_spec R 0) as [|HR]; [discriminate|].
  destruct (populate_loop _ _ _ _) as [st|] eqn:El; [simpl|discriminate].
  intros [= <-]. exists K.
  assert (Hinv0 : pop_inv K (Z.to_nat R) (fun _ => [])
            (replicate (Z.to_nat R) (replicate K (-1)), replicate (Z.to_nat R) 0)).
  { unfold pop_inv, pad. simpl. rewrite !length_replicate, Nat.sub_0_r.
    repeat split; try done; try lia; by apply lookup_replicate_2. }
  destruct (populate_loop_inv _ _ _ _ _ _ _ Hinv0 El) as [HIx (H1 & H2 & Hrows)].
  repeat split; try done.
  - intros ->. unfold max_num_neighs in EK. by rewrite filter_nil in EK.
  - by apply Hrows.
  - by apply Hrows.
Qed.

Lemma pad_lookup_nonneg (K : nat) (l : list Z) (s : nat) (z : Z) :
  pad K l !! s = Some z -> 0 <= z -> l !! s = Some z.
Proof.
  unfold pad. intros [H|[_ H]]%lookup_app_Some Hz; [done|].
  apply lookup_replicate in H as [-> _]. lia.
Qed.

(** ** Shapes *)

Lemma mapM_length {A B} (f : A -> result B) (l : list A) (l' : list B) :
  mapM f l = Ok l' -> length l' = length l.
Proof.
  revert l'. induction l as [|a l IH]; intros l'; simpl.
  - by intros [= <-].
  - destruct (f a); [simpl|discriminate].
    destruct (mapM f l) as [bs|]; [simpl|discriminate].
    intros [= <-]. simpl. f_equal. by apply IH.
Qed.

Lemma mapM_lookup {A B} (f : A -> result B) (l : list A) (l' : list B) (k : nat) (a : A) :
  mapM f l = Ok l' -> l !! k = Some a -> exists b, f a = Ok b /\ l' !! k = Some b.
Proof.
  revert l' k. induction l as [|a0 l IH]; intros l' k; simpl; [done|].
  destruct (f a0) as [b0|] eqn:E0; [simpl|discriminate].
  destruct (mapM f l) as [bs|]; [simpl|discriminate].
  intros [= <-]. destruct k as [|k]; simpl.
  - intros [= <-]. eauto.
  - by apply IH.
Qed.

Lemma mapM_Ok {A B} (f : A -> result B) (l : list A) :
  Forall (fun a => exists b, f a = Ok b) l -> exists l', mapM f l = Ok l'.
Proof.
  induction 1 as [|a l [b Hb] _ [l' IH]]; simpl; [by eauto|].
  rewrite Hb, IH. simpl. eauto.
Qed.

Lemma mat_op_rows {A B C} (op : A -> B -> C) (X : ndarray A) (v : list B) (Y : ndarray C) :
  mat_op op X v = Ok Y -> length (rows Y) = length (rows X).
Proof.
  unfold mat_op. destruct (broadcast_len _ _); [simpl|discriminate].
  intros [= <-]. simpl. by rewrite length_map.
Qed.

Section Fit.
Context {F : Type} {FF : Float64 F}.
Implicit Types (self : @ReceptiveField F) (X : ndarray F) (x : list F).

Lemma center_and_scale_rows self X X' :
  center_and_scale self X = Ok X' -> length (rows X') = length (rows X).
Proof.
  unfold center_and_scale. destruct (rf_x self).
  - destruct (mat_op fsub X l) as [D|] eqn:ED; [simpl|discriminate].
    intros H%mat_op_rows. apply mat_op_rows in ED. congruence.
  - destruct (no_elements X); [apply mat_op_rows|discriminate].
Qed.

Lemma point_indices_length self X Ix :
  point_indices self X = Ok Ix -> length Ix = length (rows X).
Proof.
  unfold point_indices. destruct (rf_x self); [|discriminate].
  destruct (dim_factors _ _ _); [simpl|discriminate].
  destruct (mat_op fsub X _) as [Xa|] eqn:E1; [simpl|discriminate].
  destruct (mat_op fdiv Xa _) as [Xq|] eqn:E2; [simpl|discriminate].
  destruct (mat_op _ (mat_map _ Xq) _) as [T|] eqn:E3; [simpl|discriminate].
  destruct (vec_op _ _ _); [simpl|discriminate].
  destruct (decide (rows T = [])); [discriminate|].
  destruct (mapM _ (rows T)) as [C|] eqn:E4; [simpl|discriminate].
  intros [= <-]. rewrite length_map.
  apply mapM_length in E4. apply mat_op_rows in E1, E2, E3.
  unfold mat_map in E3. simpl in E3. rewrite length_map in E3. congruence.
Qed.

(** A successful [fit], step by step. *)
Lemma fit_Ok self self' X x :
  fit self (Some X) (Some x) = (Ok tt, self') ->
  exists X' Ix N,
    center_and_scale (set_x self x) X = Ok X' /\
    point_indices (set_x self x) X' = Ok Ix /\
    populate (num_cells self) Ix = Ok N /\
    length Ix = length (rows X) /\
    self' = set_m (set_N (set_x self x) N) (length (rows X)).
Proof.
  unfold fit.
  destruct (center_and_scale _ X) as [X'|] eqn:EX; [|discriminate].
  unfold shadow_indexing_matrix_from_points.
  destruct (point_indices _ X') as [Ix|] eqn:EI; [simpl|discriminate].
  destruct (populate _ Ix) as [N|] eqn:EN; [|discriminate].
  intros [= <-]. exists X', Ix, N.
  apply center_and_scale_rows in EX. rewrite <- EX.
  repeat split; try done. by apply point_indices_length in EI.
Qed.

End Fit.

Lemma populate_covers (R : Z) (Ix : list Z) (N : list (list Z)) :
  populate R Ix = Ok N -> covers N (length Ix).
Proof.
  intros (K & HR & Hne & HlenN & HIx & Hrows)%populate_Ok.
  set (Rn := Z.to_nat R) in *.
  assert (Hrow : forall c row, N !! c = Some row ->
            row = pad K (cell_members Rn c 0 Ix)).
  { intros c row Hc. assert (c < Rn)%nat as Hlt by (rewrite <- HlenN; by eapply lookup_lt_Some).
    destruct (Hrows c Hlt) as [Hr _]. congruence. }
  split.
  - intros j Hj.
    destruct (lookup_lt_is_Some_2 Ix j Hj) as [i Hi].
    rewrite Forall_forall in HIx.
    destruct (HIx i) as [c Hc]; [by eapply list_elem_of_lookup_2|].
    destruct (norm_index_Ok _ _ _ Hc) as [HcR _].
    assert (Hin : Z.of_nat j ∈ cell_members Rn c 0 Ix).
    { apply cell_members_lookup. exists j, i. by repeat split. }
    apply list_elem_of_lookup in Hin as [s Hs].
    destruct (Hrows c HcR) as [Hr _].
    exists c, s. split.
    + unfold slot. rewrite Hr. unfold pad. rewrite lookup_app_l; [done|by eapply lookup_lt_Some].
    + intros c' s'. unfold slot. destruct (N !! c') as [row'|] eqn:Ec'; [|done].
      rewrite (Hrow _ _ Ec'). intros Hs'%pad_lookup_nonneg; [|lia].
      assert (c' = c) as ->.
      { apply list_elem_of_lookup_2, cell_members_lookup in Hs' as (k & i' & Hk & Hi' & Hc').
        assert (k = j) as -> by lia. congruence. }
      split; [done|]. eapply NoDup_lookup; eauto using cell_members_NoDup.
  - intros c row Hc. rewrite (Hrow _ _ Hc). split.
    + unfold pad. apply Forall_app. split.
      * apply Forall_forall. intros z Hz%cell_members_ge. right. lia.
      * apply Forall_forall. intros z ->%elem_of_replicate_inv. by left.
    + intros Hno.
      assert (cell_members Rn c 0 Ix = []) as ->.
      { destruct (cell_members Rn c 0 Ix) as [|z l] eqn:E; [done|]. exfalso.
        assert (Hz : z ∈ cell_members Rn c 0 Ix) by (rewrite E; left).
        pose proof (cell_members_ge _ _ _ _ _ Hz) as Hge.
        apply (Hno (Z.to_nat z)); [lia|].
        rewrite Z2Nat.id by lia. unfold pad. simpl. left. }
      unfold pad. simpl. apply Forall_forall. by intros z ->%elem_of_replicate_inv.
Qed.

(** C1 (index coverage).  After a successful [fit] on [m] points the
    indexing matrix holds every point index of [0..m-1] in exactly one slot
    of exactly one cell, every entry is a point index or the shadow index
    [-1], and a cell without points holds the shadow index in every slot. *)
Theorem fit_index_coverage {F : Type} {FF : Float64 F}
    (self self' : ReceptiveField) (X : ndarray F) (x : list F) :
  fit self (Some X) (Some x) = (Ok tt, self') ->
  exists N,
    rf_N self' = Some N /\ rf_m self' = Some (length (rows X)) /\
    (forall j, (j < length (rows X))%nat ->
       exists c s, slot N c s = Some (Z.of_nat j) /\
         forall c' s', slot N c' s' = Some (Z.of_nat j) -> c' = c /\ s' = s) /\
    (forall c row, N !! c = Some row ->
       (forall j, (j < length (rows X))%nat -> Z.of_nat j ∉ row) ->
       Forall (fun n => n = -1) row).
Proof.
  intros (X' & Ix & N & _ & _ & HN & Hlen & ->)%fit_Ok.
  exists N. split; [done|]. split; [done|].
  apply populate_covers in HN as [H1 H2]. rewrite Hlen in H1, H2.
  split; [done|]. intros c row Hc. by apply (H2 c row Hc).
Qed.

(** ** The non-empty cells *)

Lemma find_indices_ge {A} (P : A -> bool) (j : nat) (l : list A) (c : nat) :
  c ∈ find_indices P j l -> (j <= c)%nat.
Proof.
  revert j. induction l as [|a l IH]; intros j; simpl; [by intros ?%elem_of_nil|].
  intros [H|H]%elem_of_app.
  - destruct (P a); [|by apply elem_of_nil in H]. apply list_elem_of_singleton in H. lia.
  - apply IH in H. lia.
Qed.

Lemma find_indices_NoDup {A} (P : A -> bool) (j : nat) (l : list A) :
  NoDup (find_indices P j l).
Proof.
  revert j. induction l as [|a l IH]; intros j; simpl; [constructor|].
  destruct (P a); simpl; [|done].
  constructor; [|done]. intros H%find_indices_ge. lia.
Qed.

Lemma find_indices_filter {A} (P : A -> bool) (j : nat) (l : list A) (k : nat) (a : A) :
  filter (fun a => P a = true) l !! k = Some a ->
  exists c, find_indices P j l !! k = Some c /\ (j <= c)%nat /\ l !! (c - j)%nat = Some a.
Proof.
  revert j k. induction l as [|a0 l IH]; intros j k; simpl; [done|].
  rewrite filter_cons. destruct (decide (P a0 = true)) as [Hp|Hp].
  - rewrite Hp. simpl. destruct k as [|k]; simpl.
    + intros [= <-]. exists j. by rewrite Nat.sub_diag.
    + intros (c & Hc & Hj & Hl)%(IH (S j)). exists c. split; [done|]. split; [lia|].
      replace (c - j)%nat with (S (c - S j)) by lia. done.
  - apply not_true_is_false in Hp. rewrite Hp. simpl.
    intros (c & Hc & Hj & Hl)%(IH (S j)). exists c. split; [done|]. split; [lia|].
    replace (c - j)%nat with (S (c - S j)) by lia. done.
Qed.

Lemma find_indices_lookup {A} (P : A -> bool) (j : nat) (l : list A) (k c : nat) :
  find_indices P j l !! k = Some c ->
  exists a, l !! (c - j)%nat = Some a /\ P a = true /\
            filter (fun a => P a = true) l !! k = Some a.
Proof.
  revert j k. induction l as [|a0 l IH]; intros j k; simpl; [done|].
  rewrite filter_cons. destruct (decide (P a0 = true)) as [Hp|Hp].
  - rewrite Hp. simpl. destruct k as [|k]; simpl.
    + intros [= <-]. exists a0. by rewrite Nat.sub_diag.
    + intros Hk. pose proof (find_indices_ge _ _ _ _ (list_elem_of_lookup_2 _ _ _ Hk)).
      apply IH in Hk as (a & Ha & HP & Hf). exists a.
      replace (c - j)%nat with (S (c - S j)) by lia. done.
  - apply not_true_is_false in Hp. rewrite Hp. simpl.
    intros Hk. pose proof (find_indices_ge _ _ _ _ (list_elem_of_lookup_2 _ _ _ Hk)).
    apply IH in Hk as (a & Ha & HP & Hf). exists a.
    replace (c - j)%nat with (S (c - S j)) by lia. done.
Qed.

Lemma find_indices_length {A} (P : A -> bool) (j : nat) (l : list A) :
  length (find_indices P j l) = length (filter (fun a => P a = true) l).
Proof.
  revert j. induction l as [|a l IH]; intros j; simpl; [done|].
  rewrite filter_cons, length_app, IH.
  destruct (decide (P a = true)) as [Hp|Hp].
  - by rewrite Hp.
  - apply not_true_is_false in Hp. by rewrite Hp.
Qed.

Lemma existsb_nonneg (row : list Z) (z : Z) :
  z ∈ row -> 0 <= z -> existsb (fun n => 0 <=? n) row = true.
Proof.
  intros Hin Hz. apply existsb_exists. exists z. split.
  - by apply list_elem_of_In.
  - by apply Z.leb_le.
Qed.

(** The [k]-th non-empty row is the row of the [k]-th non-empty cell. *)
Lemma nonempty_rows_cells (N : list (list Z)) (k : nat) (row : list Z) :
  nonempty_rows N !! k = Some row ->
  exists c, nonempty_cells N !! k = Some c /\ N !! c = Some row.
Proof.
  intros (c & Hc & _ & Hl)%(find_indices_filter _ 0). rewrite Nat.sub_0_r in Hl. eauto.
Qed.

Lemma nonempty_cells_rows (N : list (list Z)) (k c : nat) :
  nonempty_cells N !! k = Some c ->
  exists row, N !! c = Some row /\ nonempty_rows N !! k = Some row.
Proof.
  intros (row & Hl & _ & Hf)%find_indices_lookup. rewrite Nat.sub_0_r in Hl. eauto.
Qed.

Lemma nonempty_cells_length (N : list (list Z)) :
  length (nonempty_cells N) = length (nonempty_rows N).
Proof. apply find_indices_length. Qed.

(** A point of a covered matrix lies in one non-empty row. *)
Lemma covers_nonempty_row (N : list (list Z)) (m j : nat) :
  covers N m -> (j < m)%nat ->
  exists k row, nonempty_rows N !! k = Some row /\ Z.of_nat j ∈ row /\
    forall k' row', nonempty_rows N !! k' = Some row' -> Z.of_nat j ∈ row' -> k' = k.
Proof.
  intros [Hcov _] Hj. destruct (Hcov j Hj) as (c & s & Hs & Huniq).
  unfold slot in Hs. destruct (N !! c) as [row|] eqn:Hc; [|done].
  assert (Hin : Z.of_nat j ∈ row) by (by eapply list_elem_of_lookup_2).
  assert (Hne : existsb (fun n => 0 <=? n) row = true) by (eapply existsb_nonneg; [done|lia]).
  assert (Hmem : row ∈ nonempty_rows N).
  { apply list_elem_of_filter. split; [done|]. by eapply list_elem_of_lookup_2. }
  apply list_elem_of_lookup in Hmem as [k Hk].
  exists k, row. split; [done|]. split; [done|].
  intros k' row' Hk' Hin'.
  destruct (nonempty_rows_cells _ _ _ Hk) as (c1 & Hc1 & Hr1).
  destruct (nonempty_rows_cells _ _ _ Hk') as (c2 & Hc2 & Hr2).
  apply list_elem_of_lookup in Hin' as [s' Hs'].
  assert (c2 = c) as -> by (apply (Huniq c2 s'); unfold slot; by rewrite Hr2).
  apply list_elem_of_lookup in Hin as [s1 Hs1].
  assert (c1 = c) as -> by (apply (Huniq c1 s1); unfold slot; by rewrite Hr1).
  eapply NoDup_lookup; eauto. apply find_indices_NoDup.
Qed.

(** ** Propagation *)

Lemma scatter_Ok {A} (m : nat) (Y : list (list A)) (Ni : list Z) (row : list A) :
  length Y = S m -> row_ok m Ni ->
  exists Y', scatter Y Ni row = Ok Y' /\ length Y' = S m /\
    forall j, (j < m)%nat ->
      Y' !! j = if decide (Z.of_nat j ∈ Ni) then Some row else Y !! j.
Proof.
  unfold scatter. intros HY HNi. revert Y HY.
  induction HNi as [|n Ni Hn _ IH]; intros Y HY; simpl.
  - by exists Y.
  - assert (exists k, norm_index (length Y) n = Ok k /\ (k < S m)%nat /\
              forall j, (j < m)%nat -> k = j <-> n = Z.of_nat j) as (k & Hk & Hkm & Hkj).
    { rewrite HY. destruct Hn as [->|Hn].
      - exists m. rewrite norm_index_shadow. repeat split; try lia.
      - exists (Z.to_nat n). replace n with (Z.of_nat (Z.to_nat n)) at 1 by lia.
        rewrite norm_index_of_nat by lia. repeat split; try lia. }
    rewrite Hk. simpl.
    destruct (IH (<[k := row]> Y)) as (Y' & HY' & Hlen & Hget);
      [by rewrite length_insert|].
    exists Y'. repeat split; try done. intros j Hj. rewrite (Hget j Hj).
    destruct (decide (Z.of_nat j ∈ Ni)) as [Hin|Hin].
    + rewrite decide_True; [done|by right].
    + destruct (decide (n = Z.of_nat j)) as [->|Hne].
      * rewrite decide_True by left.
        apply Hkj in Hj. assert (k = j) as -> by (by apply Hj).
        apply list_lookup_insert_eq. lia.
      * rewrite decide_False.
        -- apply list_lookup_insert_ne. intros ->. apply Hne. by apply Hkj.
        -- intros [?|?]%elem_of_cons; congruence.
Qed.

Lemma propagate_loop_Ok {A} (get : nat -> result (list A)) (m : nat)
    (cells : list (list Z)) (i0 : nat) (Y : list (list A)) :
  length Y = S m -> Forall (row_ok m) cells ->
  (forall k, (k < length cells)%nat -> exists r, get (i0 + k)%nat = Ok r) ->
  exists Y', propagate_loop get i0 cells Y = Ok Y' /\ length Y' = S m /\
    forall j, (j < m)%nat ->
      (forall k row r, cells !! k = Some row -> Z.of_nat j ∈ row ->
         (forall k' row', cells !! k' = Some row' -> Z.of_nat j ∈ row' -> k' = k) ->
         get (i0 + k)%nat = Ok r -> Y' !! j = Some r) /\
      ((forall row, row ∈ cells -> Z.of_nat j ∉ row) -> Y' !! j = Y !! j).
Proof.
  intros HY Hcells. revert i0 Y HY.
  induction Hcells as [|Ni cells HNi _ IH]; intros i0 Y HY Hval; simpl.
  - exists Y. repeat split; try done.
  - destruct (Hval 0%nat) as [r0 Hr0]; [simpl; lia|].
    rewrite Nat.add_0_r in Hr0. rewrite Hr0. simpl.
    destruct (scatter_Ok m Y Ni r0 HY HNi) as (Y1 & HY1 & Hlen1 & Hget1).
    rewrite HY1. simpl.
    destruct (IH (S i0) Y1 Hlen1) as (Y' & HY' & Hlen' & Hget').
    { intros k Hk. destruct (Hval (S k)) as [r Hr]; [simpl; lia|].
      exists r. by replace (S i0 + k)%nat with (i0 + S k)%nat by lia. }
    exists Y'. split; [done|]. split; [done|].
    intros j Hj. destruct (Hget' j Hj) as [Hin Hout]. split.
    + intros [|k] row r Hk Hjrow Huniq Hr; simpl in Hk.
      * injection Hk as ->. rewrite Nat.add_0_r in Hr.
        rewrite Hout.
        -- rewrite (Hget1 j Hj), decide_True by done. congruence.
        -- intros row' [k' Hk']%list_elem_of_lookup Hin'.
           by specialize (Huniq (S k') row' Hk' Hin').
      * apply (Hin k row r Hk Hjrow).
        -- intros k' row' Hk' Hin'. specialize (Huniq (S k') row' Hk' Hin'). lia.
        -- by replace (S i0 + k)%nat with (i0 + S k)%nat by lia.
    + intros Hno. rewrite Hout.
      * rewrite (Hget1 j Hj), decide_False; [done|]. apply Hno. left.
      * intros row Hrow. apply Hno. by right.
Qed.

(** Values that run out before the non-empty cells do. *)
Lemma propagate_loop_short {A} (get : nat -> result (list A)) (len : nat)
    (cells : list (list Z)) (i0 : nat) (Y : list (list A)) :
  (forall i, (len <= i)%nat -> get i = Raise IndexError) ->
  (i0 <= len < i0 + length cells)%nat -> raises (propagate_loop get i0 cells Y).
Proof.
  intros Hend. revert i0 Y. induction cells as [|Ni cells IH]; intros i0 Y; simpl; [lia|].
  intros Hlt. destruct (get i0) as [row|e] eqn:Er; [simpl|by exists e].
  destruct (scatter Y Ni row) as [Y'|e]; [simpl|by exists e].
  apply IH. destruct (decide (len <= i0)%nat) as [Hle|]; [|lia].
  rewrite Hend in Er by done. discriminate.
Qed.

Lemma removelast_lookup {A} (l : list A) (j : nat) :
  (S j < length l)%nat -> removelast l !! j = l !! j.
Proof.
  intros Hj. rewrite removelast_firstn_len. apply lookup_take_lt. lia.
Qed.

Lemma length_removelast {A} (l : list A) : length (removelast l) = (length l - 1)%nat.
Proof. rewrite removelast_firstn_len, length_take. lia. Qed.

(** The loop of [propagate_values] on a covered matrix, for values that
    cover the non-empty cells. *)
Lemma propagate_loop_covers {A} (get : nat -> result (list A)) (vs : list (list A))
    (N : list (list Z)) (m d : nat) (Y0 : list (list A)) :
  covers N m -> (0 < m)%nat -> length Y0 = S m ->
  length vs = length (nonempty_cells N) ->
  (forall i r, vs !! i = Some r -> get i = Ok r /\ length r = d) ->
  exists Y',
    propagate_loop get 0 (nonempty_rows N) Y0 = Ok Y' /\
    propagated N m d vs (removelast Y') /\
    forall P : list A -> Prop, Forall P vs -> Forall P (removelast Y').
Proof.
  intros Hcov Hpos HY0 Hlen Hval.
  rewrite nonempty_cells_length in Hlen.
  assert (Hrows : Forall (row_ok m) (nonempty_rows N)).
  { apply Forall_forall. intros row [_ [c Hc]%list_elem_of_lookup]%list_elem_of_filter.
    by apply (proj2 Hcov c row Hc). }
  destruct (propagate_loop_Ok get m (nonempty_rows N) 0 Y0 HY0 Hrows)
    as (Y' & HY' & HlenY' & Hget).
  { intros k Hk. rewrite <- Hlen in Hk.
    destruct (lookup_lt_is_Some_2 vs k Hk) as [r Hr]. exists r. by apply Hval. }
  assert (Hpoint : forall j, (j < m)%nat ->
            exists k r, vs !! k = Some r /\ removelast Y' !! j = Some r /\
              forall k' row', nonempty_rows N !! k' = Some row' ->
                Z.of_nat j ∈ row' -> k' = k).
  { intros j Hj. destruct (covers_nonempty_row N m j Hcov Hj) as (k & row & Hk & Hin & Huniq).
    assert (k < length vs)%nat as Hkv by (rewrite Hlen; by eapply lookup_lt_Some).
    destruct (lookup_lt_is_Some_2 vs k Hkv) as [r Hr].
    exists k, r. split; [done|]. split; [|done].
    rewrite removelast_lookup by lia.
    apply (proj1 (Hget j Hj) k row r Hk Hin Huniq). by apply Hval. }
  assert (HallY : forall (P : list A -> Prop),
            Forall P vs -> Forall P (removelast Y')).
  { intros P HP. apply Forall_lookup. intros j r Hr.
    assert (j < m)%nat as Hj.
    { apply lookup_lt_Some in Hr. rewrite length_removelast in Hr. lia. }
    destruct (Hpoint j Hj) as (k & r' & Hk & Hr' & _).
    rewrite Forall_lookup in HP. assert (r = r') as -> by congruence. by eapply HP. }
  exists Y'. split; [done|]. split; [|done]. unfold propagated. split_and!.
  - rewrite length_removelast. lia.
  - apply HallY. apply Forall_lookup. intros i r Hr. by destruct (Hval i r Hr).
  - intros i c row j r Hc Hrow Hin Hr.
    assert (j < m)%nat as Hj.
    { destruct (proj2 Hcov c row Hrow) as [Hb _]. rewrite Forall_forall in Hb.
      destruct (Hb _ Hin); lia. }
    destruct (Hpoint j Hj) as (k & r' & Hk & Hr' & Huniq).
    destruct (nonempty_cells_rows _ _ _ Hc) as (row' & Hrow' & Hi).
    assert (row' = row) as -> by congruence.
    assert (i = k) as -> by (by eapply Huniq). congruence.
  - intros j Hj. destruct (covers_nonempty_row N m j Hcov Hj) as (k & row & Hk & Hin & _).
    destruct (nonempty_rows_cells _ _ _ Hk) as (c & Hc & Hrow). eauto 6.
Qed.

Lemma matrix_or_vector_len {A} (d : nat) (Y : list (list A)) :
  (1 <= d)%nat -> Forall (fun r => length r = d) Y ->
  array_len (matrix_or_vector d Y) = length Y.
Proof.
  intros Hd HY. unfold matrix_or_vector.
  destruct (Nat.ltb_spec 1 d) as [|Hle]; simpl; [done|].
  assert (d = 1%nat) as -> by lia.
  induction HY as [|r Y Hr _ IH]; simpl; [done|].
  rewrite length_app, Hr, IH. done.
Qed.

Section Propagate.
Context {F : Type} {FF : Float64 F}.
Implicit Types (self : @ReceptiveField F) (v : @values F) (X : ndarray F).

Lemma value_row_float_past_end v (d i : nat) :
  (v_len v <= i)%nat -> value_row_float v d i = Raise IndexError.
Proof.
  intros Hi. destruct v; simpl in *; by rewrite getitem_past_end.
Qed.

Lemma value_row_int_past_end v (d i : nat) :
  (v_len v <= i)%nat -> value_row_int v d i = Raise IndexError.
Proof.
  intros Hi. destruct v; simpl in *; by rewrite getitem_past_end.
Qed.

Lemma uniform_rows {A} (d : nat) (ws : list (list A)) (r : list A) (i : nat) :
  forallb (fun r => (length r =? d)%nat) ws = true ->
  ws !! i = Some r -> length r = d /\ broadcast_to r d = Ok r.
Proof.
  intros Hall Hr. rewrite forallb_forall in Hall.
  assert (length r = d) as Hlen.
  { apply Nat.eqb_eq, Hall, list_elem_of_In. by eapply list_elem_of_lookup_2. }
  split; [done|]. unfold broadcast_to. by rewrite Hlen, Nat.eqb_refl.
Qed.

Lemma float_list_lookup (xs : list (@pyscalar F)) (fs : list F) :
  float_list xs = Some fs ->
  length xs = length fs /\
  forall i a, fs !! i = Some a -> exists b, xs !! i = Some b /\ py_float b = Ok a.
Proof.
  revert fs. induction xs as [|b xs IH]; intros fs; simpl.
  - intros [= <-]. split; [done|]. by intros i a.
  - destruct (py_float b) as [a0|] eqn:Eb; [|discriminate].
    destruct (float_list xs) as [fs'|]; [simpl|discriminate].
    intros [= <-]. destruct (IH fs' eq_refl) as [Hlen Hget]. split; [simpl; lia|].
    intros [|i] a; simpl.
    + intros [= <-]. by exists b.
    + apply Hget.
Qed.

Lemma float_rows_spec v (vs : list (list F)) :
  float_rows v = Some vs -> vs <> [] ->
  Ytype v = Ok DFloat /\ v_len v = length vs /\ (1 <= val_dim v)%nat /\
  forall i r, vs !! i = Some r ->
    value_row_float v (val_dim v) i = Ok r /\ length r = val_dim v.
Proof.
  destruct v as [xs|d ws|xs|d ws|[|[z|f] xs]]; try discriminate; unfold float_rows.
  - intros [= <-] _. simpl. rewrite length_map. repeat split; try done.
    + apply list_lookup_fmap_Some in H as (a & -> & Ha).
      by rewrite (getitem_of_nat _ _ _ Ha).
    + by apply list_lookup_fmap_Some in H as (a & -> & Ha).
  - destruct (_ && _) eqn:E; [|discriminate].
    apply andb_true_iff in E as [Hd Hall]. apply Nat.leb_le in Hd.
    intros [= <-] Hne. destruct ws as [|w ws]; [done|].
    simpl val_dim. simpl Ytype. simpl v_len. repeat split; try done.
    + unfold value_row_float. rewrite (getitem_of_nat _ _ _ H). simpl.
      by destruct (uniform_rows d _ r i Hall H).
    + by destruct (uniform_rows d _ r i Hall H).
  - destruct (float_list (PyFloat f :: xs)) as [fs|] eqn:El; [|discriminate].
    destruct (float_list_lookup _ _ El) as [Hlen Hget].
    intros [= <-] _. simpl Ytype. simpl val_dim. simpl v_len.
    split; [done|]. split; [by rewrite length_map|]. split; [done|].
    intros i r (a & -> & Ha)%list_lookup_fmap_Some. split; [|done].
    destruct (Hget i a Ha) as (b & Hb & Hconv).
    unfold value_row_float. rewrite (getitem_of_nat _ _ _ Hb). simpl.
    by rewrite Hconv.
Qed.

Lemma int_list_lookup (xs : list (@pyscalar F)) (zs : list Z) :
  int_list xs = Some zs ->
  length xs = length zs /\
  forall i z, zs !! i = Some z -> xs !! i = Some (PyInt z) /\ in_int64 z = true.
Proof.
  revert zs. induction xs as [|[z0|f] xs IH]; intros zs; simpl; try discriminate.
  - intros [= <-]. split; [done|]. by intros i z.
  - destruct (in_int64 z0) eqn:E0; [|discriminate].
    destruct (int_list xs) as [zs'|]; [simpl|discriminate].
    intros [= <-]. destruct (IH zs' eq_refl) as [Hlen Hget]. split; [simpl; lia|].
    intros [|i] z; simpl.
    + by intros [= <-].
    + apply Hget.
Qed.

Lemma int_rows_spec v (vs : list (list Z)) :
  int_rows v = Some vs -> vs <> [] ->
  Ytype v = Ok DInt /\ v_len v = length vs /\ (1 <= val_dim v)%nat /\
  forall i r, vs !! i = Some r ->
    value_row_int v (val_dim v) i = Ok r /\ length r = val_dim v.
Proof.
  destruct v as [xs|d ws|xs|d ws|xs]; try discriminate; unfold int_rows.
  - intros [= <-] _. simpl. rewrite length_map. repeat split; try done.
    + apply list_lookup_fmap_Some in H as (a & -> & Ha).
      by rewrite (getitem_of_nat _ _ _ Ha).
    + by apply list_lookup_fmap_Some in H as (a & -> & Ha).
  - destruct (_ && _) eqn:E; [|discriminate].
    apply andb_true_iff in E as [Hd Hall]. apply Nat.leb_le in Hd.
    intros [= <-] Hne. destruct ws as [|w ws]; [done|].
    simpl val_dim. simpl Ytype. simpl v_len. repeat split; try done.
    + unfold value_row_int. rewrite (getitem_of_nat _ _ _ H). simpl.
      by destruct (uniform_rows d _ r i Hall H).
    + by destruct (uniform_rows d _ r i Hall H).
  - destruct (int_list xs) as [[|z zs]|] eqn:El; try discriminate.
    destruct (int_list_lookup xs (z :: zs) El) as [Hlen Hget].
    remember (map _ (z :: zs)) as l eqn:Hl.
    intros [= <-] _.
    assert (Hrow : forall i r, l !! i = Some r ->
              exists a, r = [a] /\ (z :: zs) !! i = Some a).
    { intros i r Hr. rewrite Hl in Hr. by apply list_lookup_fmap_Some in Hr. }
    destruct (Hget 0%nat z eq_refl) as [Hhd _].
    destruct xs as [|a0 xs]; [done|]. simpl in Hhd. injection Hhd as ->.
    simpl Ytype. simpl val_dim. simpl v_len.
    split; [done|]. split; [by rewrite Hl, length_map|]. split; [done|].
    intros i r (a & -> & Ha)%Hrow. split; [|done].
    destruct (Hget i a Ha) as [Hxi Hfit].
    unfold value_row_int. rewrite (getitem_of_nat _ _ _ Hxi). simpl.
    unfold py_int64. simpl. by rewrite Hfit.
Qed.

Lemma existsb_isnan_false (Y : list (list F)) :
  Forall (Forall (fun a => fisnan a = false)) Y -> existsb (existsb fisnan) Y = false.
Proof.
  intros HY. apply not_true_is_false. intros (r & Hr & Ha)%existsb_exists.
  apply existsb_exists in Ha as (a & Ha & Hnan).
  rewrite Forall_forall in HY. specialize (HY r (proj2 (list_elem_of_In _ _) Hr)).
  rewrite Forall_forall in HY. specialize (HY a (proj2 (list_elem_of_In _ _) Ha)).
  congruence.
Qed.

Lemma covers_values_nonempty {A} (N : list (list Z)) (m : nat) (vs : list A) :
  covers N m -> (0 < m)%nat -> length vs = length (nonempty_cells N) -> vs <> [].
Proof.
  intros Hcov Hpos Hlen.
  destruct (covers_nonempty_row N m 0 Hcov Hpos) as (k & row & Hk & _).
  apply lookup_lt_Some in Hk. rewrite <- nonempty_cells_length, <- Hlen in Hk.
  intros ->. simpl in Hk. lia.
Qed.

(** Propagation of float values that cover the non-empty cells. *)
Lemma propagate_values_float_Ok self v (vs : list (list F)) (safe : bool)
    (N : list (list Z)) (m : nat) :
  rf_N self = Some N -> rf_m self = Some m -> covers N m -> (0 < m)%nat ->
  float_rows v = Some vs ->
  length vs = length (nonempty_cells N) ->
  (safe = true -> Forall (Forall (fun a => fisnan a = false)) vs) ->
  exists Y,
    propagate_values self v safe = Ok (FloatOut (matrix_or_vector (val_dim v) Y)) /\
    propagated N m (val_dim v) vs Y.
Proof.
  intros HN Hm Hcov Hpos Hfl Hlen Hsafe.
  pose proof (covers_values_nonempty N m vs Hcov Hpos Hlen) as Hne.
  destruct (float_rows_spec v vs Hfl Hne) as (Hty & Hvlen & Hd & Hval).
  destruct (propagate_loop_covers (value_row_float v (val_dim v)) vs N m (val_dim v)
              (full_nan_float (m + 1) (val_dim v)) Hcov Hpos)
    as (Y' & HY' & Hprop & Hall); try done.
  { unfold full_nan_float. rewrite length_replicate. lia. }
  exists (removelast Y'). split; [|done].
  unfold propagate_values. rewrite Hty, Hm. simpl. rewrite HN, HY'. simpl.
  destruct safe; simpl; [|done].
  by rewrite existsb_isnan_false by (apply Hall; auto).
Qed.

(** Propagation of integer values that cover the non-empty cells: the
    outcome does not depend on [safe]. *)
Lemma propagate_values_int_Ok self v (vs : list (list Z)) (safe : bool)
    (N : list (list Z)) (m : nat) :
  rf_N self = Some N -> rf_m self = Some m -> covers N m -> (0 < m)%nat ->
  int_rows v = Some vs ->
  length vs = length (nonempty_cells N) ->
  exists Y,
    propagate_values self v safe = Ok (IntOut (matrix_or_vector (val_dim v) Y)) /\
    (forall safe', propagate_values self v safe' = propagate_values self v safe) /\
    propagated N m (val_dim v) vs Y.
Proof.
  intros HN Hm Hcov Hpos Hin Hlen.
  pose proof (covers_values_nonempty N m vs Hcov Hpos Hlen) as Hne.
  destruct (int_rows_spec v vs Hin Hne) as (Hty & Hvlen & Hd & Hval).
  destruct (propagate_loop_covers (value_row_int v (val_dim v)) vs N m (val_dim v)
              (full_nan_int (m + 1) (val_dim v)) Hcov Hpos)
    as (Y' & HY' & Hprop & _); try done.
  { unfold full_nan_int. rewrite length_replicate. lia. }
  exists (removelast Y').
  assert (Heq : forall s, propagate_values self v s
                          = Ok (IntOut (matrix_or_vector (val_dim v) (removelast Y')))).
  { intros s. unfold propagate_values. rewrite Hty, Hm. simpl. by rewrite HN, HY'. }
  split; [apply Heq|]. split; [|done]. intros s. by rewrite !Heq.
Qed.

Lemma propagate_values_short self v (N : list (list Z)) (m : nat) (safe : bool) :
  rf_N self = Some N -> rf_m self = Some m ->
  (v_len v < length (nonempty_cells N))%nat ->
  raises (propagate_values self v safe).
Proof.
  intros HN Hm Hlt. unfold propagate_values.
  rewrite nonempty_cells_length in Hlt.
  destruct (Ytype v) as [t|e]; [simpl|by exists e]. rewrite Hm, HN.
  destruct t.
  - destruct (propagate_loop_short (value_row_int v (val_dim v)) (v_len v)
                (nonempty_rows N) 0 (full_nan_int (m + 1) (val_dim v))) as [e He];
      [intros i Hi; by apply value_row_int_past_end | lia |].
    rewrite He. by exists e.
  - destruct (propagate_loop_short (value_row_float v (val_dim v)) (v_len v)
                (nonempty_rows N) 0 (full_nan_float (m + 1) (val_dim v))) as [e He];
      [intros i Hi; by apply value_row_float_past_end | lia |].
    rewrite He. by exists e.
Qed.

(** What a successful [fit] leaves in the instance. *)
Lemma fit_covers self self' X (x : list F) :
  fit self (Some X) (Some x) = (Ok tt, self') ->
  exists N, rf_N self' = Some N /\ rf_m self' = Some (length (rows X)) /\
            covers N (length (rows X)) /\ (0 < length (rows X))%nat.
Proof.
  intros (X' & Ix & N & _ & _ & HN & Hlen & ->)%fit_Ok.
  exists N. split; [done|]. split; [done|]. rewrite <- Hlen. split.
  - by eapply populate_covers.
  - apply populate_Ok in HN as (_ & _ & Hne & _). destruct Ix; simpl; [done|lia].
Qed.

End Propagate.

(** C2 (propagation), amended to float values.  On an instance fitted to
    [m] points, float-typed values [v] with one value per non-empty cell, in
    ascending cell order, propagate (when [safe] is off or no value is NaN)
    to an output of [m] rows in which the row of point [j] is the value of
    the cell that holds [j]; the output is an [m x d] matrix for values of
    [d >= 2] components and a vector of length [m] for scalars and for
    values of one component. *)
Theorem propagate_values_spec {F : Type} {FF : Float64 F}
    (self0 self : ReceptiveField) (X : ndarray F) (x : list F)
    (N : list (list Z)) (v : values) (vs : list (list F)) (safe : bool) :
  fit self0 (Some X) (Some x) = (Ok tt, self) ->
  rf_N self = Some N ->
  float_rows v = Some vs ->
  length vs = length (nonempty_cells N) ->
  (safe = true -> Forall (Forall (fun a => fisnan a = false)) vs) ->
  exists Y,
    propagate_values self v safe
    = Ok (FloatOut (if (1 <? val_dim v)%nat then Matrix (mk_ndarray (val_dim v) Y)
                    else Vector (concat Y))) /\
    length Y = length (rows X) /\
    Forall (fun r => length r = val_dim v) Y /\
    (forall i c row j r,
       nonempty_cells N !! i = Some c -> N !! c = Some row -> Z.of_nat j ∈ row ->
       vs !! i = Some r -> Y !! j = Some r) /\
    (forall j, (j < length (rows X))%nat ->
       exists i c row, nonempty_cells N !! i = Some c /\ N !! c = Some row /\
                       Z.of_nat j ∈ row).
Proof.
  intros Hfit HN Hfl Hlen Hsafe.
  destruct (fit_covers _ _ _ _ Hfit) as (N' & HN' & Hm & Hcov & Hpos).
  assert (N' = N) as -> by congruence.
  apply (propagate_values_float_Ok self v vs safe N _ HN Hm Hcov Hpos Hfl Hlen Hsafe).
Qed.

(** C5 (safe propagation), amended.  On a fitted instance, values shorter
    than the number of non-empty cells make [propagate_values] raise,
    whatever [safe] is; float-typed values without NaN, exactly one per
    non-empty cell, make [propagate_values(v, safe=True)] return an output
    of length [m]. *)
Theorem propagate_values_safe {F : Type} {FF : Float64 F}
    (self0 self : ReceptiveField) (X : ndarray F) (x : list F)
    (N : list (list Z)) (v : values) :
  fit self0 (Some X) (Some x) = (Ok tt, self) ->
  rf_N self = Some N ->
  ((v_len v < length (nonempty_cells N))%nat ->
   forall safe, raises (propagate_values self v safe)) /\
  (forall vs : list (list F),
     float_rows v = Some vs ->
     length vs = length (nonempty_cells N) ->
     Forall (Forall (fun a => fisnan a = false)) vs ->
     exists out, propagate_values self v true = Ok out /\
                 out_len out = length (rows X)).
Proof.
  intros Hfit HN.
  destruct (fit_covers _ _ _ _ Hfit) as (N' & HN' & Hm & Hcov & Hpos).
  assert (N' = N) as -> by congruence.
  split.
  - intros Hlt safe. by eapply propagate_values_short.
  - intros vs Hfl Hlen Hnan.
    destruct (propagate_values_float_Ok self v vs true N _ HN Hm Hcov Hpos Hfl Hlen
                (fun _ => Hnan)) as (Y & HY & HlenY & Hrows & _).
    eexists. split; [exact HY|]. simpl. rewrite matrix_or_vector_len; try done.
    pose proof (covers_values_nonempty N _ vs Hcov Hpos Hlen) as Hne.
    by destruct (float_rows_spec v vs Hfl Hne) as (_ & _ & Hd & _).
Qed.

(** C10 (integer values), amended.  On a fitted instance, integer-typed
    values [v], one per non-empty cell, do not make [propagate_values]
    raise: the output buffer of integer dtype is filled with the NaN cast to
    an integer, every row of a point is overwritten, and the call returns the
    integer output of the values of the cells, with [safe] on and with
    [safe] off. *)
Theorem propagate_values_int {F : Type} {FF : Float64 F}
    (self0 self : ReceptiveField) (X : ndarray F) (x : list F)
    (N : list (list Z)) (v : values) (vs : list (list Z)) :
  fit self0 (Some X) (Some x) = (Ok tt, self) ->
  rf_N self = Some N ->
  int_rows v = Some vs ->
  length vs = length (nonempty_cells N) ->
  Ytype v = Ok DInt /\
  exists Y,
    (forall safe, propagate_values self v safe
                  = Ok (IntOut (matrix_or_vector (val_dim v) Y))) /\
    propagated N (length (rows X)) (val_dim v) vs Y.
Proof.
  intros Hfit HN Hin Hlen.
  destruct (fit_covers _ _ _ _ Hfit) as (N' & HN' & Hm & Hcov & Hpos).
  assert (N' = N) as -> by congruence.
  pose proof (covers_values_nonempty N _ vs Hcov Hpos Hlen) as Hne.
  split; [by destruct (int_rows_spec v vs Hin Hne)|].
  destruct (propagate_values_int_Ok self v vs true N _ HN Hm Hcov Hpos Hin Hlen)
    as (Y & HY & Hsame & Hprop).
  exists Y. split; [|done]. intros safe. by rewrite Hsame.
Qed.

(** ** The scenario of the specification, step by step *)

Lemma scenario_init :
  init (Some Scenario.cell_size) (Some Scenario.radii) = Ok Scenario.rf0.
Proof. vm_compute. reflexivity. Qed.

Lemma scenario_fit :
  fit Scenario.rf0 (Some Scenario.points) (Some Scenario.center) = (Ok tt, Scenario.rf1).
Proof. vm_compute. reflexivity. Qed.

(** ** Failure of [fit] *)

(** C7 (atomicity of [fit]), amended.  A failing [fit] leaves the grid, the
    indexing matrix and the number of points as they were.  When it fails
    its validation (the points or the center are absent) the whole instance
    is unchanged; when it fails later, the center [x] is already the new
    one. *)
Theorem fit_failure_state {F : Type} {FF : Float64 F}
    (self self' : ReceptiveField) (X : option (ndarray F)) (x : option (list F)) (e : exn) :
  fit self X x = (Raise e, self') ->
  cell_size self' = cell_size self /\
  dimensionality self' = dimensionality self /\
  bounding_radii self' = bounding_radii self /\
  num_cells self' = num_cells self /\
  rf_N self' = rf_N self /\
  rf_m self' = rf_m self /\
  (X = None \/ x = None -> self' = self /\ e = ValueError) /\
  (forall X0 x0, X = Some X0 -> x = Some x0 -> rf_x self' = Some x0).
Proof.
  unfold fit. destruct x as [x0|]; [destruct X as [X0|]|].
  - destruct (center_and_scale _ X0) as [X'|e1].
    + destruct (shadow_indexing_matrix_from_points _ X') as [N|e2]; [discriminate|].
      intros [= <- <-]. simpl. split_and!; try done;
        try (by intros [|]); by intros ? ? _ [= <-].
    + intros [= <- <-]. simpl. split_and!; try done;
        try (by intros [|]); by intros ? ? _ [= <-].
  - intros [= <- <-]. by split_and!.
  - intros [= <- <-]. by split_and!.
Qed.

(** The instance a failing [fit] leaves behind is not the prior one: a
    point outside the grid fails in the population of the matrix, after the
    center was assigned. *)
Lemma fit_not_atomic :
  let X := mk_ndarray 2 [[-9; -9]]%float in
  let x := [1; 1]%float in
  exists self',
    fit Scenario.rf1 (Some X) (Some x) = (Raise IndexError, self') /\
    rf_x Scenario.rf1 = Some Scenario.center /\
    rf_x self' = Some x /\
    self' <> Scenario.rf1.
Proof.
  eexists. split; [vm_compute; reflexivity|]. split; [reflexivity|]. split; [reflexivity|].
  intros H.
  apply (f_equal (fun s => match rf_x s with
                           | Some (a :: _) => PrimFloat.is_zero a
                           | _ => false
                           end)) in H.
  vm_compute in H. discriminate.
Qed.

Lemma fit_failure_state_witness :
  let X := mk_ndarray 2 [[-9; -9]]%float in
  let x := [1; 1]%float in
  let self' := set_x Scenario.rf1 x in
  fit Scenario.rf1 (Some X) (Some x) = (Raise IndexError, self') /\
  rf_N self' = rf_N Scenario.rf1 /\ rf_m self' = rf_m Scenario.rf1 /\
  rf_x self' = Some x.
Proof.
  intros X x self'.
  assert (H : fit Scenario.rf1 (Some X) (Some x) = (Raise IndexError, self'))
    by (vm_compute; reflexivity).
  destruct (fit_failure_state _ _ _ _ _ H) as (_ & _ & _ & _ & HN & Hm & _ & Hx).
  split; [exact H|]. split; [exact HN|]. split; [exact Hm|].
  exact (Hx X x eq_refl eq_refl).
Defined.

(** ** Centering and scaling *)

Lemma stretch_id {A} (n : nat) (u : list A) : length u = n -> stretch n u = u.
Proof. destruct u as [|a [|b u]]; simpl; intros <-; done. Qed.

(** Without broadcasting, [mat_op] acts row by row, element by element. *)
Lemma mat_op_same {A B C} (op : A -> B -> C) (X : ndarray A) (v : list B) :
  wf_ndarray X -> ncols X = length v ->
  mat_op op X v = Ok (mk_ndarray (ncols X) (map (fun r => zip_with op r v) (rows X))).
Proof.
  intros Hwf Hn. unfold mat_op, broadcast_len. rewrite Hn, Nat.eqb_refl. simpl.
  do 2 f_equal. rewrite <- Hn. unfold wf_ndarray in Hwf.
  induction Hwf as [|r l Hr _ IH]; simpl; [done|].
  rewrite IH. by rewrite (stretch_id _ r), (stretch_id _ v).
Qed.

Section Normalizer.
Context {F : Type} {FF : Float64 F}.
Implicit Types (self : @ReceptiveField F) (X : ndarray F) (x : list F).

Lemma center_and_scale_rowwise self X x :
  rf_x self = Some x -> wf_ndarray X ->
  ncols X = length x -> length (bounding_radii self) = length x ->
  center_and_scale self X
  = Ok (mk_ndarray (ncols X) (map (normalize_row x (bounding_radii self)) (rows X))).
Proof.
  intros Hx Hwf Hn Hr. unfold center_and_scale. rewrite Hx.
  rewrite mat_op_same by done. simpl.
  rewrite mat_op_same; simpl.
  - by rewrite map_map.
  - unfold wf_ndarray in *. simpl. apply Forall_map.
    eapply Forall_impl; [exact Hwf|]. simpl. intros r Hlen.
    rewrite length_zip_with. lia.
  - congruence.
Qed.

Lemma undo_center_and_scale_rowwise self X x :
  rf_x self = Some x -> wf_ndarray X ->
  ncols X = length x -> length (bounding_radii self) = length x ->
  undo_center_and_scale self X
  = Ok (mk_ndarray (ncols X) (map (denormalize_row x (bounding_radii self)) (rows X))).
Proof.
  intros Hx Hwf Hn Hr. unfold undo_center_and_scale.
  rewrite mat_op_same by (done || congruence). simpl. rewrite Hx.
  rewrite mat_op_same; simpl.
  - by rewrite map_map.
  - unfold wf_ndarray in *. simpl. apply Forall_map.
    eapply Forall_impl; [exact Hwf|]. simpl. intros r Hlen.
    rewrite length_zip_with. lia.
  - congruence.
Qed.

End Normalizer.

Lemma exact_roundtrip (a c s : Exact.xnum) :
  is_fin c = true -> is_nonzero s = true ->
  fadd (fmul s (fdiv (fsub a c) s)) c = a.
Proof.
  destruct a as [|p], c as [|q], s as [|t]; simpl; try done.
  intros _ Ht. unfold Exact.div.
  destruct (Qc_eq_dec t (Q2Qc 0)) as [->|Hne]; [done|].
  simpl. f_equal. field. exact Hne.
Qed.

Lemma exact_roundtrip_row (x rad r : list Exact.xnum) :
  length r = length x -> length rad = length x ->
  forallb is_fin x = true -> forallb is_nonzero rad = true ->
  denormalize_row x rad (normalize_row x rad r) = r.
Proof.
  unfold denormalize_row, normalize_row.
  revert x rad.
  induction r as [|a r IH]; intros [|c x] [|s rad]; cbn [zip_with length forallb]; try done.
  intros [= Hx] [= Hr] [Hc Hfin]%andb_true_iff [Hs Hnz]%andb_true_iff.
  rewrite exact_roundtrip by done. f_equal. by apply IH.
Qed.




(** ** Centroids *)

Lemma zip_map_self {A B} (f : A -> B) (l : list A) :
  zip (map f l) l = map (fun a => (f a, a)) l.
Proof. induction l as [|a l IH]; simpl; [done|]. by rewrite IH. Qed.

Lemma take_rows_Ok {A} (l : list A) (idx : list Z) :
  Forall (fun j => 0 <= j < Z.of_nat (length l)) idx ->
  exists sel, take_rows l idx = Ok sel /\
              Forall2 (fun j r => l !! Z.to_nat j = Some r) idx sel.
Proof.
  unfold take_rows. induction 1 as [|j idx Hj _ (sel & Hsel & Hall)]; simpl.
  - exists []. split; [done|constructor].
  - destruct (lookup_lt_is_Some_2 l (Z.to_nat j)) as [r Hr]; [lia|].
    assert (Hg : getitem l j = Ok r).
    { rewrite <- (Z2Nat.id j) by lia. by apply getitem_of_nat. }
    rewrite Hg. simpl. rewrite Hsel. simpl.
    exists (r :: sel). split; [done|]. by constructor.
Qed.

Lemma members_nil_flag (row : list Z) :
  members row = [] <-> existsb (fun n => 0 <=? n) row = false.
Proof.
  unfold members. split.
  - intros Hnil. apply not_true_is_false. intros (z & Hz & Hpos)%existsb_exists.
    apply Z.leb_le in Hpos. apply list_elem_of_In in Hz.
    assert (z ∈ filter (fun n => 0 <= n) row) as Hin by (by apply list_elem_of_filter).
    rewrite Hnil in Hin. by apply elem_of_nil in Hin.
  - intros Hf. destruct (filter _ row) as [|z l] eqn:E; [done|]. exfalso.
    assert (z ∈ filter (fun n => 0 <= n) row) as [Hz Hin]%list_elem_of_filter
      by (rewrite E; left).
    rewrite (existsb_nonneg row z Hin Hz) in Hf. discriminate.
Qed.

Section Centroids.
Context {F : Type} {FF : Float64 F}.
Context (kdt_query : list (list F) -> ndarray F -> Z -> result (list (list Z))).
Implicit Types (self : @ReceptiveField F) (X : ndarray F).

(** Without interpolation the row of a cell is the mean of the normalised
    coordinates of its points, or NaN when the cell has none. *)
Lemma centroids_rows self X X' (N : list (list Z)) (m : nat) :
  rf_N self = Some N ->
  center_and_scale self X = Ok X' ->
  Forall (row_ok m) N -> (m <= length (rows X'))%nat ->
  exists Y,
    centroids_from_points kdt_query self X false = Ok (mk_ndarray (ncols X') Y) /\
    length Y = length N /\
    forall c row, N !! c = Some row ->
      (members row <> [] ->
         exists sel, selects X' (members row) sel /\
                     Y !! c = Some (mean_axis0 (ncols X') sel)) /\
      (members row = [] -> Y !! c = Some (replicate (ncols X') fnan)).
Proof.
  intros HN HX Hok Hm. unfold centroids_from_points. rewrite HX. simpl. rewrite HN.
  unfold not_nan_flags. rewrite zip_map_self.
  set (h := fun a : list Z => (existsb (fun n => 0 <=? n) a, a)).
  assert (Hmem : forall row, row ∈ N ->
            Forall (fun j => 0 <= j < Z.of_nat (length (rows X'))) (members row)).
  { intros row Hrow. rewrite Forall_forall in Hok. specialize (Hok row Hrow).
    apply Forall_forall. intros j [Hj Hin]%list_elem_of_filter.
    unfold row_ok in Hok. rewrite Forall_forall in Hok. destruct (Hok j Hin); lia. }
  destruct (mapM_Ok (fun p => centroid_row X' (fst p) (snd p)) (map h N)) as [Y HY].
  { apply Forall_map. apply Forall_forall. intros row Hrow. unfold h, centroid_row. simpl.
    destruct (existsb _ row); [|by eauto].
    destruct (take_rows_Ok (rows X') (members row) (Hmem row Hrow)) as (sel & -> & _).
    simpl. eauto. }
  rewrite HY. simpl. exists Y. split; [done|].
  split; [by rewrite (mapM_length _ _ _ HY), length_map|].
  intros c row Hc.
  assert (Hhc : map h N !! c = Some (h row)) by (by rewrite list_lookup_fmap, Hc).
  destruct (mapM_lookup _ _ _ _ _ HY Hhc) as (b & Hb & HYc).
  unfold h, centroid_row in Hb. simpl in Hb. split.
  - intros Hne. destruct (existsb _ row) eqn:E; [|by apply members_nil_flag in E].
    destruct (take_rows_Ok (rows X') (members row)) as (sel & Hsel & Hall);
      [by eapply Hmem, list_elem_of_lookup_2|].
    rewrite Hsel in Hb. simpl in Hb. injection Hb as <-. by exists sel.
  - intros Hnil%members_nil_flag. rewrite Hnil in Hb. by injection Hb as <-.
Qed.

End Centroids.



(** ** The scenario, evaluated *)

Lemma fit_index_coverage_witness :
  fit Scenario.rf0 (Some Scenario.points) (Some Scenario.center) = (Ok tt, Scenario.rf1) /\
  exists N,
    rf_N Scenario.rf1 = Some N /\ rf_m Scenario.rf1 = Some 3%nat /\
    forall j, (j < 3)%nat ->
      exists c s, slot N c s = Some (Z.of_nat j) /\
        forall c' s', slot N c' s' = Some (Z.of_nat j) -> c' = c /\ s' = s.
Proof.
  assert (Hfit : fit Scenario.rf0 (Some Scenario.points) (Some Scenario.center)
                 = (Ok tt, Scenario.rf1)) by (vm_compute; reflexivity).
  split; [exact Hfit|].
  destruct (fit_index_coverage Scenario.rf0 Scenario.rf1 Scenario.points Scenario.center
              Hfit) as (N & HN & Hm & Hcov & _).
  exists N. split; [exact HN|]. split; [exact Hm|]. exact Hcov.
Defined.

Lemma propagate_values_spec_witness :
  let v := NdFloat2 2 [[10; 11]; [20; 21]]%float in
  fit Scenario.rf0 (Some Scenario.points) (Some Scenario.center) = (Ok tt, Scenario.rf1) /\
  exists Y,
    propagate_values Scenario.rf1 v true = Ok (FloatOut (Matrix (mk_ndarray 2 Y))) /\
    length Y = 3%nat /\
    Y !! 0%nat = Some [10; 11]%float /\
    Y !! 1%nat = Some [20; 21]%float /\
    Y !! 2%nat = Some [20; 21]%float.
Proof.
  intros v.
  assert (Hfit : fit Scenario.rf0 (Some Scenario.points) (Some Scenario.center)
                 = (Ok tt, Scenario.rf1)) by (vm_compute; reflexivity).
  split; [exact Hfit|].
  destruct (propagate_values_spec Scenario.rf0 Scenario.rf1 Scenario.points Scenario.center
              [[0; -1]; [-1; -1]; [-1; -1]; [1; 2]] v [[10; 11]; [20; 21]]%float true
              Hfit eq_refl eq_refl eq_refl)
    as (Y & HY & Hlen & _ & Hval & _); [intros _; repeat constructor|].
  exists Y. split; [exact HY|]. split; [exact Hlen|].
  split; [|split].
  - apply (Hval 0%nat 0%nat [0; -1] 0%nat); try reflexivity. left.
  - apply (Hval 1%nat 3%nat [1; 2] 1%nat); try reflexivity. left.
  - apply (Hval 1%nat 3%nat [1; 2] 2%nat); try reflexivity. right. left.
Defined.

Lemma propagate_values_safe_witness :
  let v := NdFloat1 [10; 20]%float in
  fit Scenario.rf0 (Some Scenario.points) (Some Scenario.center) = (Ok tt, Scenario.rf1) /\
  raises (propagate_values Scenario.rf1 (NdFloat1 [10]%float) true) /\
  raises (propagate_values Scenario.rf1 (NdFloat1 [10]%float) false) /\
  exists out, propagate_values Scenario.rf1 v true = Ok out /\ out_len out = 3%nat.
Proof.
  intros v.
  assert (Hfit : fit Scenario.rf0 (Some Scenario.points) (Some Scenario.center)
                 = (Ok tt, Scenario.rf1)) by (vm_compute; reflexivity).
  split; [exact Hfit|].
  pose proof (propagate_values_safe Scenario.rf0 Scenario.rf1 Scenario.points Scenario.center
                [[0; -1]; [-1; -1]; [-1; -1]; [1; 2]]) as H.
  split; [|split].
  - apply (proj1 (H (NdFloat1 [10]%float) Hfit eq_refl)). simpl. lia.
  - apply (proj1 (H (NdFloat1 [10]%float) Hfit eq_refl)). simpl. lia.
  - apply (proj2 (H v Hfit eq_refl) [[10]; [20]]%float eq_refl eq_refl).
    repeat constructor.
Defined.

Lemma propagate_values_int_witness :
  let v : @values float := NdInt1 [0; 3] in
  fit Scenario.rf0 (Some Scenario.points) (Some Scenario.center) = (Ok tt, Scenario.rf1) /\
  exists Y,
    (forall safe, propagate_values Scenario.rf1 v safe = Ok (IntOut (Vector (concat Y)))) /\
    Y !! 0%nat = Some [0] /\ Y !! 1%nat = Some [3] /\ Y !! 2%nat = Some [3].
Proof.
  intros v.
  assert (Hfit : fit Scenario.rf0 (Some Scenario.points) (Some Scenario.center)
                 = (Ok tt, Scenario.rf1)) by (vm_compute; reflexivity).
  split; [exact Hfit|].
  destruct (propagate_values_int Scenario.rf0 Scenario.rf1 Scenario.points Scenario.center
              [[0; -1]; [-1; -1]; [-1; -1]; [1; 2]] v [[0]; [3]]
              Hfit eq_refl eq_refl eq_refl)
    as (_ & Y & HY & _ & _ & Hval & _).
  exists Y. split; [exact HY|]. split; [|split].
  - apply (Hval 0%nat 0%nat [0; -1] 0%nat); try reflexivity. left.
  - apply (Hval 1%nat 3%nat [1; 2] 1%nat); try reflexivity. left.
  - apply (Hval 1%nat 3%nat [1; 2] 2%nat); try reflexivity. right. left.
Defined.

(** Values of one component come back as a vector, not as an [m x 1]
    matrix, and in safe mode values with a NaN are refused. *)
Lemma propagate_values_flat_or_refused :
  let v1 := NdFloat2 1 [[10]; [20]]%float in
  let v2 := NdFloat2 2 [[nan; 11]; [20; 21]]%float in
  fit Scenario.rf0 (Some Scenario.points) (Some Scenario.center) = (Ok tt, Scenario.rf1) /\
  nonempty_cells [[0; -1]; [-1; -1]; [-1; -1]; [1; 2]] = [0; 3]%nat /\
  propagate_values Scenario.rf1 v1 true = Ok (FloatOut (Vector [10; 20; 20]%float)) /\
  (forall Y, propagate_values Scenario.rf1 v1 true <> Ok (FloatOut (Matrix Y))) /\
  propagate_values Scenario.rf1 v2 true = Raise ValueError.
Proof.
  intros v1 v2. split; [exact scenario_fit|]. split; [reflexivity|].
  assert (H : propagate_values Scenario.rf1 v1 true
              = Ok (FloatOut (Vector [10; 20; 20]%float)))
    by (vm_compute; reflexivity).
  split; [exact H|]. split; [|vm_compute; reflexivity].
  intros Y. rewrite H. discriminate.
Qed.

(** Values of the right length are refused in safe mode when one of them is
    NaN. *)
Lemma propagate_values_nan_raises :
  let v := NdFloat1 [nan; 20]%float in
  fit Scenario.rf0 (Some Scenario.points) (Some Scenario.center) = (Ok tt, Scenario.rf1) /\
  v_len v = length (nonempty_cells [[0; -1]; [-1; -1]; [-1; -1]; [1; 2]]) /\
  propagate_values Scenario.rf1 v true = Raise ValueError.
Proof.
  intros v. split; [exact scenario_fit|]. split; [reflexivity|].
  vm_compute. reflexivity.
Qed.

(** Integer values, the cell index of each non-empty cell here, are
    propagated: nothing is raised, with [safe] on or off. *)
Lemma propagate_values_int_returns :
  let v : @values float := NdInt1 [0; 3] in
  fit Scenario.rf0 (Some Scenario.points) (Some Scenario.center) = (Ok tt, Scenario.rf1) /\
  propagate_values Scenario.rf1 v true = Ok (IntOut (Vector [0; 3; 3])) /\
  propagate_values Scenario.rf1 v false = Ok (IntOut (Vector [0; 3; 3])) /\
  ~ raises (propagate_values Scenario.rf1 v true) /\
  ~ raises (propagate_values Scenario.rf1 v false).
Proof.
  intros v. split; [exact scenario_fit|].
  assert (H1 : propagate_values Scenario.rf1 v true = Ok (IntOut (Vector [0; 3; 3])))
    by (vm_compute; reflexivity).
  assert (H2 : propagate_values Scenario.rf1 v false = Ok (IntOut (Vector [0; 3; 3])))
    by (vm_compute; reflexivity).
  split; [exact H1|]. split; [exact H2|].
  split; intros [e He]; [rewrite H1 in He | rewrite H2 in He]; discriminate.
Qed.

(** ** Defects *)

(** C3 (boundary inclusion).  Every axis contribution is clipped to
    [f_k * (floor(2/s_k) - 1)] before the sum; for the cell size (1, 1) the
    maximum vertex (1, 1) gets the last index 3 of 4 cells, but for the cell
    size (31/32, 31/32) the factors are built with [ceil(2/s_k) = 3], the
    maximum vertex gets the index 1*1 + 3*1 = 4, and there are
    [round(4.26) = 4] cells: [fit] raises IndexError. *)
Theorem max_vertex_out_of_range :
  let cs := [0.96875; 0.96875]%float in
  let rf := mk_rf cs 2 [1; 1]%float 4 None None None in
  let vertex := mk_ndarray 2 [[1; 1]]%float in
  point_indices (set_x Scenario.rf0 Scenario.center) vertex = Ok [3] /\
  num_cells Scenario.rf0 = 4 /\
  init (Some cs) (Some [1; 1]%float) = Ok rf /\
  center_and_scale (set_x rf Scenario.center) vertex = Ok vertex /\
  dim_factors (set_x rf Scenario.center) [-1; -1]%float [1; 1]%float = Ok [1; 3] /\
  point_indices (set_x rf Scenario.center) vertex = Ok [4] /\
  num_cells rf = 4 /\
  fit rf (Some vertex) (Some Scenario.center) = (Raise IndexError, set_x rf Scenario.center).
Proof. vm_compute. repeat split; reflexivity. Qed.

(** C4 (number of cells).  The three cell sizes of the specification give
    8, 1 and 16 cells.  The rounding is numpy's, half to even: the cell
    size 0.8 gives [1 / (0.8 / 2) = 2.5] and 2 cells, in binary64 and in
    exact arithmetic, where rounding half up gives 3. *)
Theorem num_cells_round_half_even :
  compute_num_cells [1; 1; 1]%float = Ok 8 /\
  compute_num_cells [2; 2; 2]%float = Ok 1 /\
  compute_num_cells [0.5; 0.5]%float = Ok 16 /\
  fdiv one (prod (map (fun s => fdiv s two) [0.8]%float)) = 2.5%float /\
  compute_num_cells [0.8]%float = Ok 2 /\
  compute_num_cells [Exact.lit (4 # 5)] = Ok 2.
Proof. vm_compute. repeat split; reflexivity. Qed.

(** C8 (support points of the interpolation).  The support point of an
    empty cell is computed from its index and the grid alone, by the digits
    of the index in the mixed radix [ceil(2/s_k)], but it is the minimum
    vertex of the cell, not its center: in the scenario the empty cells 1 and
    2, of centers (0.5, -0.5) and (-0.5, 0.5), get (0, -1) and (-1, 0). *)
Theorem sup_missing_Y_min_vertex :
  missing_indices (not_nan_flags [[0; -1]; [-1; -1]; [-1; -1]; [1; 2]]) = [1; 2] /\
  sup_missing_Y Scenario.rf1 [1; 2] = Ok (mk_ndarray 2 [[0; -1]; [-1; 0]]%float) /\
  sup_missing_Y Scenario.rf1 [1; 2] <> Ok (mk_ndarray 2 [[0.5; -0.5]; [-0.5; 0.5]]%float).
Proof.
  split; [reflexivity|].
  assert (H : sup_missing_Y Scenario.rf1 [1; 2] = Ok (mk_ndarray 2 [[0; -1]; [-1; 0]]%float))
    by (vm_compute; reflexivity).
  split; [exact H|]. rewrite H. intros E.
  apply (f_equal (fun r => match r with
                           | Ok (mk_ndarray _ ((a :: _) :: _)) => PrimFloat.is_zero a
                           | _ => false
                           end)) in E.
  vm_compute in E. discriminate.
Qed.

(** * Further properties of the code *)

(** ** The layout of the indexing matrix *)

Lemma populate_width (R : Z) (Ix : list Z) (N : list (list Z)) :
  populate R Ix = Ok N ->
  exists K : nat,
    max_num_neighs Ix = Ok K /\ 0 <= R /\ length N = Z.to_nat R /\
    Forall (fun i => exists c, norm_index (Z.to_nat R) i = Ok c) Ix /\
    forall c, (c < Z.to_nat R)%nat ->
      N !! c = Some (pad K (cell_members (Z.to_nat R) c 0 Ix)) /\
      (length (cell_members (Z.to_nat R) c 0 Ix) <= K)%nat.
Proof.
  intros Hpop. destruct (populate_Ok _ _ _ Hpop) as (K & HR & _ & HN & HIx & Hrows).
  unfold populate in Hpop.
  destruct (max_num_neighs Ix) as [K'|] eqn:EK; [simpl in Hpop|discriminate].
  exists K'. split; [done|].
  destruct (Z.ltb_spec R 0) as [|_]; [discriminate|].
  destruct (populate_loop _ _ _ _) as [st|] eqn:El; [simpl in Hpop|discriminate].
  injection Hpop as <-.
  assert (Hinv0 : pop_inv K' (Z.to_nat R) (fun _ => [])
            (replicate (Z.to_nat R) (replicate K' (-1)), replicate (Z.to_nat R) 0)).
  { unfold pop_inv, pad. simpl. rewrite !length_replicate, Nat.sub_0_r.
    repeat split; try done; try lia; by apply lookup_replicate_2. }
  destruct (populate_loop_inv _ _ _ _ _ _ _ Hinv0 El) as [_ (_ & _ & Hrows')].
  repeat split; try done; by apply Hrows'.
Qed.

Lemma cell_members_sorted (R c j : nat) (Ix : list Z) :
  StronglySorted Z.lt (cell_members R c j Ix).
Proof.
  revert j. induction Ix as [|i Ix IH]; intros j; simpl; [constructor|].
  destruct (in_cell R c i); simpl; [|done].
  constructor; [done|]. apply Forall_forall. intros z Hz%cell_members_ge. lia.
Qed.

Lemma members_pad (K : nat) (l : list Z) :
  Forall (fun z => 0 <= z) l -> members (pad K l) = l.
Proof.
  intros Hl. unfold members, pad. rewrite filter_app.
  replace (filter _ (replicate _ _)) with (@nil Z).
  - rewrite app_nil_r. induction Hl as [|z l Hz _ IH]; [done|].
    rewrite filter_cons. destruct (decide (0 <= z)); [by rewrite IH | lia].
  - induction (K - length l)%nat as [|n IH]; [done|]. simpl.
    rewrite filter_cons. by destruct (decide (0 <= -1)); [lia|].
Qed.

Lemma cell_members_nonneg (R c j : nat) (Ix : list Z) :
  Forall (fun z => 0 <= z) (cell_members R c j Ix).
Proof. apply Forall_forall. intros z Hz%cell_members_ge. lia. Qed.

Lemma foldr_max_elem (l : list nat) : l <> [] -> foldr Nat.max 0%nat l ∈ l.
Proof.
  induction l as [|a l IH]; [done|]. intros _. simpl.
  destruct l as [|b l].
  - simpl. rewrite Nat.max_0_r. by left.
  - destruct (Nat.max_spec a (foldr Nat.max 0%nat (b :: l))) as [[_ ->]|[_ ->]].
    + right. by apply IH.
    + by left.
Qed.

(** The number computed by [max_num_neighs] is the number of occurrences of
    one of the indices. *)
Lemma max_num_neighs_attained (Ix : list Z) (K : nat) :
  max_num_neighs Ix = Ok K ->
  exists i, i ∈ Ix /\ i <> -1 /\
    length (filter (fun i' => i' = i) (filter (fun i' => i' <> -1) Ix)) = K.
Proof.
  unfold max_num_neighs. intros H.
  remember (filter (fun i => i <> -1) Ix) as J eqn:EJ.
  assert (HJ : J <> []) by (by intros ->).
  assert (HK : K = foldr Nat.max 0%nat
                     (map (fun i => length (filter (fun i' => i' = i) J)) J)).
  { destruct J; [done|]. by injection H. }
  assert (Hne : map (fun i => length (filter (fun i' => i' = i) J)) J <> []).
  { by destruct J. }
  apply foldr_max_elem in Hne. rewrite <- HK in Hne.
  apply list_elem_of_fmap in Hne as (i & Hi & HiJ).
  exists i. rewrite EJ in HiJ. apply list_elem_of_filter in HiJ as [Hi1 HiIx].
  by split_and!.
Qed.

Lemma occurrences_le_members (R c j : nat) (Ix : list Z) (i : Z) :
  norm_index R i = Ok c ->
  (length (filter (fun i' => i' = i) (filter (fun i' => i' <> (-1)%Z) Ix))
   <= length (cell_members R c j Ix))%nat.
Proof.
  intros Hc. revert j. induction Ix as [|a Ix IH]; intros j; simpl; [done|].
  rewrite filter_cons. destruct (decide (a <> -1)).
  - rewrite filter_cons. destruct (decide (a = i)) as [->|].
    + unfold in_cell. rewrite Hc, Nat.eqb_refl. simpl. specialize (IH (S j)). lia.
    + rewrite length_app. specialize (IH (S j)). lia.
  - rewrite length_app. specialize (IH (S j)). lia.
Qed.

Section Layout.
Context {F : Type} {FF : Float64 F}.
Implicit Types (self : @ReceptiveField F) (X : ndarray F) (x : list F).

(** What a successful [fit] stores, row by row. *)
Lemma fit_rows self self' X x :
  fit self (Some X) (Some x) = (Ok tt, self') ->
  exists X' Ix N (K : nat),
    center_and_scale (set_x self x) X = Ok X' /\
    point_indices (set_x self x) X' = Ok Ix /\
    length Ix = length (rows X) /\
    max_num_neighs Ix = Ok K /\
    rf_N self' = Some N /\ length N = Z.to_nat (num_cells self) /\
    0 <= num_cells self /\
    Forall (fun i => exists c, norm_index (length N) i = Ok c) Ix /\
    forall c, (c < length N)%nat ->
      N !! c = Some (pad K (cell_members (length N) c 0 Ix)) /\
      (length (cell_members (length N) c 0 Ix) <= K)%nat.
Proof.
  intros Hfit. destruct (fit_Ok _ _ _ _ Hfit) as (X' & Ix & N & Hcs & HIx & Hpop & Hlen & ->).
  destruct (populate_width _ _ _ Hpop) as (K & HK & HR & HN & Hall & Hrows).
  exists X', Ix, N, K. rewrite HN. by split_and!.
Qed.

End Layout.

(** X1 (point to cell): after a successful [fit], point [j] is stored in the
    row that its flattened cell index addresses, and in no other row; a
    negative index counts from the last row, as numpy indexing does. *)
Theorem fit_cell_of_point {F : Type} {FF : Float64 F}
    (self self' : ReceptiveField) (X : ndarray F) (x : list F) :
  fit self (Some X) (Some x) = (Ok tt, self') ->
  exists X' Ix N,
    center_and_scale (set_x self x) X = Ok X' /\
    point_indices (set_x self x) X' = Ok Ix /\
    rf_N self' = Some N /\
    length N = Z.to_nat (num_cells self) /\
    forall (j c : nat) row, N !! c = Some row ->
      (Z.of_nat j ∈ row <->
       exists i, Ix !! j = Some i /\
         (i = Z.of_nat c \/ i = Z.of_nat c - Z.of_nat (length N))).
Proof.
  intros Hfit.
  destruct (fit_rows _ _ _ _ Hfit)
    as (X' & Ix & N & K & Hcs & HIx & Hlen & HK & HN & HR & _ & Hall & Hrows).
  exists X', Ix, N. split_and!; try done.
  intros j c row Hrow.
  assert (Hc : (c < length N)%nat) by (by eapply lookup_lt_Some).
  destruct (Hrows c Hc) as [Hrow' _]. rewrite Hrow in Hrow'. injection Hrow' as ->.
  unfold pad. rewrite elem_of_app, cell_members_lookup. split.
  - intros [(k & i & Hj & Hk & Hi) | Hrep].
    + apply Nat2Z.inj in Hj. simpl in Hj. subst k. exists i. split; [done|].
      by destruct (norm_index_Ok _ _ _ Hi).
    + apply elem_of_replicate_inv in Hrep. lia.
  - intros (i & Hj & Hi). left. exists j, i. split_and!; try done.
    rewrite Forall_forall in Hall.
    destruct (Hall i) as [c' Hc']; [by eapply list_elem_of_lookup_2|].
    rewrite Hc'. f_equal. destruct (norm_index_Ok _ _ _ Hc') as [Hlt Hi']. lia.
Qed.

(** X2 (row layout): the indexing matrix of a successful [fit] has
    [num_cells] rows of one width [K]; a row is the points of its cell in
    ascending order, each a point of the cloud, followed by shadow indices
    only. *)
Theorem fit_row_layout {F : Type} {FF : Float64 F}
    (self self' : ReceptiveField) (X : ndarray F) (x : list F) :
  fit self (Some X) (Some x) = (Ok tt, self') ->
  exists N (K : nat),
    rf_N self' = Some N /\
    Z.of_nat (length N) = num_cells self /\
    forall row, row ∈ N ->
      length row = K /\
      row = members row ++ replicate (K - length (members row)) (-1) /\
      StronglySorted Z.lt (members row) /\
      Forall (fun z => 0 <= z < Z.of_nat (length (rows X))) (members row).
Proof.
  intros Hfit.
  destruct (fit_rows _ _ _ _ Hfit)
    as (X' & Ix & N & K & Hcs & HIx & Hlen & HK & HN & HR & Hpos & Hall & Hrows).
  exists N, K. split_and!; [done|lia|].
  intros row (c & Hrow)%list_elem_of_lookup.
  assert (Hc : (c < length N)%nat) by (by eapply lookup_lt_Some).
  destruct (Hrows c Hc) as [Hrow' HcK]. rewrite Hrow in Hrow'. injection Hrow' as ->.
  rewrite members_pad by apply cell_members_nonneg.
  split_and!.
  - unfold pad. rewrite length_app, length_replicate. lia.
  - done.
  - apply cell_members_sorted.
  - apply Forall_forall. intros z Hz%cell_members_ge. lia.
Qed.

(** X3 (width): the width of the indexing matrix is the largest number of
    points in one cell: it is at least 1 and at most the number of points, no
    row holds more points, and some row is full, without shadow index. *)
Theorem fit_width_max_occupancy {F : Type} {FF : Float64 F}
    (self self' : ReceptiveField) (X : ndarray F) (x : list F) :
  fit self (Some X) (Some x) = (Ok tt, self') ->
  exists N (K : nat),
    rf_N self' = Some N /\
    (1 <= K <= length (rows X))%nat /\
    (forall row, row ∈ N -> length row = K /\ (length (members row) <= K)%nat) /\
    exists row, row ∈ N /\ members row = row.
Proof.
  intros Hfit.
  destruct (fit_rows _ _ _ _ Hfit)
    as (X' & Ix & N & K & Hcs & HIx & Hlen & HK & HN & HR & Hpos & Hall & Hrows).
  exists N, K.
  destruct (max_num_neighs_attained _ _ HK) as (i & Hi & Hne & Hcount).
  rewrite Forall_forall in Hall. destruct (Hall i Hi) as [c Hc].
  destruct (norm_index_Ok _ _ _ Hc) as [HcN _].
  destruct (Hrows c HcN) as [Hrow HcK].
  pose proof (occurrences_le_members _ _ 0 Ix _ Hc) as Hocc. rewrite Hcount in Hocc.
  assert (HKm : length (cell_members (length N) c 0 Ix) = K) by lia.
  split_and!; try done.
  - rewrite <- Hcount. destruct Ix as [|i0 Ix']; [by apply elem_of_nil in Hi|].
    destruct (filter (fun i' => i' = i) _) eqn:E; [|simpl; lia].
    assert (Hin : i ∈ filter (fun i' => i' = i) (filter (fun i' => i' <> -1) (i0 :: Ix'))).
    { by rewrite !list_elem_of_filter. }
    rewrite E in Hin. by apply elem_of_nil in Hin.
  - rewrite <- Hlen, <- Hcount.
    etrans; [apply length_filter|]. apply length_filter.
  - intros row (c' & Hrow')%list_elem_of_lookup.
    assert (Hc' : (c' < length N)%nat) by (by eapply lookup_lt_Some).
    destruct (Hrows c' Hc') as [Hr Hk]. rewrite Hrow' in Hr. injection Hr as ->.
    rewrite members_pad by apply cell_members_nonneg. split; [|done].
    unfold pad. rewrite length_app, length_replicate. lia.
  - exists (pad K (cell_members (length N) c 0 Ix)).
    split; [by eapply list_elem_of_lookup_2|].
    rewrite members_pad by apply cell_members_nonneg.
    unfold pad. by rewrite HKm, Nat.sub_diag, app_nil_r.
Qed.

Lemma fit_cell_of_point_witness :
  fit Scenario.rf0 (Some Scenario.points) (Some Scenario.center) = (Ok tt, Scenario.rf1) /\
  exists (Ix : list Z) N,
    rf_N Scenario.rf1 = Some N /\ length N = 4%nat /\
    forall (j c : nat) row, N !! c = Some row ->
      (Z.of_nat j ∈ row <->
       exists i, Ix !! j = Some i /\
         (i = Z.of_nat c \/ i = Z.of_nat c - Z.of_nat (length N))).
Proof.
  assert (Hfit : fit Scenario.rf0 (Some Scenario.points) (Some Scenario.center)
                 = (Ok tt, Scenario.rf1)) by (vm_compute; reflexivity).
  split; [exact Hfit|].
  destruct (fit_cell_of_point Scenario.rf0 Scenario.rf1 Scenario.points Scenario.center
              Hfit) as (X' & Ix & N & _ & _ & HN & Hlen & Hcell).
  exists Ix, N. split; [exact HN|]. split; [exact Hlen|]. exact Hcell.
Defined.

Lemma fit_row_layout_witness :
  fit Scenario.rf0 (Some Scenario.points) (Some Scenario.center) = (Ok tt, Scenario.rf1) /\
  exists N (K : nat),
    rf_N Scenario.rf1 = Some N /\
    Z.of_nat (length N) = 4 /\
    forall row, row ∈ N ->
      length row = K /\
      row = members row ++ replicate (K - length (members row)) (-1) /\
      StronglySorted Z.lt (members row) /\
      Forall (fun z => 0 <= z < 3) (members row).
Proof.
  assert (Hfit : fit Scenario.rf0 (Some Scenario.points) (Some Scenario.center)
                 = (Ok tt, Scenario.rf1)) by (vm_compute; reflexivity).
  split; [exact Hfit|].
  exact (fit_row_layout Scenario.rf0 Scenario.rf1 Scenario.points Scenario.center Hfit).
Defined.

Lemma fit_width_max_occupancy_witness :
  fit Scenario.rf0 (Some Scenario.points) (Some Scenario.center) = (Ok tt, Scenario.rf1) /\
  exists N (K : nat),
    rf_N Scenario.rf1 = Some N /\
    (1 <= K <= 3)%nat /\
    (forall row, row ∈ N -> length row = K /\ (length (members row) <= K)%nat) /\
    exists row, row ∈ N /\ members row = row.
Proof.
  assert (Hfit : fit Scenario.rf0 (Some Scenario.points) (Some Scenario.center)
                 = (Ok tt, Scenario.rf1)) by (vm_compute; reflexivity).
  split; [exact Hfit|].
  exact (fit_width_max_occupancy Scenario.rf0 Scenario.rf1 Scenario.points Scenario.center
           Hfit).
Defined.

(** ** The edges of [fit] *)

(** X4 (nothing to fit): [fit] raises, after it has stored the center,
    whenever the cloud has no point or the grid has no cell
    ([num_cells <= 0], as for a cell so large that [1/prod(cell_size/2)]
    rounds to zero). *)
Theorem fit_nothing_to_fit {F : Type} {FF : Float64 F}
    (self : ReceptiveField) (X : ndarray F) (x : list F) :
  rows X = [] \/ num_cells self <= 0 ->
  exists e, fit self (Some X) (Some x) = (Raise e, set_x self x).
Proof.
  intros Hempty.
  assert (Hno : forall self', fit self (Some X) (Some x) <> (Ok tt, self')).
  { intros self' Hfit.
    destruct (fit_rows _ _ _ _ Hfit)
      as (X' & Ix & N & K & _ & _ & Hlen & HK & _ & HN & _ & Hall & _).
    assert (HIx : Ix <> []).
    { intros ->. unfold max_num_neighs in HK. by rewrite filter_nil in HK. }
    destruct Ix as [|i Ix]; [done|]. destruct Hempty as [HX|HR].
    - rewrite HX in Hlen. done.
    - apply Forall_cons in Hall as [[c Hc] _].
      destruct (norm_index_Ok _ _ _ Hc) as [Hlt _]. lia. }
  unfold fit in *.
  destruct (center_and_scale (set_x self x) X) as [X'|e]; [|by exists e].
  destruct (shadow_indexing_matrix_from_points (set_x self x) X') as [N|e]; [|by exists e].
  by edestruct Hno.
Qed.

Lemma fit_nothing_to_fit_witness :
  exists e, fit Scenario.rf0 (Some (mk_ndarray 2 [])) (Some Scenario.center)
            = (Raise e, set_x Scenario.rf0 Scenario.center).
Proof.
  apply (fit_nothing_to_fit Scenario.rf0 (mk_ndarray 2 []) Scenario.center).
  left. reflexivity.
Defined.

(** X5 (fitting again): the outcome of [fit] and, when it succeeds, the
    whole instance it leaves depend on the grid configuration and on the
    arguments only, not on an earlier indexing matrix, center or number of
    points: an instance of the same configuration, fitted or not, ends in
    the same state, and so does the fitted instance itself when [fit] is
    called on it again with the same arguments. *)
Theorem fit_replaces_prior_state {F : Type} {FF : Float64 F}
    (self self' : ReceptiveField) (X : ndarray F) (x : list F) :
  fit self (Some X) (Some x) = (Ok tt, self') ->
  (forall other : ReceptiveField,
     cell_size other = cell_size self ->
     dimensionality other = dimensionality self ->
     bounding_radii other = bounding_radii self ->
     num_cells other = num_cells self ->
     fit other (Some X) (Some x) = (Ok tt, self')) /\
  fit self' (Some X) (Some x) = (Ok tt, self').
Proof.
  intros Hfit.
  assert (Hother : forall other : ReceptiveField,
     cell_size other = cell_size self ->
     dimensionality other = dimensionality self ->
     bounding_radii other = bounding_radii self ->
     num_cells other = num_cells self ->
     fit other (Some X) (Some x) = (Ok tt, self')).
  { intros [cs d br nc N0 x0 m0]. destruct self as [cs' d' br' nc' N1 x1 m1].
    simpl. intros -> -> -> ->. revert Hfit.
    unfold fit, center_and_scale, shadow_indexing_matrix_from_points, point_indices,
      dim_factors, set_x, set_N, set_m. simpl.
    destruct (bind (mat_op fsub X x) _) as [X'|e]; [|discriminate].
    match goal with
    | |- context [match ?r with Ok _ => _ | Raise _ => _ end] => destruct r as [N|e]
    end; [done|discriminate]. }
  split; [done|]. apply Hother.
  all: destruct (fit_Ok _ _ _ _ Hfit) as (? & ? & ? & _ & _ & _ & _ & ->); done.
Qed.

Lemma fit_replaces_prior_state_witness :
  fit Scenario.rf0 (Some Scenario.points) (Some Scenario.center) = (Ok tt, Scenario.rf1) /\
  fit Scenario.rf1 (Some Scenario.points) (Some Scenario.center) = (Ok tt, Scenario.rf1).
Proof.
  assert (Hfit : fit Scenario.rf0 (Some Scenario.points) (Some Scenario.center)
                 = (Ok tt, Scenario.rf1)) by (vm_compute; reflexivity).
  split; [exact Hfit|].
  exact (proj2 (fit_replaces_prior_state Scenario.rf0 Scenario.rf1 Scenario.points
                  Scenario.center Hfit)).
Defined.

(** The product or quotient of an array that has elements with a vector
    that has some has elements. *)
Lemma mat_op_elements {A B C} (op : A -> B -> C) (X : ndarray A) (v : list B)
    (P : ndarray C) :
  wf_ndarray X -> no_elements X = false -> v <> [] ->
  mat_op op X v = Ok P -> no_elements P = false.
Proof.
  intros Hwf HX Hv. unfold mat_op, broadcast_len.
  assert (Hrow : exists r, r ∈ rows X /\ r <> []).
  { unfold no_elements in HX. clear Hwf. induction (rows X) as [|r l IH]; [done|].
    destruct r as [|a r]; simpl in HX.
    - destruct IH as (r' & Hr' & Hne); [done|]. exists r'. split; [by right|done].
    - exists (a :: r). split; [left|done]. }
  destruct Hrow as (r & Hr & Hne).
  assert (Hn : (1 <= ncols X)%nat).
  { unfold wf_ndarray in Hwf. rewrite Forall_forall in Hwf. rewrite <- (Hwf r Hr).
    destruct r; simpl; [done|lia]. }
  assert (Hlv : (1 <= length v)%nat) by (destruct v; simpl; [done|lia]).
  assert (Hstretch : forall {T} n (u : list T), (1 <= n)%nat -> u <> [] -> stretch n u <> []).
  { intros T n [|t [|t' u]] Hn1 Hu; simpl; try done. destruct n; [lia|done]. }
  assert (Hgo : forall n, (1 <= n)%nat ->
            no_elements (mk_ndarray n (map (fun r => zip_with op (stretch n r) (stretch n v))
                                           (rows X))) = false).
  { intros n Hn1. unfold no_elements. cbn [rows].
    apply list_elem_of_lookup in Hr as [i Hi].
    pose proof (Hstretch _ n r Hn1 Hne) as H1. pose proof (Hstretch _ n v Hn1 Hv) as H2.
    clear -Hi H1 H2. revert i Hi. induction (rows X) as [|r0 l IH]; intros i Hi; [done|].
    destruct i as [|i]; simpl in Hi.
    - injection Hi as ->. cbn [map concat].
      destruct (stretch n r) as [|a ?]; [done|]. destruct (stretch n v) as [|b ?]; [done|]. done.
    - cbn [map concat]. specialize (IH i Hi).
      destruct (zip_with op (stretch n r0) (stretch n v)); [exact IH|done]. }
  destruct (ncols X =? length v)%nat; [intros [= <-]; by apply Hgo|].
  destruct (length v =? 1)%nat; [intros [= <-]; by apply Hgo|].
  destruct (ncols X =? 1)%nat; [intros [= <-]; by apply Hgo|discriminate].
Qed.



(** ** More on propagation *)

Lemma find_indices_elem {A} (P : A -> bool) (j : nat) (l : list A) (c : nat) (a : A) :
  l !! c = Some a -> P a = true -> exists i, find_indices P j l !! i = Some (j + c)%nat.
Proof.
  revert j c. induction l as [|b l IH]; intros j c; [done|].
  destruct c as [|c]; simpl.
  - intros [= ->] ->. exists 0%nat. simpl. f_equal. lia.
  - intros Hc Ha. destruct (IH (S j) c Hc Ha) as [i Hi].
    destruct (P b); simpl.
    + exists (S i). simpl. rewrite Hi. f_equal. lia.
    + exists i. rewrite Hi. f_equal. lia.
Qed.

(** A row that holds a point is the row of a non-empty cell. *)
Lemma nonempty_cells_elem (N : list (list Z)) (c j : nat) (row : list Z) :
  N !! c = Some row -> Z.of_nat j ∈ row -> exists i, nonempty_cells N !! i = Some c.
Proof.
  intros Hrow Hj. unfold nonempty_cells.
  destruct (find_indices_elem (existsb (fun n => 0 <=? n)) 0 N c row Hrow) as [i Hi].
  - eapply existsb_nonneg; [done|lia].
  - by exists i.
Qed.

(** Every non-empty cell holds a point. *)
Lemma nonempty_cells_point (N : list (list Z)) (m i c : nat) :
  covers N m -> nonempty_cells N !! i = Some c ->
  exists row j, N !! c = Some row /\ Z.of_nat j ∈ row /\ (j < m)%nat.
Proof.
  intros Hcov Hc. unfold nonempty_cells in Hc.
  apply find_indices_lookup in Hc as (row & Hrow & Hex & _).
  rewrite Nat.sub_0_r in Hrow.
  apply existsb_exists in Hex as (z & Hz%list_elem_of_In & Hpos%Z.leb_le).
  destruct (proj2 Hcov c row Hrow) as [Hok _]. rewrite Forall_forall in Hok.
  exists row, (Z.to_nat z). split; [done|].
  destruct (Hok z Hz) as [->|Hb]; [lia|].
  rewrite Z2Nat.id by lia. split; [done|lia].
Qed.

Lemma concat_singletons {A} (Y : list (list A)) :
  Forall (fun r => length r = 1%nat) Y ->
  length (concat Y) = length Y /\
  forall j a, Y !! j = Some [a] -> concat Y !! j = Some a.
Proof.
  induction 1 as [|r Y Hr _ [IHl IHg]]; simpl; [done|].
  destruct r as [|b [|??]]; try done. simpl. split; [by rewrite IHl|].
  intros [|j] a; simpl; [by intros [= ->] | apply IHg].
Qed.

Section MorePropagation.
Context {F : Type} {FF : Float64 F}.
Implicit Types (self : @ReceptiveField F) (v : @values F) (X : ndarray F).

(** The NaNs of a propagated output are the NaNs of the values. *)
Lemma propagated_nan (N : list (list Z)) (m d : nat) (vs Y : list (list F)) :
  covers N m -> length vs = length (nonempty_cells N) ->
  propagated N m d vs Y ->
  existsb (existsb fisnan) Y = existsb (existsb fisnan) vs.
Proof.
  intros Hcov Hlen (HlenY & _ & Hval & Hpt).
  destruct (existsb (existsb fisnan) vs) eqn:E.
  - apply existsb_exists in E as (r & [i Hi]%list_elem_of_In%list_elem_of_lookup & Hnan).
    assert (Hi' : (i < length (nonempty_cells N))%nat).
    { rewrite <- Hlen. by eapply lookup_lt_Some. }
    destruct (lookup_lt_is_Some_2 _ _ Hi') as [c Hc].
    destruct (nonempty_cells_point N m i c Hcov Hc) as (row & j & Hrow & Hj & _).
    apply existsb_exists. exists r. split; [|done].
    apply list_elem_of_In. eapply list_elem_of_lookup_2. by eapply Hval.
  - apply not_true_is_false. intros (r & [j Hj]%list_elem_of_In%list_elem_of_lookup & Hnan)%existsb_exists.
    assert (Hjm : (j < m)%nat) by (rewrite <- HlenY; by eapply lookup_lt_Some).
    destruct (Hpt j Hjm) as (i & c & row & Hc & Hrow & Hin).
    assert (Hi' : (i < length vs)%nat).
    { rewrite Hlen. by eapply lookup_lt_Some. }
    destruct (lookup_lt_is_Some_2 _ _ Hi') as [r' Hr'].
    pose proof (Hval i c row j r' Hc Hrow Hin Hr') as HY.
    assert (r' = r) as -> by congruence.
    assert (Hex : existsb (existsb fisnan) vs = true).
    { apply existsb_exists. exists r. split; [|done].
      apply list_elem_of_In. by eapply list_elem_of_lookup_2. }
    congruence.
Qed.

(** Float values, at least one per non-empty cell: what [propagate_values]
    returns with [safe] off, and what it does with [safe] on. *)
Lemma propagate_values_float_prefix self v (vs : list (list F))
    (N : list (list Z)) (m : nat) :
  rf_N self = Some N -> rf_m self = Some m -> covers N m -> (0 < m)%nat ->
  float_rows v = Some vs ->
  (length (nonempty_cells N) <= length vs)%nat ->
  exists Y,
    propagate_values self v false = Ok (FloatOut (matrix_or_vector (val_dim v) Y)) /\
    propagate_values self v true
    = (if existsb (existsb fisnan) Y then Raise ValueError
       else Ok (FloatOut (matrix_or_vector (val_dim v) Y))) /\
    propagated N m (val_dim v) (take (length (nonempty_cells N)) vs) Y.
Proof.
  intros HN Hm Hcov Hpos Hfl Hlen.
  set (k := length (nonempty_cells N)) in *.
  assert (Hlenk : length (take k vs) = k) by (rewrite length_take; lia).
  pose proof (covers_values_nonempty N m (take k vs) Hcov Hpos Hlenk) as Hne.
  assert (Hne' : vs <> []) by (intros ->; by rewrite take_nil in Hne).
  destruct (float_rows_spec v vs Hfl Hne') as (Hty & Hvlen & Hd & Hval).
  destruct (propagate_loop_covers (value_row_float v (val_dim v)) (take k vs) N m (val_dim v)
              (full_nan_float (m + 1) (val_dim v)) Hcov Hpos)
    as (Y' & HY' & Hprop & _); try done.
  { unfold full_nan_float. rewrite length_replicate. lia. }
  { intros i r [Hr _]%lookup_take_Some. by apply Hval. }
  exists (removelast Y'). split_and!; [| |done].
  - unfold propagate_values. rewrite Hty, Hm. simpl. by rewrite HN, HY'.
  - unfold propagate_values. rewrite Hty, Hm. simpl. by rewrite HN, HY'.
Qed.

End MorePropagation.

(** X7 (more values than cells): float values [v] with at least one value
    per non-empty cell are accepted; only the first [k] values are read, [k]
    the number of non-empty cells, and the output is the propagation of
    those; a NaN among the values beyond [k] does not make safe mode raise. *)
Theorem propagate_values_ignores_extra {F : Type} {FF : Float64 F}
    (self0 self : ReceptiveField) (X : ndarray F) (x : list F)
    (N : list (list Z)) (v : values) (vs : list (list F)) (safe : bool) :
  fit self0 (Some X) (Some x) = (Ok tt, self) ->
  rf_N self = Some N ->
  float_rows v = Some vs ->
  (length (nonempty_cells N) <= length vs)%nat ->
  (safe = true ->
   Forall (Forall (fun a => fisnan a = false)) (take (length (nonempty_cells N)) vs)) ->
  exists Y,
    propagate_values self v safe = Ok (FloatOut (matrix_or_vector (val_dim v) Y)) /\
    propagated N (length (rows X)) (val_dim v) (take (length (nonempty_cells N)) vs) Y.
Proof.
  intros Hfit HN Hfl Hlen Hsafe.
  destruct (fit_covers _ _ _ _ Hfit) as (N' & HN' & Hm & Hcov & Hpos).
  assert (N' = N) as -> by congruence.
  destruct (propagate_values_float_prefix self v vs N _ HN Hm Hcov Hpos Hfl Hlen)
    as (Y & Hoff & Hon & Hprop).
  exists Y. split; [|done]. destruct safe; [|done].
  assert (Hk : length (take (length (nonempty_cells N)) vs) = length (nonempty_cells N))
    by (rewrite length_take; lia).
  rewrite Hon, (propagated_nan N _ _ _ Y Hcov Hk Hprop).
  by rewrite existsb_isnan_false by auto.
Qed.

Lemma propagate_values_ignores_extra_witness :
  let v := NdFloat1 [10; 20; nan; 40]%float in
  fit Scenario.rf0 (Some Scenario.points) (Some Scenario.center) = (Ok tt, Scenario.rf1) /\
  exists Y,
    propagate_values Scenario.rf1 v true = Ok (FloatOut (matrix_or_vector 1 Y)) /\
    length Y = 3%nat.
Proof.
  intros v.
  assert (Hfit : fit Scenario.rf0 (Some Scenario.points) (Some Scenario.center)
                 = (Ok tt, Scenario.rf1)) by (vm_compute; reflexivity).
  split; [exact Hfit|].
  destruct (propagate_values_ignores_extra Scenario.rf0 Scenario.rf1 Scenario.points
              Scenario.center [[0; -1]; [-1; -1]; [-1; -1]; [1; 2]] v
              [[10]; [20]; [nan]; [40]]%float true Hfit eq_refl eq_refl)
    as (Y & HY & Hlen & _).
  - simpl. lia.
  - intros _. repeat constructor.
  - exists Y. split; [exact HY | exact Hlen].
Defined.

(** X8 (safe mode): for float values, one per non-empty cell,
    [propagate_values] with [safe] off always returns, and with [safe] on it
    raises ValueError exactly when one of the values holds a NaN, returning
    the same output otherwise: every value reaches at least one point. *)
Theorem propagate_values_safe_iff_nan {F : Type} {FF : Float64 F}
    (self0 self : ReceptiveField) (X : ndarray F) (x : list F)
    (N : list (list Z)) (v : values) (vs : list (list F)) :
  fit self0 (Some X) (Some x) = (Ok tt, self) ->
  rf_N self = Some N ->
  float_rows v = Some vs ->
  length vs = length (nonempty_cells N) ->
  (exists out, propagate_values self v false = Ok out) /\
  propagate_values self v true
  = (if existsb (existsb fisnan) vs then Raise ValueError
     else propagate_values self v false).
Proof.
  intros Hfit HN Hfl Hlen.
  destruct (fit_covers _ _ _ _ Hfit) as (N' & HN' & Hm & Hcov & Hpos).
  assert (N' = N) as -> by congruence.
  destruct (propagate_values_float_prefix self v vs N _ HN Hm Hcov Hpos Hfl)
    as (Y & Hoff & Hon & Hprop); [lia|].
  rewrite <- Hlen, firstn_all in Hprop.
  split; [by eexists|].
  by rewrite Hon, Hoff, (propagated_nan N _ _ vs Y Hcov Hlen Hprop).
Qed.

Lemma propagate_values_safe_iff_nan_witness :
  let v := NdFloat1 [nan; 20]%float in
  fit Scenario.rf0 (Some Scenario.points) (Some Scenario.center) = (Ok tt, Scenario.rf1) /\
  (exists out, propagate_values Scenario.rf1 v false = Ok out) /\
  propagate_values Scenario.rf1 v true = Raise ValueError.
Proof.
  intros v.
  assert (Hfit : fit Scenario.rf0 (Some Scenario.points) (Some Scenario.center)
                 = (Ok tt, Scenario.rf1)) by (vm_compute; reflexivity).
  split; [exact Hfit|].
  exact (propagate_values_safe_iff_nan Scenario.rf0 Scenario.rf1 Scenario.points
           Scenario.center [[0; -1]; [-1; -1]; [-1; -1]; [1; 2]] v [[nan]; [20]]%float
           Hfit eq_refl eq_refl eq_refl).
Defined.

(** X9 (round trip of the cell indices): propagating the indices of the
    non-empty cells, in ascending order, gives every point the index of the
    row of the indexing matrix that holds it, with [safe] on or off. *)
Theorem propagate_values_cell_indices {F : Type} {FF : Float64 F}
    (self0 self : ReceptiveField) (X : ndarray F) (x : list F)
    (N : list (list Z)) (safe : bool) :
  fit self0 (Some X) (Some x) = (Ok tt, self) ->
  rf_N self = Some N ->
  exists ys,
    propagate_values self (NdInt1 (map Z.of_nat (nonempty_cells N))) safe
    = Ok (IntOut (Vector ys)) /\
    length ys = length (rows X) /\
    forall (j c : nat) row,
      N !! c = Some row -> Z.of_nat j ∈ row -> ys !! j = Some (Z.of_nat c).
Proof.
  intros Hfit HN.
  destruct (fit_covers _ _ _ _ Hfit) as (N' & HN' & Hm & Hcov & Hpos).
  assert (N' = N) as -> by congruence.
  set (v := NdInt1 (map Z.of_nat (nonempty_cells N)) : @values F).
  destruct (propagate_values_int_Ok self v
              (map (fun a => [a]) (map Z.of_nat (nonempty_cells N))) safe N _
              HN Hm Hcov Hpos eq_refl)
    as (Y & HY & _ & HlenY & Hwidth & Hval & _).
  { by rewrite !length_map. }
  destruct (concat_singletons Y Hwidth) as [Hlen Hget].
  exists (concat Y). split; [exact HY|]. split; [lia|].
  intros j c row Hrow Hj.
  destruct (nonempty_cells_elem N c j row Hrow Hj) as [i Hi].
  apply Hget. apply (Hval i c row j); try done.
  by rewrite !list_lookup_fmap, Hi.
Qed.

Lemma propagate_values_cell_indices_witness :
  fit Scenario.rf0 (Some Scenario.points) (Some Scenario.center) = (Ok tt, Scenario.rf1) /\
  exists ys,
    propagate_values Scenario.rf1 (NdInt1 [0; 3]) true = Ok (IntOut (Vector ys)) /\
    length ys = 3%nat.
Proof.
  assert (Hfit : fit Scenario.rf0 (Some Scenario.points) (Some Scenario.center)
                 = (Ok tt, Scenario.rf1)) by (vm_compute; reflexivity).
  split; [exact Hfit|].
  destruct (propagate_values_cell_indices Scenario.rf0 Scenario.rf1 Scenario.points
              Scenario.center [[0; -1]; [-1; -1]; [-1; -1]; [1; 2]] true Hfit eq_refl)
    as (ys & Hys & Hlen & _).
  exists ys. split; [exact Hys | exact Hlen].
Defined.

(** ** Interpolation of the centroids *)

Lemma take_rows_elem {A} (l : list A) (idx : list Z) (sel : list A) :
  take_rows l idx = Ok sel -> Forall (fun r => r ∈ l) sel.
Proof.
  unfold take_rows. revert sel. induction idx as [|j idx IH]; intros sel; simpl.
  - intros [= <-]. constructor.
  - destruct (getitem l j) as [r|] eqn:Er; [simpl|discriminate].
    destruct (mapM (getitem l) idx) as [sel'|]; [simpl|discriminate].
    intros [= <-]. constructor; [|by apply IH].
    apply getitem_Ok in Er as (k & _ & Hk). by eapply list_elem_of_lookup_2.
Qed.

Lemma elem_of_zip_seq {A} (l : list A) (c : nat) (a : A) :
  (c, a) ∈ zip (seq 0 (length l)) l <-> l !! c = Some a.
Proof.
  rewrite list_elem_of_lookup. split.
  - intros (i & Hi). apply lookup_zip_with_Some in Hi as (c' & a' & [= -> ->] & Hc & Ha).
    apply lookup_seq in Hc as [-> _]. done.
  - intros Hc. exists c. apply lookup_zip_with_Some. exists c, a. split_and!; try done.
    apply lookup_seq. split; [done|]. by eapply lookup_lt_Some.
Qed.

(** The missing indices are the positions of the flags that are off. *)
Lemma missing_indices_spec (flags : list bool) (z : Z) :
  z ∈ missing_indices flags <-> exists c : nat, z = Z.of_nat c /\ flags !! c = Some false.
Proof.
  unfold missing_indices. rewrite list_elem_of_fmap. split.
  - intros ([c b] & -> & [Hb Hin]%list_elem_of_filter). simpl in *. subst b.
    exists c. split; [done|]. by apply elem_of_zip_seq.
  - intros (c & -> & Hc). exists (c, false). split; [done|].
    apply list_elem_of_filter. split; [done|]. by apply elem_of_zip_seq.
Qed.

Section Interpolation.
Context {F : Type} {FF : Float64 F}.
Context (kdt_query : list (list F) -> ndarray F -> Z -> result (list (list Z))).
Implicit Types (self : @ReceptiveField F) (X : ndarray F).

(** The interpolation loop writes means of rows of [non_empty_Y], at the
    missing indices and nowhere else. *)
Lemma interpolate_fold (ne : list (list F)) (n : nat) (Inb : list (list Z))
    (its : list (nat * Z)) (Y Yf : list (list F)) :
  foldM (interpolate_step ne n Inb) Y its = Ok Yf ->
  Forall (fun it => 0 <= snd it < Z.of_nat (length Y)) its ->
  length Yf = length Y /\
  forall c : nat,
    (Z.of_nat c ∉ map snd its -> Yf !! c = Y !! c) /\
    (Z.of_nat c ∈ map snd its ->
     exists sel, Forall (fun r => r ∈ ne) sel /\ Yf !! c = Some (mean_axis0 n sel)).
Proof.
  revert Y. induction its as [|it its IH]; intros Y; simpl.
  - intros [= <-] _. split; [done|]. intros c. split; [done|]. by intros ?%elem_of_nil.
  - unfold interpolate_step at 1.
    destruct (getitem Inb _) as [Ii|]; [simpl|discriminate].
    destruct (take_rows ne Ii) as [sel|] eqn:Esel; [simpl|discriminate].
    destruct (norm_index (length Y) (snd it)) as [k|] eqn:Ek; [simpl|discriminate].
    intros Hfold [Hit Hits]%Forall_cons.
    apply norm_index_nonneg in Ek as [Hk Hklt]; [|lia].
    destruct (IH (<[k := mean_axis0 n sel]> Y) Hfold) as [Hlen Hrows].
    { by rewrite length_insert. }
    rewrite length_insert in Hlen. split; [done|]. intros c.
    destruct (Hrows c) as [Hout Hin]. split.
    + intros Hc. rewrite Hout.
      * apply list_lookup_insert_ne. intros ->. apply Hc. rewrite Hk. left.
      * intros Hc'. apply Hc. by right.
    + intros Hc. destruct (decide (Z.of_nat c ∈ map snd its)) as [Hc'|Hc']; [by apply Hin|].
      apply elem_of_cons in Hc as [Hc|Hc]; [|done].
      assert (k = c) as -> by lia.
      exists sel. split; [by eapply take_rows_elem|].
      rewrite Hout by done. by apply list_lookup_insert_eq.
Qed.

(** What [centroids_from_points] with interpolation returns, in terms of
    what it returns without. *)
Lemma centroids_interpolated self X (Yi : ndarray F) (N : list (list Z)) :
  rf_N self = Some N ->
  centroids_from_points kdt_query self X true = Ok Yi ->
  exists Y Yf,
    centroids_from_points kdt_query self X false = Ok (mk_ndarray (ncols Yi) Y) /\
    Yi = mk_ndarray (ncols Yi) Yf /\
    length Y = length N /\ length Yf = length N /\
    forall c row, N !! c = Some row ->
      (members row <> [] -> Yf !! c = Y !! c) /\
      (members row = [] ->
       exists sel,
         Yf !! c = Some (mean_axis0 (ncols Yi) sel) /\
         Forall (fun r => exists c' row',
                   N !! c' = Some row' /\ members row' <> [] /\ Y !! c' = Some r) sel).
Proof.
  intros HN. unfold centroids_from_points.
  destruct (center_and_scale self X) as [X'|]; [simpl|discriminate]. rewrite HN.
  destruct (mapM _ _) as [Y|] eqn:EY; [simpl|discriminate].
  destruct (sup_missing_Y _ _) as [sup|]; [simpl|discriminate].
  destruct (kdt_query _ _ _) as [Inb0|]; [simpl|discriminate].
  set (flags := not_nan_flags N).
  set (ne := map snd (filter (fun p => fst p = true) (zip flags Y))).
  set (Inb := if _ <? _ then _ else _).
  destruct (foldM _ _ _) as [Yf|] eqn:Efold; [simpl|discriminate].
  intros [= <-]. simpl. exists Y, Yf.
  assert (HlenY : length Y = length N).
  { apply mapM_length in EY. rewrite EY, length_zip_with. unfold not_nan_flags.
    rewrite length_map. lia. }
  assert (Hflags : forall c row, N !! c = Some row ->
            flags !! c = Some (existsb (fun n => 0 <=? n) row)).
  { intros c row Hc. unfold flags, not_nan_flags. by rewrite list_lookup_fmap, Hc. }
  assert (Hsnd : map snd (zip (seq 0 (length (missing_indices flags))) (missing_indices flags))
                 = missing_indices flags).
  { apply snd_zip. by rewrite length_seq. }
  destruct (interpolate_fold _ _ _ _ _ _ Efold) as [Hlen Hrows].
  { apply Forall_forall. intros [p z] Hin. simpl.
    assert (Hz : z ∈ missing_indices flags).
    { rewrite <- Hsnd. apply list_elem_of_fmap. by exists (p, z). }
    apply missing_indices_spec in Hz as (c & -> & Hc).
    apply lookup_lt_Some in Hc. unfold flags, not_nan_flags in Hc.
    rewrite length_map in Hc. lia. }
  rewrite Hsnd in Hrows. split_and!; try done; [lia|].
  intros c row Hc. destruct (Hrows c) as [Hout Hin]. split.
  - intros Hne. apply Hout. intros (c' & Hcc & Hf)%missing_indices_spec.
    apply Nat2Z.inj in Hcc. subst c'. rewrite (Hflags c row Hc) in Hf.
    injection Hf as Hf. by apply members_nil_flag in Hf.
  - intros Hnil%members_nil_flag.
    destruct Hin as (sel & Hsel & Hc').
    { apply missing_indices_spec. exists c. split; [done|]. by rewrite (Hflags c row Hc), Hnil. }
    exists sel. split; [done|]. eapply Forall_impl; [exact Hsel|].
    intros r ([b r'] & -> & [Hb Hin]%list_elem_of_filter)%list_elem_of_fmap. simpl in *. subst b.
    apply list_elem_of_lookup in Hin as [c' Hin].
    apply lookup_zip_with_Some in Hin as (b & r'' & [= <- <-] & Hfl & HYc).
    unfold flags, not_nan_flags in Hfl.
    apply list_lookup_fmap_Some in Hfl as (row' & Hex & Hrow').
    exists c', row'. split_and!; try done.
    intros Hm%members_nil_flag. congruence.
Qed.

End Interpolation.

(** X10 (interpolation keeps what is known): when [centroids_from_points]
    with interpolation returns, so does the call without, with an array of
    the same shape, one row per cell, and the centroid of every non-empty
    cell is the same in both: the interpolation writes the rows of the empty
    cells only, whatever the neighbour query answers. *)
Theorem interpolation_keeps_nonempty_cells {F : Type} {FF : Float64 F}
    (kdt_query : list (list F) -> ndarray F -> Z -> result (list (list Z)))
    (self : ReceptiveField) (X Yi : ndarray F) (N : list (list Z)) :
  rf_N self = Some N ->
  centroids_from_points kdt_query self X true = Ok Yi ->
  exists Y0,
    centroids_from_points kdt_query self X false = Ok Y0 /\
    ncols Yi = ncols Y0 /\
    length (rows Yi) = length N /\ length (rows Y0) = length N /\
    forall c row, N !! c = Some row -> members row <> [] ->
      rows Yi !! c = rows Y0 !! c.
Proof.
  intros HN Hint.
  destruct (centroids_interpolated kdt_query self X Yi N HN Hint)
    as (Y & Yf & H0 & HYi & HlenY & HlenYf & Hrows).
  exists (mk_ndarray (ncols Yi) Y). rewrite HYi. simpl. split_and!; try done.
  intros c row Hc Hne. by apply (Hrows c row Hc).
Qed.


Lemma interpolation_keeps_nonempty_cells_witness :
  let kdt := fun (_ : list (list float)) (sup : ndarray float) (_ : Z) =>
               Ok (map (fun _ => [0; 1]) (rows sup)) in
  exists Yi Y0,
    centroids_from_points kdt Scenario.rf1 Scenario.points true = Ok Yi /\
    centroids_from_points kdt Scenario.rf1 Scenario.points false = Ok Y0 /\
    rows Yi !! 0%nat = rows Y0 !! 0%nat /\
    rows Yi !! 3%nat = rows Y0 !! 3%nat.
Proof.
  intros kdt.
  assert (Hint : exists Yi, centroids_from_points kdt Scenario.rf1 Scenario.points true
                            = Ok Yi) by (vm_compute; eexists; reflexivity).
  destruct Hint as [Yi Hint].
  destruct (interpolation_keeps_nonempty_cells kdt Scenario.rf1 Scenario.points Yi
              [[0; -1]; [-1; -1]; [-1; -1]; [1; 2]] eq_refl Hint)
    as (Y0 & H0 & _ & _ & _ & Hrows).
  exists Yi, Y0. split; [exact Hint|]. split; [exact H0|]. split.
  - apply (Hrows 0%nat [0; -1]); [reflexivity | discriminate].
  - apply (Hrows 3%nat [1; 2]); [reflexivity | discriminate].
Defined.


(** ** Centroids, propagated *)

(** [Y[flags]]: the selected rows are the rows at the positions that
    [find_indices] lists, in that order. *)
Lemma select_flags_lookup {A B} (P : A -> bool) (j : nat) (l : list A) (Y : list B)
    (i : nat) :
  length Y = length l ->
  map snd (filter (fun p => fst p = true) (zip (map P l) Y)) !! i
  = (c ← find_indices P j l !! i; Y !! (c - j)%nat).
Proof.
  revert Y j i. induction l as [|a l IH]; intros [|y Y] j i; simpl; try done.
  intros [= Hlen]. rewrite filter_cons.
  assert (Hrec : forall i,
            map snd (filter (fun p => fst p = true) (zip (map P l) Y)) !! i
            = (c ← find_indices P (S j) l !! i; Y !! (c - S j)%nat) /\
            (c ← find_indices P (S j) l !! i; (y :: Y) !! (c - j)%nat)
            = (c ← find_indices P (S j) l !! i; Y !! (c - S j)%nat)).
  { intros i'. split; [by apply IH|].
    destruct (find_indices P (S j) l !! i') as [c|] eqn:Ec; simpl; [|done].
    assert (S j <= c)%nat by (eapply find_indices_ge, list_elem_of_lookup_2, Ec).
    by replace (c - j)%nat with (S (c - S j)) by lia. }
  destruct (decide _) as [Hd|Hd]; simpl in Hd; rewrite Hd || apply not_true_is_false in Hd;
    try rewrite Hd; simpl.
  - destruct i as [|i]; simpl; [by rewrite Nat.sub_diag|].
    destruct (Hrec i) as [-> ->]. done.
  - destruct (Hrec i) as [-> ->]. done.
Qed.

Lemma length_foldl_zip_with {A} (f : A -> A -> A) (n : nat) (r : list A) (rs : list (list A)) :
  length r = n -> Forall (fun r' => length r' = n) rs ->
  length (foldl (zip_with f) r rs) = n.
Proof.
  intros Hr Hrs. revert r Hr. induction Hrs as [|r' rs Hr' _ IH]; intros r Hr; simpl; [done|].
  apply IH. rewrite length_zip_with. lia.
Qed.

Lemma select_flags_length {A B} (P : A -> bool) (l : list A) (Y : list B) :
  length Y = length l ->
  length (map snd (filter (fun p => fst p = true) (zip (map P l) Y)))
  = length (find_indices P 0 l).
Proof.
  intros Hlen. apply Nat.le_antisymm.
  - destruct (decide (length (find_indices P 0 l)
                      < length (map snd (filter (fun p => fst p = true) (zip (map P l) Y))))%nat)
      as [Hlt|]; [|lia].
    apply lookup_lt_is_Some_2 in Hlt as [r Hr].
    rewrite (select_flags_lookup P 0 l Y _ Hlen) in Hr.
    destruct (find_indices P 0 l !! _) as [c|] eqn:Ec; [|done].
    apply lookup_lt_Some in Ec. lia.
  - destruct (decide (length (map snd (filter (fun p => fst p = true) (zip (map P l) Y)))
                      < length (find_indices P 0 l))%nat) as [Hlt|]; [|lia].
    apply lookup_lt_is_Some_2 in Hlt as [c Hc].
    pose proof (select_flags_lookup P 0 l Y
                  (length (map snd (filter (fun p => fst p = true) (zip (map P l) Y)))) Hlen)
      as Heq.
    rewrite Hc in Heq. simpl in Heq. rewrite lookup_ge_None_2 in Heq by lia.
    apply find_indices_lookup in Hc as (a & Ha & _).
    apply lookup_lt_Some in Ha. symmetry in Heq. apply lookup_ge_None in Heq. lia.
Qed.

Section PropagatedCentroids.
Context {F : Type} {FF : Float64 F}.
Context (kdt_query : list (list F) -> ndarray F -> Z -> result (list (list Z))).
Implicit Types (self : @ReceptiveField F) (X : ndarray F) (x : list F).

(** The centroids of points of [n] coordinates have [n] coordinates. *)
Lemma centroids_width self X (C : ndarray F) (N : list (list Z)) x :
  rf_N self = Some N -> rf_x self = Some x ->
  wf_ndarray X -> ncols X = length x -> length (bounding_radii self) = length x ->
  centroids_from_points kdt_query self X false = Ok C ->
  ncols C = ncols X /\ length (rows C) = length N /\
  Forall (fun r => length r = ncols X) (rows C).
Proof.
  intros HN Hx Hwf Hn Hrad. unfold centroids_from_points.
  rewrite (center_and_scale_rowwise self X x Hx Hwf Hn Hrad). simpl. rewrite HN.
  destruct (mapM _ _) as [Y|] eqn:EY; [simpl|discriminate].
  intros [= <-]. simpl. split; [done|].
  assert (Hrows : Forall (fun r => length r = ncols X)
                    (map (normalize_row x (bounding_radii self)) (rows X))).
  { apply Forall_map. eapply Forall_impl; [exact Hwf|]. intros r Hr. simpl in *.
    unfold normalize_row. rewrite !length_zip_with. lia. }
  split.
  { apply mapM_length in EY. rewrite EY, length_zip_with. unfold not_nan_flags.
    rewrite length_map. lia. }
  apply Forall_lookup. intros c r Hc.
  assert (Hlt : (c < length (zip (not_nan_flags N) N))%nat).
  { rewrite <- (mapM_length _ _ _ EY). by eapply lookup_lt_Some. }
  destruct (lookup_lt_is_Some_2 _ _ Hlt) as [[b row] Hp].
  destruct (mapM_lookup _ _ _ _ _ EY Hp) as (r' & Hr' & HYc).
  assert (r' = r) as -> by congruence.
  unfold centroid_row in Hr'. simpl in Hr'. destruct b.
  - destruct (take_rows _ _) as [sel|] eqn:Esel; [simpl in Hr'|discriminate].
    injection Hr' as <-. unfold mean_axis0. rewrite length_map.
    pose proof (take_rows_elem _ _ _ Esel) as Hsel.
    assert (Hsel' : Forall (fun r => length r = ncols X) sel).
    { eapply Forall_impl; [exact Hsel|]. intros r Hr. rewrite Forall_forall in Hrows.
      by apply Hrows. }
    destruct Hsel' as [|r0 sel' H0 Hrest]; simpl.
    + by rewrite length_replicate.
    + by apply length_foldl_zip_with.
  - injection Hr' as <-. by rewrite length_replicate.
Qed.

End PropagatedCentroids.

(** X12 (centroids to points): on an instance fitted to points of [n >= 1]
    coordinates, with a center and radii of [n] components, propagating the
    centroids of the non-empty cells, [Y[not_nan_flags]] of
    [centroids_from_points], gives every point the centroid of its cell. *)
Theorem propagate_values_of_centroids {F : Type} {FF : Float64 F}
    (kdt_query : list (list F) -> ndarray F -> Z -> result (list (list Z)))
    (self0 self : ReceptiveField) (X Xc C : ndarray F) (x : list F)
    (N : list (list Z)) :
  fit self0 (Some X) (Some x) = (Ok tt, self) ->
  rf_N self = Some N ->
  wf_ndarray Xc -> ncols Xc = length x -> length (bounding_radii self) = length x ->
  (1 <= ncols Xc)%nat ->
  centroids_from_points kdt_query self Xc false = Ok C ->
  let non_empty_Y :=
    map snd (filter (fun p => fst p = true) (zip (not_nan_flags N) (rows C))) in
  exists Y,
    propagate_values self (NdFloat2 (ncols C) non_empty_Y) false
    = Ok (FloatOut (matrix_or_vector (ncols C) Y)) /\
    length Y = length (rows X) /\
    forall (j c : nat) row,
      N !! c = Some row -> Z.of_nat j ∈ row -> Y !! j = rows C !! c.
Proof.
  intros Hfit HN Hwf Hn Hrad Hpos HC ne.
  destruct (fit_covers _ _ _ _ Hfit) as (N' & HN' & Hm & Hcov & Hmpos).
  assert (N' = N) as -> by congruence.
  assert (Hx : rf_x self = Some x).
  { by destruct (fit_Ok _ _ _ _ Hfit) as (? & ? & ? & _ & _ & _ & _ & ->). }
  destruct (centroids_width kdt_query self Xc C N x HN Hx Hwf Hn Hrad HC)
    as (Hcols & HlenC & Hwidth).
  assert (Hlen : length ne = length (nonempty_cells N)).
  { unfold ne, not_nan_flags, nonempty_cells. by apply select_flags_length. }
  assert (Hlook : forall i, ne !! i = (c ← nonempty_cells N !! i; rows C !! c)).
  { intros i. unfold ne, not_nan_flags, nonempty_cells.
    rewrite (select_flags_lookup _ 0 N (rows C) i HlenC).
    destruct (find_indices _ 0 N !! i); simpl; [|done]. by rewrite Nat.sub_0_r. }
  pose proof (covers_values_nonempty N _ ne Hcov Hmpos Hlen) as Hne.
  assert (Hall : forallb (fun r => (length r =? ncols C)%nat) ne = true).
  { apply forallb_forall. intros r [i Hi]%list_elem_of_In%list_elem_of_lookup.
    rewrite Hlook in Hi. destruct (nonempty_cells N !! i) as [c|]; [simpl in Hi|done].
    rewrite Forall_lookup in Hwidth. apply Nat.eqb_eq. rewrite Hcols. by eapply Hwidth. }
  assert (Hfl : float_rows (NdFloat2 (ncols C) ne) = Some ne).
  { unfold float_rows. rewrite Hall, Hcols.
    by destruct (Nat.leb_spec 1 (ncols Xc)) as [|]; [|lia]. }
  assert (Hd : val_dim (NdFloat2 (ncols C) ne) = ncols C) by (by destruct ne).
  destruct (propagate_values_float_Ok self (NdFloat2 (ncols C) ne) ne false N _
              HN Hm Hcov Hmpos Hfl Hlen) as (Y & HY & HlenY & _ & Hval & _); [done|].
  rewrite Hd in HY. exists Y. split_and!; try done.
  intros j c row Hc Hj.
  destruct (nonempty_cells_elem N c j row Hc Hj) as [i Hi].
  assert (Hlt : (c < length (rows C))%nat) by (rewrite HlenC; by eapply lookup_lt_Some).
  destruct (lookup_lt_is_Some_2 _ _ Hlt) as [r Hr]. rewrite Hr.
  apply (Hval i c row j r Hi Hc Hj). by rewrite Hlook, Hi.
Qed.

Lemma propagate_values_of_centroids_witness :
  let kdt := fun (_ : list (list float)) (_ : ndarray float) (_ : Z) =>
               Raise (A := list (list Z)) TypeError in
  fit Scenario.rf0 (Some Scenario.points) (Some Scenario.center) = (Ok tt, Scenario.rf1) /\
  exists C Y,
    centroids_from_points kdt Scenario.rf1 Scenario.points false = Ok C /\
    length Y = 3%nat /\
    Y !! 1%nat = rows C !! 3%nat /\ Y !! 2%nat = rows C !! 3%nat.
Proof.
  intros kdt.
  assert (Hfit : fit Scenario.rf0 (Some Scenario.points) (Some Scenario.center)
                 = (Ok tt, Scenario.rf1)) by (vm_compute; reflexivity).
  split; [exact Hfit|].
  assert (HC : exists C, centroids_from_points kdt Scenario.rf1 Scenario.points false = Ok C)
    by (vm_compute; eexists; reflexivity).
  destruct HC as [C HC].
  assert (Hwf : wf_ndarray Scenario.points) by (repeat constructor).
  destruct (propagate_values_of_centroids kdt Scenario.rf0 Scenario.rf1 Scenario.points
              Scenario.points C Scenario.center [[0; -1]; [-1; -1]; [-1; -1]; [1; 2]]
              Hfit eq_refl Hwf eq_refl eq_refl) as (Y & _ & Hlen & Hrows).
  - simpl. lia.
  - exact HC.
  - exists C, Y. split; [exact HC|]. split; [exact Hlen|]. split.
    + apply (Hrows 1%nat 3%nat [1; 2]); [reflexivity|]. left.
    + apply (Hrows 2%nat 3%nat [1; 2]); [reflexivity|]. right. left.
Defined.

(** ** When the population succeeds *)

Lemma populate_step_Ok (K R : nat) pre st (j : nat) (i : Z) (c : nat) :
  pop_inv K R pre st -> norm_index R i = Ok c -> (length (pre c) < K)%nat ->
  exists st', populate_step K st j i = Ok st'.
Proof.
  destruct st as [N ptrs]. intros (HN & Hp & Hrows) Hc Hlt. simpl in HN, Hp, Hrows.
  destruct (norm_index_Ok _ _ _ Hc) as [HcR _].
  destruct (Hrows c HcR) as (_ & Hptr & _).
  unfold populate_step, getitem. rewrite Hp, HN, Hc. simpl. rewrite Hptr. simpl.
  rewrite norm_index_of_nat by done. simpl. by eexists.
Qed.

Lemma populate_loop_Ok (K R : nat) (Ix : list Z) pre st (j : nat) :
  pop_inv K R pre st ->
  Forall (fun i => exists c, norm_index R i = Ok c) Ix ->
  (forall c, (c < R)%nat -> (length (pre c) + length (cell_members R c j Ix) <= K)%nat) ->
  exists st', populate_loop K j Ix st = Ok st'.
Proof.
  revert pre st j. induction Ix as [|i Ix IH]; intros pre st j Hinv Hall Hroom; simpl.
  - by eexists.
  - apply Forall_cons in Hall as [[c Hc] Hall].
    destruct (norm_index_Ok _ _ _ Hc) as [HcR _].
    destruct (populate_step_Ok K R pre st j i c Hinv Hc) as [st1 Hst1].
    { specialize (Hroom c HcR). simpl in Hroom. unfold in_cell in Hroom.
      rewrite Hc, Nat.eqb_refl in Hroom. simpl in Hroom. lia. }
    rewrite Hst1. simpl.
    destruct (populate_step_inv _ _ _ _ _ _ _ Hinv Hst1) as [_ Hinv1].
    apply (IH _ _ _ Hinv1 Hall).
    intros c' Hc'. specialize (Hroom c' Hc'). simpl in Hroom.
    rewrite !length_app in *. lia.
Qed.

(** Room in every row is all the population needs. *)
Lemma populate_room (R : Z) (Ix : list Z) (K : nat) :
  max_num_neighs Ix = Ok K -> 0 <= R ->
  Forall (fun i => - R <= i < R) Ix ->
  (forall c, (c < Z.to_nat R)%nat ->
     (length (cell_members (Z.to_nat R) c 0 Ix) <= K)%nat) ->
  exists N, populate R Ix = Ok N.
Proof.
  intros HK HR Hall Hroom. unfold populate. rewrite HK. simpl.
  destruct (Z.ltb_spec R 0) as [|_]; [lia|].
  destruct (populate_loop_Ok K (Z.to_nat R) Ix (fun _ => [])
              (replicate (Z.to_nat R) (replicate K (-1)), replicate (Z.to_nat R) 0) 0)
    as [st Hst].
  - unfold pop_inv, pad. simpl. rewrite !length_replicate, Nat.sub_0_r.
    repeat split; try done; try lia; by apply lookup_replicate_2.
  - eapply Forall_impl; [exact Hall|]. intros i Hi. simpl in Hi.
    unfold norm_index. destruct (Z.leb_spec 0 i), (Z.ltb_spec i (Z.of_nat (Z.to_nat R)));
      simpl; try (by eexists); try lia.
    destruct (Z.leb_spec (- Z.of_nat (Z.to_nat R)) i), (Z.ltb_spec i 0);
      simpl; try (by eexists); lia.
  - intros c Hc. simpl. by apply Hroom.
  - rewrite Hst. simpl. by eexists.
Qed.

(** X13 (when the indexing matrix can be built): given the cell indices of
    the points, the population succeeds exactly when some index is not -1,
    the number of rows is not negative, every index is one of a row,
    counting from the end when negative, and no row receives more points
    than the width [max_num_neighs], which counts equal indices, the index
    -1 left out. *)
Theorem populate_succeeds_iff (R : Z) (Ix : list Z) :
  (exists N, populate R Ix = Ok N) <->
  exists K : nat,
    max_num_neighs Ix = Ok K /\ 0 <= R /\
    Forall (fun i => - R <= i < R) Ix /\
    forall c, (c < Z.to_nat R)%nat ->
      (length (cell_members (Z.to_nat R) c 0 Ix) <= K)%nat.
Proof.
  split.
  - intros [N HN]. destruct (populate_width _ _ _ HN) as (K & HK & HR & _ & Hall & Hrows).
    exists K. split_and!; try done.
    + eapply Forall_impl; [exact Hall|]. intros i [c Hc]. simpl in Hc.
      destruct (norm_index_Ok _ _ _ Hc). lia.
    + intros c Hc. by apply Hrows.
  - intros (K & HK & HR & Hall & Hroom). by eapply populate_room.
Qed.

(** ** The index of a point, in closed form *)

Lemma vec_op_same {A B C} (op : A -> B -> C) (u : list A) (v : list B) :
  length u = length v -> vec_op op u v = Ok (zip_with op u v).
Proof.
  intros Hlen. unfold vec_op, broadcast_len. rewrite Hlen, Nat.eqb_refl. simpl.
  by rewrite !stretch_id.
Qed.

Lemma mapM_map_Ok {A B C} (f : B -> result C) (g : A -> B) (h : A -> C) (l : list A) :
  Forall (fun a => f (g a) = Ok (h a)) l -> mapM f (map g l) = Ok (map h l).
Proof.
  induction 1 as [|a l Ha _ IH]; simpl; [done|]. by rewrite Ha, IH.
Qed.

Lemma dim_factors_fold_length {F : Type} {FF : Float64 F} (a b cs : list F)
    (l : list nat) (df0 df : list Z) :
  foldM (dim_factors_step a b cs) df0 l = Ok df -> length df = length df0.
Proof.
  revert df0. induction l as [|i l IH]; intros df0; simpl; [by intros [= <-]|].
  destruct (dim_factors_step a b cs df0 i) as [df1|] eqn:E; [simpl|discriminate].
  intros Hf. rewrite (IH _ Hf). unfold dim_factors_step in E.
  repeat (match type of E with
          | (bind ?r _) = _ => destruct r; [simpl in E|discriminate]
          end).
  destruct (in_int64 _); [|discriminate]. injection E as <-. by rewrite length_insert.
Qed.

Section Formula.
Context {F : Type} {FF : Float64 F}.
Implicit Types (self : @ReceptiveField F) (X : ndarray F) (x : list F).

Lemma index_terms_zip (n : nat) (r cs : list F) (df : list Z) :
  (length r <= n)%nat ->
  zip_with Z.min
    (zip_with (fun q f => astype_int (fmul q (fofZ f)))
       (map (fun q => ffloor (fadd q eps15))
          (zip_with fdiv (zip_with fsub r (replicate n (fopp one))) cs)) df)
    (zip_with (fun s f => astype_int (fmul (fsub (ffloor (fdiv two s)) one) (fofZ f))) cs df)
  = index_terms r cs df.
Proof.
  revert n cs df. induction r as [|xk r IH]; intros n cs df Hn; [done|].
  destruct n as [|n]; [simpl in Hn; lia|].
  destruct cs as [|s cs]; [done|]. destruct df as [|f df]; [done|].
  simpl. f_equal. apply IH. simpl in Hn. lia.
Qed.

Lemma dim_factors_length self (a b : list F) (df : list Z) :
  dim_factors self a b = Ok df -> length df = dimensionality self.
Proof.
  unfold dim_factors. intros H%dim_factors_fold_length. by rewrite length_replicate in H.
Qed.

Lemma point_indices_closed_form self X x :
  rf_x self = Some x ->
  wf_ndarray X ->
  ncols X = length x ->
  length (cell_size self) = length x ->
  dimensionality self = length x ->
  point_indices self X
  = let* df := dim_factors self (map fopp (replicate (length x) one))
                           (replicate (length x) one) in
    if decide (rows X = []) then Raise ValueError
    else Ok (map (flat_index (cell_size self) df) (rows X)).
Proof.
  intros Hx Hwf Hn Hcs Hdim. unfold point_indices. rewrite Hx.
  destruct (dim_factors self _ _) as [df|] eqn:Edf; [simpl|done].
  pose proof (dim_factors_length _ _ _ _ Edf) as Hdf.
  rewrite fmap_replicate.
  assert (Hwf1 : forall {A B C} (op : A -> B -> C) (Y : ndarray A) (v : list B),
            wf_ndarray Y -> ncols Y = length v ->
            wf_ndarray (mk_ndarray (ncols Y) (map (fun r => zip_with op r v) (rows Y)))).
  { intros A B C op Y v HY Hv. unfold wf_ndarray in *. simpl.
    apply Forall_map. eapply Forall_impl; [exact HY|]. intros r Hr. simpl in *.
    rewrite length_zip_with. lia. }
  rewrite (mat_op_same fsub X) by (by rewrite ?length_replicate). simpl.
  rewrite mat_op_same; [simpl| by apply Hwf1; rewrite ?length_replicate | simpl; lia].
  set (Xq := mk_ndarray _ (map _ (map _ _))).
  assert (HXq : wf_ndarray Xq).
  { unfold Xq. rewrite <- (f_equal ncols (eq_refl : mk_ndarray (ncols X) (map (fun r => zip_with fsub r (replicate (length x) (fopp one))) (rows X)) = _)).
    apply (Hwf1 _ _ _ fdiv (mk_ndarray (ncols X) _) (cell_size self)).
    - apply Hwf1; by rewrite ?length_replicate.
    - simpl. lia. }
  assert (HFl : wf_ndarray (mat_map (fun q => ffloor (fadd q eps15)) Xq)).
  { unfold wf_ndarray, mat_map in *. simpl. apply Forall_map.
    eapply Forall_impl; [exact HXq|]. intros r Hr. simpl in *. by rewrite length_map. }
  rewrite mat_op_same; [simpl | exact HFl | simpl; lia].
  rewrite vec_op_same by lia. simpl. rewrite !map_map.
  destruct (decide (rows X = [])) as [HX|HX].
  - rewrite HX. done.
  - rewrite decide_False by (by intros ?%map_eq_nil).
    rewrite (mapM_map_Ok _ _ (fun r => index_terms r (cell_size self) df)).
    + simpl. by rewrite map_map.
    + apply Forall_forall. intros r Hr.
      assert (Hlen : length r = length x).
      { unfold wf_ndarray in Hwf. rewrite Forall_forall in Hwf. rewrite <- Hn. by apply Hwf. }
      rewrite vec_op_same.
      * by rewrite index_terms_zip by lia.
      * rewrite !length_zip_with, !length_map, !length_zip_with, !length_replicate. lia.
Qed.

End Formula.

(** X14 (the index formula): for points, a center and cell sizes of one
    dimension [n], the indices that [shadow_indexing_matrix_from_points]
    computes array-wise are, point by point, the sum over the axes of the
    coordinate index [floor((x_k + 1)/s_k + 1e-15) * f_k] clipped from above,
    and not from below, to [(floor(2/s_k) - 1) * f_k], each taken as an
    int64; the computation raises when the factors [f_k] cannot be computed
    and when there is no point. *)
Theorem point_indices_formula {F : Type} {FF : Float64 F}
    (self : ReceptiveField) (X : ndarray F) (x : list F) :
  rf_x self = Some x ->
  wf_ndarray X ->
  ncols X = length x ->
  length (cell_size self) = length x ->
  dimensionality self = length x ->
  point_indices self X
  = let* df := dim_factors self (map fopp (replicate (length x) one))
                           (replicate (length x) one) in
    if decide (rows X = []) then Raise ValueError
    else Ok (map (flat_index (cell_size self) df) (rows X)).
Proof. apply point_indices_closed_form. Qed.

Lemma point_indices_formula_witness :
  point_indices (set_x Scenario.rf0 Scenario.center) Scenario.points
  = let* df := dim_factors (set_x Scenario.rf0 Scenario.center)
                           (map fopp (replicate 2 one)) (replicate 2 one) in
    if decide (rows Scenario.points = []) then Raise ValueError
    else Ok (map (flat_index Scenario.cell_size df) (rows Scenario.points)).
Proof.
  apply (point_indices_formula (set_x Scenario.rf0 Scenario.center) Scenario.points
           Scenario.center); try reflexivity.
  repeat constructor.
Defined.

(** ** Exact arithmetic on integers *)

Ltac exact_ops :=
  unfold eps15; unfold two, one;
  cbn [fdiv fofZ fmul fsub fadd fopp ffloor fceil frint ftrunc fisnan fnan fmod
       Exact.exact64 Exact.lift1 Exact.lift2].

Lemma exact_of_Z_this (z : Z) : this (Exact.of_Z z) = inject_Z z.
Proof.
  unfold Exact.of_Z. simpl. apply Qred_identity. simpl. apply Z.gcd_1_r.
Qed.

Lemma exact_of_Z_inj (a b : Z) : Exact.of_Z a = Exact.of_Z b -> a = b.
Proof.
  intros H. apply (f_equal this) in H. rewrite !exact_of_Z_this in H.
  by injection H.
Qed.

Lemma exact_of_Z_mul (a b : Z) : (Exact.of_Z a * Exact.of_Z b)%Qc = Exact.of_Z (a * b).
Proof.
  apply Qc_is_canon. unfold Exact.of_Z. simpl. rewrite !Qred_correct.
  by rewrite inject_Z_mult.
Qed.

Lemma exact_of_Z_sub (a b : Z) : (Exact.of_Z a - Exact.of_Z b)%Qc = Exact.of_Z (a - b).
Proof.
  apply Qc_is_canon. unfold Exact.of_Z. simpl. rewrite !Qred_correct.
  unfold Z.sub. rewrite inject_Z_plus, inject_Z_opp. done.
Qed.

Lemma exact_of_Z_opp (a : Z) : (- Exact.of_Z a)%Qc = Exact.of_Z (- a).
Proof.
  apply Qc_is_canon. unfold Exact.of_Z. simpl. rewrite !Qred_correct.
  by rewrite inject_Z_opp.
Qed.

Lemma exact_floor_of_Z (z : Z) : Exact.floorZ (Exact.of_Z z) = z.
Proof. unfold Exact.floorZ. rewrite exact_of_Z_this. apply Qfloor_Z. Qed.

Lemma exact_trunc_of_Z (z : Z) : Exact.trunc (Exact.XFin (Exact.of_Z z)) = Some z.
Proof. unfold Exact.trunc. rewrite exact_of_Z_this. simpl. by rewrite Z.quot_1_r. Qed.

Lemma exact_rint_of_Z (z : Z) : Exact.rintZ (Exact.of_Z z) = z.
Proof.
  unfold Exact.rintZ. rewrite exact_of_Z_this, Qfloor_Z.
  replace (Exact.of_Z z - Exact.of_Z z)%Qc with (Q2Qc 0) by ring. done.
Qed.

Lemma exact_of_Z_nonzero (z : Z) : z <> 0 -> Exact.of_Z z <> Q2Qc 0.
Proof. intros Hz H. apply Hz. by apply exact_of_Z_inj. Qed.

Lemma exact_div_fin (p q : Qc) :
  q <> Q2Qc 0 -> Exact.div (Exact.XFin p) (Exact.XFin q) = Exact.XFin (p / q)%Qc.
Proof. intros Hq. unfold Exact.div. by destruct (Qc_eq_dec q (Q2Qc 0)). Qed.

Lemma exact_inv_nonzero (q : Qc) : q <> Q2Qc 0 -> (/ q)%Qc <> Q2Qc 0.
Proof.
  intros Hq H. pose proof (Qcmult_inv_r q Hq) as H1. rewrite H, Qcmult_0_r in H1.
  by apply Q_apart_0_1.
Qed.

Lemma exact_py_int_of_Z (z : Z) : py_int (Exact.XFin (Exact.of_Z z)) = Ok z.
Proof.
  unfold py_int.
  change (ftrunc (Exact.XFin (Exact.of_Z z))) with (Exact.trunc (Exact.XFin (Exact.of_Z z))).
  by rewrite exact_trunc_of_Z.
Qed.

Lemma exact_astype_int_of_Z (z : Z) :
  in_int64 z = true -> astype_int (Exact.XFin (Exact.of_Z z)) = z.
Proof.
  intros Hz. unfold astype_int.
  change (ftrunc (Exact.XFin (Exact.of_Z z))) with (Exact.trunc (Exact.XFin (Exact.of_Z z))).
  by rewrite exact_trunc_of_Z, Hz.
Qed.

(** The cell size [2/c] of an axis of [c] cells. *)
Lemma exact_cell (c : Z) :
  c <> 0 ->
  fdiv two (fofZ c) = Exact.XFin (Exact.of_Z 2 / Exact.of_Z c)%Qc /\
  (Exact.of_Z 2 / Exact.of_Z c)%Qc <> Q2Qc 0.
Proof.
  intros Hc. pose proof (exact_of_Z_nonzero c Hc) as Hc'.
  split; [by apply exact_div_fin|].
  unfold Qcdiv. intros [H|H]%Qcmult_integral.
  - by apply (exact_of_Z_nonzero 2).
  - by apply (exact_inv_nonzero _ Hc').
Qed.

(** ** The number of cells of a regular grid *)

Lemma prodZ_pos (cs : list Z) : Forall (fun c => 1 <= c) cs -> 1 <= prodZ cs.
Proof. induction 1 as [|c cs Hc _ IH]; simpl; [done|]. unfold prodZ in *. simpl. nia. Qed.

Lemma exact_half_cell (c : Z) :
  c <> 0 -> fdiv (fdiv two (fofZ c)) two = Exact.XFin (/ Exact.of_Z c)%Qc.
Proof.
  intros Hc. destruct (exact_cell c Hc) as [-> _].
  exact_ops. rewrite exact_div_fin by (by apply exact_of_Z_nonzero).
  f_equal. field. split; [by apply exact_of_Z_nonzero | by apply (exact_of_Z_nonzero 2)].
Qed.

Lemma exact_prod_half_cells (p : Z) (cs : list Z) :
  p <> 0 -> Forall (fun c => 1 <= c) cs ->
  foldl fmul (Exact.XFin (/ Exact.of_Z p)%Qc) (map (fun s => fdiv s two) (regular_cells cs))
  = Exact.XFin (/ Exact.of_Z (p * prodZ cs))%Qc.
Proof.
  intros Hp Hcs. unfold regular_cells. revert p Hp.
  induction Hcs as [|c cs Hc _ IH]; intros p Hp; cbn [map foldl].
  - unfold prodZ. simpl. by rewrite Z.mul_1_r.
  - rewrite exact_half_cell by lia. exact_ops.
    replace (/ Exact.of_Z p * / Exact.of_Z c)%Qc with (/ Exact.of_Z (p * c))%Qc.
    + rewrite IH by nia. unfold prodZ. simpl. by rewrite Z.mul_assoc.
    + rewrite <- exact_of_Z_mul. field.
      split; apply exact_of_Z_nonzero; lia.
Qed.

Lemma init_regular_grid (cs : list Z) (br : list Exact.xnum) :
  Forall (fun c => 1 <= c) cs ->
  compute_num_cells (regular_cells cs) = Ok (prodZ cs) /\
  init (Some (regular_cells cs)) (Some br)
  = Ok (mk_rf (regular_cells cs) (length cs) br (prodZ cs) None None None).
Proof.
  intros Hcs.
  assert (Hnum : compute_num_cells (regular_cells cs) = Ok (prodZ cs)).
  { pose proof (prodZ_pos cs Hcs) as Hpos.
    unfold compute_num_cells, prod.
    replace (@one Exact.xnum _) with (Exact.XFin (/ Exact.of_Z 1)%Qc) at 2
      by (unfold one; cbn [fofZ Exact.exact64]; f_equal; by apply Qc_is_canon).
    rewrite exact_prod_half_cells by (done || lia). rewrite Z.mul_1_l.
    exact_ops.
    rewrite exact_div_fin by (apply exact_inv_nonzero, exact_of_Z_nonzero; lia).
    replace (Exact.of_Z 1 / / Exact.of_Z (prodZ cs))%Qc with (Exact.of_Z (prodZ cs)).
    - cbn [Exact.lift1]. rewrite exact_rint_of_Z. apply exact_py_int_of_Z.
    - replace (Exact.of_Z 1) with 1%Qc by (by apply Qc_is_canon).
      field. split; [apply exact_of_Z_nonzero; lia | apply Q_apart_0_1]. }
  split; [done|]. unfold init. simpl. rewrite Hnum. simpl.
  unfold regular_cells. by rewrite length_map.
Qed.



(** ** The indices of a regular grid *)

Lemma Q_coordinate_bounds (qq C e : Q) :
  (-1 <= qq)%Q -> (qq <= 1)%Q -> (1 <= C)%Q -> (0 <= e)%Q -> (e < 1)%Q ->
  (0 <= (qq - - 1) / (2 / C) + e)%Q /\ ((qq - - 1) / (2 / C) + e < C + 1)%Q.
Proof.
  intros H1 H2 H3 H4 H5.
  assert (HC : ~ (C == 0)%Q) by (intros HC; rewrite HC in H3; lra).
  assert (Heq : ((qq - - 1) / (2 / C) == (qq + 1) * C * (1 # 2))%Q) by (field; lra).
  rewrite Heq. split; nra.
Qed.

Lemma exact_coord_floor (q : Qc) (c : Z) :
  in_box (Exact.XFin q) = true -> 1 <= c ->
  0 <= Exact.floorZ ((q - - Exact.of_Z 1) / (Exact.of_Z 2 / Exact.of_Z c)
                     + Exact.of_Z 1 / Exact.of_Z (10 ^ 15))%Qc <= c.
Proof.
  intros [Hlo%Qle_bool_iff Hhi%Qle_bool_iff]%andb_true_iff Hc. unfold Exact.floorZ.
  set (u := ((q - - Exact.of_Z 1) / (Exact.of_Z 2 / Exact.of_Z c)
             + Exact.of_Z 1 / Exact.of_Z (10 ^ 15))%Qc).
  assert (Hu : (this u == (this q - - 1) / (2 / inject_Z c) + (1 # 10 ^ 15))%Q).
  { unfold u, Qcplus, Qcminus, Qcdiv, Qcmult, Qcinv, Qcopp, Exact.of_Z, Q2Qc. simpl this.
    rewrite !Qred_correct. reflexivity. }
  destruct (Q_coordinate_bounds (this q) (inject_Z c) (1 # 10 ^ 15)) as [H0 H1].
  - exact Hlo.
  - exact Hhi.
  - change (inject_Z 1 <= inject_Z c)%Q. rewrite <- Zle_Qle. exact Hc.
  - done.
  - reflexivity.
  - rewrite <- Hu in H0, H1. split.
    + rewrite <- (Qfloor_Z 0). by apply Qfloor_resp_le.
    + pose proof (Qfloor_le (this u)) as Hf.
      assert (Hlt : (inject_Z (Qfloor (this u)) < inject_Z (c + 1))%Q).
      { rewrite inject_Z_plus. eapply Qle_lt_trans; [exact Hf | exact H1]. }
      rewrite <- Zlt_Qlt in Hlt. lia.
Qed.

Ltac qc_nonzero :=
  first [ apply exact_of_Z_nonzero; lia
        | apply Q_apart_0_1
        | let H := fresh in intros H; apply (f_equal this) in H; discriminate H ].

Lemma exact_one : Exact.of_Z 1 = 1%Qc.
Proof. by apply Qc_is_canon. Qed.

Lemma exact_two : Exact.of_Z 2 = (1 + 1)%Qc.
Proof. by apply Qc_is_canon. Qed.

(** [np.ceil((b - a)/s)] of an axis of [c] cells is [c]. *)
Lemma exact_axis_factor (p c : Z) :
  1 <= c ->
  py_int (fmul (fofZ p) (fceil (fdiv (fsub one (fopp one)) (fdiv two (fofZ c)))))
  = Ok (p * c).
Proof.
  intros Hc. destruct (exact_cell c) as [-> Hnz]; [lia|].
  exact_ops. rewrite exact_div_fin by done. cbn [Exact.lift1 Exact.lift2].
  replace ((Exact.of_Z 1 - - Exact.of_Z 1) / (Exact.of_Z 2 / Exact.of_Z c))%Qc
    with (Exact.of_Z c).
  - rewrite exact_of_Z_opp, exact_floor_of_Z, Z.opp_involutive, exact_of_Z_mul.
    apply exact_py_int_of_Z.
  - rewrite exact_two, exact_one. field. split; qc_nonzero.
Qed.

(** [(np.floor(2/s) - 1) * f] of an axis of [c] cells is [(c - 1) * f]. *)
Lemma exact_max_coord_index (c f : Z) :
  1 <= c -> in_int64 ((c - 1) * f) = true ->
  max_coord_index (fdiv two (fofZ c)) f = (c - 1) * f.
Proof.
  intros Hc Hin. unfold max_coord_index. destruct (exact_cell c) as [-> Hnz]; [lia|].
  exact_ops. rewrite exact_div_fin by done. cbn [Exact.lift1 Exact.lift2].
  replace (Exact.of_Z 2 / (Exact.of_Z 2 / Exact.of_Z c))%Qc with (Exact.of_Z c).
  - rewrite exact_floor_of_Z, exact_of_Z_sub, exact_of_Z_mul.
    by apply exact_astype_int_of_Z.
  - rewrite exact_two. field. split; qc_nonzero.
Qed.

(** The coordinate index of a coordinate inside the box, along an axis of
    [c] cells and factor [f]: [t * f] for some [0 <= t <= c]. *)
Lemma exact_coord_index (a : Exact.xnum) (c f : Z) :
  in_box a = true -> 1 <= c -> 0 <= f -> c * f <= int64_max ->
  exists t, 0 <= t <= c /\ coord_index a (fdiv two (fofZ c)) f = t * f.
Proof.
  intros Ha Hc Hf Hmax. destruct a as [|q]; [done|].
  pose proof (exact_coord_floor q c Ha Hc) as Ht.
  eexists. split; [exact Ht|].
  unfold coord_index. destruct (exact_cell c) as [-> Hnz]; [lia|].
  exact_ops. rewrite exact_div_fin by done.
  rewrite exact_div_fin by (by apply exact_of_Z_nonzero).
  cbn [Exact.lift1 Exact.lift2]. rewrite exact_of_Z_mul.
  apply exact_astype_int_of_Z.
  unfold in_int64, int64_min, int64_max in *. apply andb_true_iff. split; zbool; nia.
Qed.

Lemma prodZ_app (l1 l2 : list Z) : prodZ (l1 ++ l2) = prodZ l1 * prodZ l2.
Proof.
  unfold prodZ. induction l1 as [|a l1 IH]; simpl; [by destruct (foldr Z.mul 1 l2)|].
  rewrite IH. ring.
Qed.

Lemma prodZ_take_S (cs : list Z) (t : nat) (c : Z) :
  cs !! t = Some c -> prodZ (take (S t) cs) = prodZ (take t cs) * c.
Proof.
  intros Hc. rewrite (take_S_r _ _ _ Hc), prodZ_app. unfold prodZ. simpl. ring.
Qed.

Lemma prodZ_take_le (cs : list Z) (k : nat) :
  Forall (fun c => 1 <= c) cs -> 1 <= prodZ (take k cs) <= prodZ cs.
Proof.
  intros Hcs. rewrite <- (take_drop k cs) at 3. rewrite prodZ_app.
  pose proof (prodZ_pos (take k cs) (Forall_take _ _ _ Hcs)).
  pose proof (prodZ_pos (drop k cs) (Forall_drop _ _ _ Hcs)). nia.
Qed.

Lemma length_radix_factors (p : Z) (cs : list Z) :
  length (radix_factors p cs) = length cs.
Proof. revert p. induction cs as [|c cs IH]; intros p; simpl; [done|]. by rewrite IH. Qed.

Lemma radix_factors_lookup (p : Z) (cs : list Z) (k : nat) :
  (k < length cs)%nat -> radix_factors p cs !! k = Some (p * prodZ (take k cs)).
Proof.
  revert p k. induction cs as [|c cs IH]; intros p k Hk; simpl in *; [lia|].
  destruct k as [|k]; simpl.
  - unfold prodZ. simpl. f_equal. lia.
  - rewrite IH by lia. unfold prodZ. simpl. f_equal. ring.
Qed.

Lemma in_int64_between (z : Z) : 0 <= z <= int64_max -> in_int64 z = true.
Proof.
  intros Hz. unfold in_int64, int64_min, int64_max in *.
  apply andb_true_iff. split; zbool.
Qed.

(** One pass of the loop of the factors, on a regular grid. *)
Lemma dim_factors_step_regular (cs : list Z) (df : list Z) (t : nat) (p c : Z) :
  length df = length cs -> (S t < length cs)%nat ->
  df !! t = Some p -> cs !! t = Some c -> 1 <= c -> 0 <= p * c <= int64_max ->
  dim_factors_step (map fopp (replicate (length cs) one)) (replicate (length cs) one)
                   (regular_cells cs) df (S t)
  = Ok (<[S t := p * c]> df).
Proof.
  intros Hlen Ht Hp Hc Hc1 Hin. unfold dim_factors_step.
  replace (Z.of_nat (S t) - 1) with (Z.of_nat t) by lia.
  rewrite (getitem_of_nat df t p Hp). cbn [bind].
  rewrite (getitem_of_nat _ t one) by (apply lookup_replicate_2; lia). cbn [bind].
  rewrite (getitem_of_nat _ t (fopp one))
    by (rewrite list_lookup_fmap, lookup_replicate_2 by lia; done). cbn [bind].
  rewrite (getitem_of_nat (regular_cells cs) t (fdiv two (fofZ c)))
    by (unfold regular_cells; by rewrite list_lookup_fmap, Hc). cbn [bind].
  rewrite exact_axis_factor by done. cbn [bind].
  by rewrite in_int64_between.
Qed.

Lemma dim_factors_fold_regular (cs : list Z) :
  Forall (fun c => 1 <= c) cs -> prodZ cs <= int64_max ->
  forall (len t : nat) (df : list Z),
    (t + len < length cs)%nat -> length df = length cs ->
    (forall k, (k < length cs)%nat ->
       df !! k = Some (if (k <=? t)%nat then prodZ (take k cs) else 1)) ->
    exists df',
      foldM (dim_factors_step (map fopp (replicate (length cs) one))
               (replicate (length cs) one) (regular_cells cs)) df (seq (S t) len)
      = Ok df' /\
      length df' = length cs /\
      forall k, (k < length cs)%nat ->
        df' !! k = Some (if (k <=? t + len)%nat then prodZ (take k cs) else 1).
Proof.
  intros Hcs Hmax. induction len as [|len IH]; intros t df Ht Hlen Hdf.
  - exists df. rewrite Nat.add_0_r. by split_and!.
  - cbn [seq foldM].
    assert (Htn : (t < length cs)%nat) by lia.
    destruct (lookup_lt_is_Some_2 cs t Htn) as [c Hc].
    assert (Hc1 : 1 <= c).
    { rewrite Forall_forall in Hcs. apply Hcs. by eapply list_elem_of_lookup_2. }
    pose proof (Hdf t Htn) as Hp. rewrite Nat.leb_refl in Hp.
    pose proof (prodZ_take_le cs (S t) Hcs) as Hle.
    rewrite (prodZ_take_S cs t c Hc) in Hle.
    rewrite (dim_factors_step_regular cs df t _ c Hlen) by (done || lia). cbn [bind].
    destruct (IH (S t) (<[S t := prodZ (take t cs) * c]> df)) as (df' & Hf & Hlen' & Hdf').
    + lia.
    + by rewrite length_insert.
    + intros k Hk. destruct (decide (k = S t)) as [->|Hne].
      * rewrite list_lookup_insert_eq by lia. rewrite Nat.leb_refl.
        by rewrite (prodZ_take_S cs t c Hc).
      * rewrite list_lookup_insert_ne by done. rewrite (Hdf k Hk).
        destruct (Nat.leb_spec k t), (Nat.leb_spec k (S t)); try done; lia.
    + exists df'. split_and!; try done. intros k Hk. rewrite (Hdf' k Hk).
      by replace (S t + len)%nat with (t + S len)%nat by lia.
Qed.

(** The factors of a regular grid are the products of the numbers of cells
    of the axes before. *)
Lemma dim_factors_regular (self : @ReceptiveField Exact.xnum) (cs : list Z) :
  cell_size self = regular_cells cs -> dimensionality self = length cs ->
  Forall (fun c => 1 <= c) cs -> prodZ cs <= int64_max ->
  dim_factors self (map fopp (replicate (length cs) one)) (replicate (length cs) one)
  = Ok (radix_factors 1 cs).
Proof.
  intros Hcell Hdim Hcs Hmax. unfold dim_factors. rewrite Hcell, Hdim.
  destruct cs as [|c0 cs0] eqn:Ecs; [done|]. rewrite <- Ecs in *.
  assert (Hn : (0 < length cs)%nat) by (rewrite Ecs; simpl; lia).
  destruct (dim_factors_fold_regular cs Hcs Hmax (length cs - 1) 0 (replicate (length cs) 1))
    as (df' & Hf & Hlen & Hdf).
  - lia.
  - by rewrite length_replicate.
  - intros k Hk. rewrite lookup_replicate_2 by done.
    by destruct k.
  - rewrite Hf. f_equal. apply list_eq. intros k.
    destruct (decide (k < length cs)%nat) as [Hk|Hk].
    + rewrite (Hdf k Hk), radix_factors_lookup by done.
      destruct (Nat.leb_spec k (0 + (length cs - 1))); [|lia]. f_equal. lia.
    + rewrite !lookup_ge_None_2; [done| |]; rewrite ?length_radix_factors; lia.
Qed.

Lemma wrap64_id (z : Z) : 0 <= z <= int64_max -> wrap64 z = z.
Proof.
  unfold wrap64, int64_max. intros Hz. rewrite Z.mod_small; lia.
Qed.

(** The sum of the clipped coordinate indices of a point inside the box. *)
Lemma regular_index_bounds (cs : list Z) :
  Forall (fun c => 1 <= c) cs ->
  forall (p : Z) (r : list Exact.xnum),
    1 <= p -> p * prodZ cs <= int64_max ->
    length r = length cs -> forallb in_box r = true ->
    0 <= foldr Z.add 0 (index_terms r (regular_cells cs) (radix_factors p cs))
      <= p * (prodZ cs - 1).
Proof.
  unfold regular_cells.
  induction 1 as [|c cs Hc Hcs IH]; intros p r Hp Hmax Hlen Hr.
  - destruct r; [|done]. unfold prodZ. simpl. lia.
  - destruct r as [|a r]; [done|]. cbn [forallb] in Hr.
    apply andb_true_iff in Hr as [Ha Hr].
    cbn [map radix_factors index_terms foldr].
    pose proof (prodZ_pos cs Hcs) as Hpos.
    assert (Hprod : prodZ (c :: cs) = c * prodZ cs) by done.
    rewrite Hprod in *.
    destruct (exact_coord_index a c p Ha Hc) as (t & Ht & ->); [lia|nia|].
    rewrite exact_max_coord_index by (done || apply in_int64_between; nia).
    specialize (IH (p * c) r). simpl in Hlen.
    destruct IH as [IH0 IH1]; [nia|nia|lia|done|].
    nia.
Qed.

Lemma foldr_max_ge (l : list nat) (a : nat) : a ∈ l -> (a <= foldr Nat.max 0 l)%nat.
Proof.
  induction l as [|b l IH]; [by intros ?%elem_of_nil|].
  intros [->|Ha]%elem_of_cons; simpl; [lia|]. specialize (IH Ha). lia.
Qed.

(** The width is at least the number of occurrences of any index but -1. *)
Lemma max_num_neighs_ge (Ix : list Z) (K : nat) (i : Z) :
  max_num_neighs Ix = Ok K ->
  (length (filter (fun i' => i' = i) (filter (fun i' => i' <> (-1)%Z) Ix)) <= K)%nat.
Proof.
  unfold max_num_neighs. intros H.
  remember (filter (fun i => i <> -1) Ix) as J eqn:EJ.
  assert (HK : K = foldr Nat.max 0%nat
                     (map (fun i => length (filter (fun i' => i' = i) J)) J)).
  { destruct J; [done|]. by injection H. }
  destruct (filter (fun i' => i' = i) J) as [|i0 l] eqn:E; [simpl; lia|].
  assert (Hin : i0 ∈ filter (fun i' => i' = i) J) by (rewrite E; left).
  apply list_elem_of_filter in Hin as [-> HiJ]. rewrite <- E, HK.
  apply foldr_max_ge. apply list_elem_of_fmap. by exists i.
Qed.

Lemma cell_members_in_range (R c j : nat) (Ix : list Z) :
  Forall (fun i => 0 <= i < Z.of_nat R) Ix ->
  length (cell_members R c j Ix)
  = length (filter (fun i' => i' = Z.of_nat c) (filter (fun i' => i' <> -1) Ix)).
Proof.
  intros HIx. revert j. induction HIx as [|i Ix Hi _ IH]; intros j; [done|].
  cbn [cell_members]. rewrite length_app, (IH (S j)), filter_cons.
  rewrite decide_True by lia. rewrite filter_cons. unfold in_cell.
  replace i with (Z.of_nat (Z.to_nat i)) at 1 by lia.
  rewrite norm_index_of_nat by lia.
  destruct (Nat.eqb_spec (Z.to_nat i) c) as [Heq|Hne].
  - rewrite decide_True by lia. done.
  - rewrite decide_False by lia. done.
Qed.

(** Indices that are all indices of a row, none negative, always fit. *)
Lemma populate_in_range (R : Z) (Ix : list Z) :
  Ix <> [] -> Forall (fun i => 0 <= i < R) Ix -> exists N, populate R Ix = Ok N.
Proof.
  intros Hne HIx.
  assert (HK : exists K, max_num_neighs Ix = Ok K).
  { unfold max_num_neighs. destruct Ix as [|i Ix']; [done|].
    apply Forall_cons in HIx as [Hi _]. rewrite filter_cons, decide_True by lia.
    by eexists. }
  destruct HK as [K HK].
  assert (HR : 0 <= R).
  { destruct Ix as [|i Ix']; [done|]. apply Forall_cons in HIx as [Hi _]. lia. }
  apply (populate_room R Ix K HK HR).
  - eapply Forall_impl; [exact HIx|]. intros i Hi. simpl in Hi. lia.
  - intros c Hc. rewrite cell_members_in_range.
    + by apply max_num_neighs_ge.
    + eapply Forall_impl; [exact HIx|]. intros i Hi. simpl in Hi. lia.
Qed.



(** ** Centering and scaling, the other way round *)

Lemma exact_roundtrip_back (a c s : Exact.xnum) :
  is_fin c = true -> is_nonzero s = true ->
  fdiv (fsub (fadd (fmul s a) c) c) s = a.
Proof.
  destruct a as [|p], c as [|q], s as [|t]; simpl; try done.
  intros _ Ht. unfold Exact.div.
  destruct (Qc_eq_dec t (Q2Qc 0)) as [->|Hne]; [done|].
  f_equal. field. exact Hne.
Qed.

Lemma exact_roundtrip_back_row (x rad r : list Exact.xnum) :
  length r = length x -> length rad = length x ->
  forallb is_fin x = true -> forallb is_nonzero rad = true ->
  normalize_row x rad (denormalize_row x rad r) = r.
Proof.
  unfold denormalize_row, normalize_row.
  revert x rad.
  induction r as [|a r IH]; intros [|c x] [|s rad]; cbn [zip_with length forallb]; try done.
  intros [= Hx] [= Hr] [Hc Hfin]%andb_true_iff [Hs Hnz]%andb_true_iff.
  rewrite exact_roundtrip_back by done. f_equal. by apply IH.
Qed.



(** ** Centroids of too few points *)

Lemma mapM_raises {A B} (f : A -> result B) (l : list A) (e0 : exn) :
  (forall a e, a ∈ l -> f a = Raise e -> e = e0) ->
  (exists a, a ∈ l /\ raises (f a)) ->
  mapM f l = Raise e0.
Proof.
  induction l as [|a l IH]; intros Herr (b & Hb & Hraise); [by apply elem_of_nil in Hb|].
  simpl. destruct (f a) as [c|e] eqn:Ea; simpl.
  - rewrite IH; [done| |].
    + intros a' e Ha'. apply Herr. by right.
    + apply elem_of_cons in Hb as [->|Hb]; [|by eauto].
      destruct Hraise as [e He]. congruence.
  - f_equal. eapply Herr; [left|done].
Qed.

(** X18 (fewer points than fitted): [centroids_from_points], with or
    without interpolation, raises IndexError when it is given fewer points
    than the instance was fitted to: some cell holds the index of a point
    that the input does not have. *)
Theorem centroids_too_few_points {F : Type} {FF : Float64 F}
    (kdt_query : list (list F) -> ndarray F -> Z -> result (list (list Z)))
    (self0 self : ReceptiveField) (X0 X X' : ndarray F) (x : list F)
    (interpolate : bool) :
  fit self0 (Some X0) (Some x) = (Ok tt, self) ->
  center_and_scale self X = Ok X' ->
  (length (rows X') < length (rows X0))%nat ->
  centroids_from_points kdt_query self X interpolate = Raise IndexError.
Proof.
  intros Hfit HX' Hlt.
  destruct (fit_covers _ _ _ _ Hfit) as (N & HN & Hm & Hcov & Hpos).
  unfold centroids_from_points. rewrite HX'. cbn [bind]. rewrite HN.
  rewrite (mapM_raises _ _ IndexError); [done| |].
  - intros [b row] e _. unfold centroid_row. simpl. destruct b; [|done].
    destruct (take_rows _ _) as [sel|e'] eqn:E; [done|]. simpl. intros [= <-].
    unfold take_rows in E. clear -E. induction (members row) as [|j l IH]; [done|].
    simpl in E. destruct (getitem (rows X') j) as [r|e1] eqn:Eg; simpl in E.
    + destruct (mapM _ l); [done|]. simpl in E. injection E as <-. by apply IH.
    + injection E as <-. unfold getitem in Eg.
      destruct (norm_index _ j) as [k|e2] eqn:Ek; simpl in Eg.
      * destruct (rows X' !! k); [done|]. by injection Eg.
      * injection Eg as <-. unfold norm_index in Ek.
        repeat (destruct (_ && _) in Ek; try done). by injection Ek.
  - destruct (proj1 Hcov (length (rows X0) - 1)%nat) as (c & s & Hslot & _); [lia|].
    unfold slot in Hslot. destruct (N !! c) as [row|] eqn:Hrow; [|done].
    assert (Hin : Z.of_nat (length (rows X0) - 1) ∈ row) by (by eapply list_elem_of_lookup_2).
    exists (existsb (fun n => 0 <=? n) row, row). split.
    + apply list_elem_of_lookup. exists c. unfold not_nan_flags.
      rewrite zip_map_self, list_lookup_fmap, Hrow. done.
    + unfold centroid_row. simpl. rewrite (existsb_nonneg row _ Hin) by lia.
      destruct (take_rows _ _) as [sel|e] eqn:E; [|by exists e]. exfalso.
      assert (Hmem : Z.of_nat (length (rows X0) - 1) ∈ members row).
      { apply list_elem_of_filter. split; [lia|done]. }
      apply list_elem_of_lookup in Hmem as [k Hk].
      destruct (mapM_lookup _ _ _ _ _ E Hk) as (r & Hr & _).
      apply getitem_Ok in Hr as (k' & Hk' & Hget).
      apply norm_index_nonneg in Hk' as [Hk' Hlt']; [|lia]. lia.
Qed.

Lemma centroids_too_few_points_witness :
  let kdt := fun (_ : list (list float)) (_ : ndarray float) (_ : Z) =>
               Raise (A := list (list Z)) TypeError in
  let X := mk_ndarray 2 [[-0.5; -0.5]; [0.5; 0.5]]%float in
  fit Scenario.rf0 (Some Scenario.points) (Some Scenario.center) = (Ok tt, Scenario.rf1) /\
  centroids_from_points kdt Scenario.rf1 X false = Raise IndexError.
Proof.
  intros kdt X.
  assert (Hfit : fit Scenario.rf0 (Some Scenario.points) (Some Scenario.center)
                 = (Ok tt, Scenario.rf1)) by (vm_compute; reflexivity).
  split; [exact Hfit|].
  apply (centroids_too_few_points kdt Scenario.rf0 Scenario.rf1 Scenario.points X
           (mk_ndarray 2 [[-0.5; -0.5]; [0.5; 0.5]]%float) Scenario.center false Hfit).
  - vm_compute. reflexivity.
  - simpl. lia.
Defined.

(** ** The support points of the interpolation, on a regular grid *)

Lemma exact_floor_div (n m : Z) :
  m <> 0 -> Exact.floorZ (Exact.of_Z n / Exact.of_Z m)%Qc = n / m.
Proof.
  intros Hm. unfold Exact.floorZ. rewrite Zdiv_Qdiv.
  apply Qfloor_comp. unfold Qcdiv, Qcmult, Qcinv, Exact.of_Z, Q2Qc. simpl this.
  rewrite !Qred_correct. reflexivity.
Qed.

(** [np.mod(np.floor(idx / p), c)] is the digit [(idx / p) mod c]. *)
Lemma exact_digit (idx p c : Z) :
  1 <= p -> 1 <= c ->
  fmod (ffloor (fdiv (fofZ idx) (fofZ p))) (fofZ c)
  = Exact.XFin (Exact.of_Z ((idx / p) mod c)).
Proof.
  intros Hp Hc. exact_ops. rewrite exact_div_fin by qc_nonzero.
  cbn [Exact.lift1]. rewrite exact_floor_div by lia.
  unfold Exact.mod_. destruct (Qc_eq_dec _ _) as [H0|_].
  - exfalso. revert H0. qc_nonzero.
  - f_equal. rewrite exact_floor_div by lia.
    rewrite exact_of_Z_mul, exact_of_Z_sub. f_equal. rewrite Z.mod_eq by lia. done.
Qed.

Lemma exact_floor_eps (d : Z) :
  Exact.floorZ (Exact.of_Z d + Exact.of_Z 1 / Exact.of_Z (10 ^ 15))%Qc = d.
Proof.
  unfold Exact.floorZ.
  set (u := (Exact.of_Z d + Exact.of_Z 1 / Exact.of_Z (10 ^ 15))%Qc).
  assert (Hu : (this u == inject_Z d + (1 # 10 ^ 15))%Q).
  { unfold u, Qcplus, Qcdiv, Qcmult, Qcinv, Exact.of_Z, Q2Qc. simpl this.
    rewrite !Qred_correct. reflexivity. }
  assert (Hlo : (inject_Z d <= this u)%Q).
  { rewrite Hu. rewrite <- (Qplus_0_r (inject_Z d)) at 1.
    apply Qplus_le_r. done. }
  assert (Hhi : (this u < inject_Z (d + 1))%Q).
  { rewrite Hu, inject_Z_plus. apply Qplus_lt_r. reflexivity. }
  apply Qfloor_resp_le in Hlo. rewrite Qfloor_Z in Hlo.
  pose proof (Qfloor_le (this u)) as Hf.
  assert (Hlt : (inject_Z (Qfloor (this u)) < inject_Z (d + 1))%Q)
    by (eapply Qle_lt_trans; [exact Hf | exact Hhi]).
  rewrite <- Zlt_Qlt in Hlt. lia.
Qed.

(** The coordinate index of the coordinate [-1 + d * (2/c)], [d] cells
    from the minimum. *)
Lemma exact_coord_index_vertex (d c f : Z) :
  1 <= c -> 0 <= d * f <= int64_max ->
  coord_index (fadd (fopp one) (fmul (fofZ d) (fdiv two (fofZ c)))) (fdiv two (fofZ c)) f
  = d * f.
Proof.
  intros Hc Hin. unfold coord_index. destruct (exact_cell c) as [-> Hnz]; [lia|].
  exact_ops. rewrite exact_div_fin by done. rewrite exact_div_fin by qc_nonzero.
  cbn [Exact.lift1 Exact.lift2].
  replace ((- Exact.of_Z 1 + Exact.of_Z d * (Exact.of_Z 2 / Exact.of_Z c) - - Exact.of_Z 1)
           / (Exact.of_Z 2 / Exact.of_Z c))%Qc with (Exact.of_Z d).
  - rewrite exact_floor_eps, exact_of_Z_mul. apply exact_astype_int_of_Z.
    by apply in_int64_between.
  - rewrite exact_two, exact_one. field. split; qc_nonzero.
Qed.

Lemma length_min_vertex (p : Z) (cs : list Z) (idx : Z) :
  length (min_vertex p cs idx) = length cs.
Proof. revert p. induction cs as [|c cs IH]; intros p; simpl; [done|]. by rewrite IH. Qed.

(** The minimum vertex of cell [idx] has the index [idx]: the sum of its
    coordinate indices puts the mixed-radix digits together again. *)
Lemma min_vertex_index (cs : list Z) :
  Forall (fun c => 1 <= c) cs ->
  forall p idx : Z,
    1 <= p -> p * prodZ cs <= int64_max ->
    foldr Z.add 0 (index_terms (min_vertex p cs idx) (regular_cells cs) (radix_factors p cs))
    = p * ((idx / p) mod prodZ cs).
Proof.
  unfold regular_cells.
  induction 1 as [|c cs Hc Hcs IH]; intros p idx Hp Hmax.
  - unfold prodZ. simpl. rewrite Z.mod_1_r. ring.
  - cbn [map radix_factors min_vertex index_terms foldr].
    pose proof (prodZ_pos cs Hcs) as Hpos.
    assert (Hprod : prodZ (c :: cs) = c * prodZ cs) by done.
    rewrite Hprod in *.
    assert (Hd : 0 <= (idx / p) mod c < c) by (apply Z.mod_pos_bound; lia).
    set (d := (idx / p) mod c) in *.
    assert (Hcp : c * p <= int64_max) by nia.
    assert (Hdp : 0 <= d * p <= int64_max) by nia.
    assert (Hmp : 0 <= (c - 1) * p <= int64_max) by nia.
    rewrite exact_coord_index_vertex by done.
    rewrite exact_max_coord_index by (done || by apply in_int64_between).
    rewrite Z.min_l by nia.
    rewrite IH by nia. unfold d.
    rewrite <- Z.div_div by lia.
    rewrite (Z.rem_mul_r (idx / p) c (prodZ cs)) by lia. ring.
Qed.

Lemma mapM_ext_Ok {A B} (f : A -> result B) (h : A -> B) (l : list A) :
  Forall (fun a => f a = Ok (h a)) l -> mapM f l = Ok (map h l).
Proof.
  induction 1 as [|a l Ha _ IH]; simpl; [done|]. by rewrite Ha, IH.
Qed.

Lemma prod_int_regular (l : list Z) (p : Z) :
  Forall (fun c => 1 <= c) l -> 1 <= p -> p * prodZ l <= int64_max ->
  foldl (fun q c => wrap64 (q * c)) p l = p * prodZ l.
Proof.
  intros Hl. revert p. induction Hl as [|c l Hc Hl IH]; intros p Hp Hmax.
  - unfold prodZ. simpl. lia.
  - pose proof (prodZ_pos l Hl) as Hpos.
    assert (Hprod : prodZ (c :: l) = c * prodZ l) by done. rewrite Hprod in *.
    cbn [foldl]. rewrite wrap64_id by nia. rewrite IH by nia. ring.
Qed.

(** [np.ceil((b - a)/cell_size).astype(int)] of an axis of [c] cells. *)
Lemma exact_axis_cells (c : Z) :
  1 <= c <= int64_max ->
  astype_int (fceil (fdiv (fsub one (fopp one)) (fdiv two (fofZ c)))) = c.
Proof.
  intros Hc. destruct (exact_cell c) as [-> Hnz]; [lia|].
  exact_ops. rewrite exact_div_fin by done. cbn [Exact.lift1 Exact.lift2].
  replace ((Exact.of_Z 1 - - Exact.of_Z 1) / (Exact.of_Z 2 / Exact.of_Z c))%Qc
    with (Exact.of_Z c).
  - rewrite exact_of_Z_opp, exact_floor_of_Z, Z.opp_involutive.
    apply exact_astype_int_of_Z, in_int64_between. lia.
  - rewrite exact_two, exact_one. field. split; qc_nonzero.
Qed.

Lemma cells_per_axis_regular (cs : list Z) :
  Forall (fun c => 1 <= c <= int64_max) cs ->
  map (fun q => astype_int (fceil q))
      (zip_with fdiv
         (zip_with fsub (replicate (length cs) one) (map fopp (replicate (length cs) one)))
         (regular_cells cs))
  = cs.
Proof.
  unfold regular_cells. induction 1 as [|c cs Hc _ IH]; [done|].
  cbn [length replicate map zip_with]. rewrite IH. f_equal. by apply exact_axis_cells.
Qed.

(** A row of the support points is the minimum vertex of its cell. *)
Lemma support_row_regular (cs : list Z) (idx : Z) :
  Forall (fun c => 1 <= c) cs ->
  forall p, 1 <= p ->
    zip_with (fun s ai => fadd ai s)
      (zip_with fmul
         (map (fun pc => fmod (ffloor (fdiv (fofZ idx) (fofZ (fst pc)))) (fofZ (snd pc)))
              (zip (radix_factors p cs) cs))
         (regular_cells cs))
      (map fopp (replicate (length cs) one))
    = min_vertex p cs idx.
Proof.
  unfold regular_cells. induction 1 as [|c cs Hc _ IH]; intros p Hp; [done|].
  cbn [length replicate map zip_with radix_factors min_vertex zip fst snd].
  rewrite IH by nia. f_equal. rewrite exact_digit by done. done.
Qed.

Lemma sup_missing_Y_regular (self : @ReceptiveField Exact.xnum)
    (x : list Exact.xnum) (cs missing : list Z) :
  cell_size self = regular_cells cs -> dimensionality self = length cs ->
  rf_x self = Some x -> length x = length cs ->
  Forall (fun c => 1 <= c) cs -> prodZ cs <= int64_max ->
  sup_missing_Y self missing
  = Ok (mk_ndarray (length cs) (map (min_vertex 1 cs) missing)).
Proof.
  intros Hcell Hdim Hx Hlen Hcs Hmax. unfold sup_missing_Y.
  rewrite Hx, Hcell, Hdim, Hlen.
  assert (Hreg : length (regular_cells cs) = length cs)
    by (unfold regular_cells; by rewrite length_map).
  rewrite vec_op_same by (by rewrite length_map, !length_replicate). cbn [bind].
  rewrite vec_op_same
    by (by rewrite length_zip_with, length_map, !length_replicate, Hreg, Nat.min_id). cbn [bind].
  rewrite cells_per_axis_regular.
  2:{ apply Forall_forall. intros c Hc.
      assert (1 <= c) by (rewrite Forall_forall in Hcs; by apply Hcs).
      apply list_elem_of_lookup in Hc as [k Hk].
      pose proof (prodZ_take_le cs (S k) Hcs) as Hle.
      pose proof (prodZ_take_le cs k Hcs) as Hle'.
      rewrite (prodZ_take_S cs k c Hk) in Hle.
      assert (c <= prodZ (take k cs) * c) by nia. lia. }
  rewrite (mapM_ext_Ok _ (fun j => (prodZ (take j cs), default 0 (cs !! j)))).
  2:{ apply Forall_forall. intros j [_ Hj]%elem_of_seq. simpl in Hj.
      destruct (lookup_lt_is_Some_2 cs j Hj) as [c Hc].
      rewrite (getitem_of_nat _ _ _ Hc), Hc. cbn [bind default]. do 2 f_equal.
      unfold prod_int. rewrite prod_int_regular.
      - lia.
      - by apply Forall_take.
      - done.
      - pose proof (prodZ_take_le cs j Hcs). lia. }
  cbn [bind].
  assert (Hradix : map (fun j => (prodZ (take j cs), default 0 (cs !! j))) (seq 0 (length cs))
                   = zip (radix_factors 1 cs) cs).
  { apply list_eq. intros k. rewrite list_lookup_fmap.
    destruct (decide (k < length cs)%nat) as [Hk|Hk].
    - rewrite lookup_seq_lt by done. destruct (lookup_lt_is_Some_2 cs k Hk) as [c Hc].
      symmetry. apply lookup_zip_with_Some. exists (prodZ (take k cs)), c.
      rewrite Hc, radix_factors_lookup by done. rewrite Z.mul_1_l.
      split_and!; try done. simpl. by rewrite Hc.
    - rewrite lookup_seq_ge by lia. symmetry. apply lookup_ge_None.
      rewrite length_zip_with, length_radix_factors. lia. }
  rewrite Hradix.
  rewrite mat_op_same; cbn [ncols rows].
  2:{ unfold wf_ndarray. cbn [ncols rows]. apply Forall_map, Forall_forall. intros idx _.
      simpl. by rewrite length_map, length_zip_with, length_radix_factors, Nat.min_id. }
  2:{ by rewrite Hreg. }
  cbn [bind].
  rewrite mat_op_same; cbn [ncols rows].
  2:{ unfold wf_ndarray. cbn [ncols rows]. rewrite map_map.
      apply Forall_map, Forall_forall. intros idx _. simpl.
      rewrite length_zip_with, length_map, length_zip_with, length_radix_factors, Hreg. lia. }
  2:{ by rewrite length_map, length_replicate. }
  do 2 f_equal. rewrite !map_map. apply map_ext. intros idx.
  by apply support_row_regular.
Qed.



(** ** When the interpolation succeeds *)

Section InterpolationSucceeds.
Context {F : Type} {FF : Float64 F}.
Context (kdt_query : list (list F) -> ndarray F -> Z -> result (list (list Z))).
Implicit Types (self : @ReceptiveField F) (X : ndarray F) (x : list F).

(** The support points can be computed when the center and the cell sizes
    have the dimension of the grid. *)
Lemma sup_missing_Y_Ok self x (missing : list Z) :
  rf_x self = Some x -> length (cell_size self) = length x ->
  dimensionality self = length x ->
  exists S, sup_missing_Y self missing = Ok S /\ length (rows S) = length missing.
Proof.
  intros Hx Hcs Hdim. unfold sup_missing_Y. rewrite Hx.
  rewrite vec_op_same by (by rewrite length_map, !length_replicate). cbn [bind].
  rewrite vec_op_same
    by (rewrite length_zip_with, length_map, !length_replicate; lia). cbn [bind].
  set (cpa := map _ (zip_with fdiv _ _)).
  assert (Hcpa : length cpa = length x).
  { unfold cpa. rewrite length_map, !length_zip_with, length_map, !length_replicate. lia. }
  destruct (mapM_Ok (fun j => let* c := getitem cpa (Z.of_nat j) in
                              Ok (prod_int (take j cpa), c)) (seq 0 (dimensionality self)))
    as [radix Hradix].
  { apply Forall_forall. intros j [_ Hj]%elem_of_seq. simpl in Hj.
    destruct (lookup_lt_is_Some_2 cpa j) as [c Hc]; [lia|].
    rewrite (getitem_of_nat _ _ _ Hc). cbn [bind]. by eexists. }
  rewrite Hradix. cbn [bind].
  pose proof (mapM_length _ _ _ Hradix) as Hlen. rewrite length_seq in Hlen.
  rewrite mat_op_same; cbn [ncols rows].
  2:{ unfold wf_ndarray. cbn [ncols rows]. apply Forall_map, Forall_forall. intros idx _.
      simpl. by rewrite length_map. }
  2:{ lia. }
  cbn [bind]. rewrite mat_op_same; cbn [ncols rows].
  2:{ unfold wf_ndarray. cbn [ncols rows]. rewrite map_map.
      apply Forall_map, Forall_forall. intros idx _. simpl.
      rewrite length_zip_with, length_map. lia. }
  2:{ rewrite length_map, length_replicate. lia. }
  eexists. split; [done|]. cbn [rows]. by rewrite !length_map.
Qed.

Lemma interpolate_fold_Ok (ne : list (list F)) (n : nat) (Inb : list (list Z))
    (its : list (nat * Z)) (Y : list (list F)) :
  Forall (fun it => (fst it < length Inb)%nat /\ 0 <= snd it < Z.of_nat (length Y)) its ->
  Forall (Forall (fun i => 0 <= i < Z.of_nat (length ne))) Inb ->
  exists Yf, foldM (interpolate_step ne n Inb) Y its = Ok Yf.
Proof.
  intros Hits HInb. revert Y Hits. induction its as [|it its IH]; intros Y Hits; simpl.
  - by eexists.
  - apply Forall_cons in Hits as [[Hfst Hsnd] Hits]. unfold interpolate_step at 1.
    destruct (lookup_lt_is_Some_2 Inb (fst it) Hfst) as [Ii HIi].
    rewrite (getitem_of_nat _ _ _ HIi). cbn [bind].
    destruct (take_rows_Ok ne Ii) as (sel & -> & _).
    { rewrite Forall_forall in HInb. apply HInb. by eapply list_elem_of_lookup_2. }
    cbn [bind].
    replace (snd it) with (Z.of_nat (Z.to_nat (snd it))) by lia.
    rewrite norm_index_of_nat by lia. cbn [bind].
    apply IH. eapply Forall_impl; [exact Hits|]. intros it' Hit'. simpl in *.
    by rewrite length_insert.
Qed.

End InterpolationSucceeds.



(** ** The paths of a pipeline *)

Section PipelinePaths.
Context {C : Pipelines.Collaborators}.
Import Pipelines.

Lemma for_each_nulls (g : str -> option E) (l : list (option str)) :
  (forall s, g s = None) ->
  for_each (fun path => match path with
                        | None => Fail PipelineException
                        | Some s => call (g s)
                        end) l
  = if decide (None ∈ l) then Fail PipelineException else Done tt.
Proof.
  intros Hg. induction l as [|[s|] l IH]; cbn [for_each].
  - by rewrite decide_False by (by intros ?%elem_of_nil).
  - rewrite Hg. cbn [call]. rewrite IH.
    destruct (decide (None ∈ l)) as [Hin|Hin].
    + by rewrite decide_True by (by right).
    + rewrite decide_False; [done|]. by intros [?|?]%elem_of_cons.
  - by rewrite decide_True by left.
Qed.

Lemma iterate_str_no_null (s : str) : None ∉ iterate (OnePath s).
Proof. simpl. intros (c & Hc & _)%list_elem_of_fmap. done. Qed.

Lemma index_past_end (o : pclouds) (i : nat) :
  (length (iterate o) <= i)%nat -> index o i = Fail PyIndexError.
Proof.
  destruct o as [s|l]; unfold index, iterate; [rewrite length_map|]; intros Hi.
  - destruct (s !! i) as [c|] eqn:Ec; [|done]. apply lookup_lt_Some in Ec. lia.
  - destruct (l !! i) as [p|] eqn:Ep; [|done]. apply lookup_lt_Some in Ep. lia.
Qed.

Lemma run_loop_short (ins : list (option str)) (o : pclouds) :
  forall (k i : nat) (st st' : state),
    (k < length ins)%nat -> length (iterate o) = (i + k)%nat ->
    run_loop i (take k ins) (Some o) st = (st', Done tt) ->
    run_loop i ins (Some o) st = (st', Fail PyIndexError).
Proof.
  induction ins as [|inp ins IH]; intros k i st st' Hk Hlen; [simpl in Hk; lia|].
  destruct k as [|k]; simpl.
  - intros [= <-]. rewrite index_past_end by lia. done.
  - destruct (index o i) as [oi|f]; [|done].
    destruct (run_case st inp oi) as [st1 [e|]]; [done|].
    apply IH; simpl in Hk; lia.
Qed.

End PipelinePaths.

(** X21 (null paths): when every path is valid for [IOUtils],
    [Pipeline.__init__] raises nothing but PipelineException, and it
    returns exactly when [in_pcloud] is given, no element of a list
    [in_pcloud] is [None] and, if [in_pcloud] is a list, no element of
    [out_pcloud] is [None] either.  The elements of a list [out_pcloud] are
    looked at only when [in_pcloud] is a list: with a single input path a
    list of output paths is handed to the validator as it is, [None]
    elements included. *)
Theorem pipeline_init_nulls {C : Pipelines.Collaborators}
    (kw_in kw_out : option Pipelines.pclouds) :
  (forall s a, Pipelines.validate_path_to_file s a = None) ->
  (forall p, Pipelines.validate_path_to_directory p = None) ->
  (forall f, Pipelines.init kw_in kw_out = Pipelines.Fail f ->
             f = Pipelines.PipelineException) /\
  (forall p, Pipelines.init kw_in kw_out = Pipelines.Done p <->
     exists inp,
       kw_in = Some inp /\ p = Pipelines.mk_pipeline inp kw_out /\
       (None ∉ Pipelines.iterate inp) /\
       (forall l out, inp = Pipelines.ManyPaths l -> kw_out = Some out ->
                      None ∉ Pipelines.iterate out)).
Proof.
  intros Hfile Hdir. unfold Pipelines.init.
  destruct kw_in as [[s|l]|].
  - rewrite Hfile. cbn [Pipelines.call].
    assert (Hs : None ∉ Pipelines.iterate (Pipelines.OnePath s))
      by apply iterate_str_no_null.
    destruct kw_out as [out|]; [rewrite Hdir; cbn [Pipelines.call]|].
    all: split; [done|]; intros p; split;
      [ intros [= <-]; eexists; by split_and!
      | intros (inp & [= <-] & -> & _); done ].
  - rewrite (for_each_nulls (fun s => Pipelines.validate_path_to_file s (Some true)))
      by done.
    destruct (decide (None ∈ l)) as [Hl|Hl].
    { split; [by intros f [= <-]|]. intros p. split; [done|].
      intros (inp & [= <-] & _ & Hno & _). done. }
    destruct kw_out as [out|].
    + rewrite (for_each_nulls
                 (fun s => Pipelines.validate_path_to_directory
                             (Pipelines.OnePath (Pipelines.dirname s)))) by done.
      destruct (decide (None ∈ Pipelines.iterate out)) as [Ho|Ho].
      * split; [by intros f [= <-]|]. intros p. split; [done|].
        intros (inp & [= <-] & _ & _ & Hno). by destruct (Hno l out).
      * split; [done|]. intros p. split.
        -- intros [= <-]. eexists. split_and!; try done. by intros l' out' [= <-] [= <-].
        -- by intros (inp & [= <-] & -> & _).
    + split; [done|]. intros p. split.
      * intros [= <-]. eexists. by split_and!.
      * by intros (inp & [= <-] & -> & _).
  - split; [by intros f [= <-]|]. intros p. split; [done|]. by intros (inp & [=] & _).
Qed.

Lemma pipeline_init_nulls_witness :
  let kw_in := Some (Pipelines.OnePath [97%N]) in
  let kw_out := Some (Pipelines.ManyPaths [None]) in
  @Pipelines.init recording kw_in kw_out
  = Pipelines.Done (Pipelines.mk_pipeline (Pipelines.OnePath [97%N])
                      (Some (Pipelines.ManyPaths [None]))).
Proof.
  intros kw_in kw_out.
  apply (proj2 (@pipeline_init_nulls recording kw_in kw_out
                  (fun _ _ => eq_refl) (fun _ => eq_refl))).
  eexists. split; [reflexivity|]. split; [reflexivity|]. split.
  - apply iterate_str_no_null.
  - intros l out H. discriminate H.
Defined.

(** X22 (a single output path): a pipeline built from one input path and
    one output path, both strings, runs its only case with the first
    character of the output path, [self.out_pcloud[0]], as the output path
    of the case; with an empty output path [run] raises IndexError before
    the case runs. *)
Theorem run_single_path {C : Pipelines.Collaborators}
    (s o : Pipelines.str) (p : Pipelines.Pipeline) (st : Pipelines.state) :
  Pipelines.init (Some (Pipelines.OnePath s)) (Some (Pipelines.OnePath o))
  = Pipelines.Done p ->
  Pipelines.run p st
  = match o with
    | [] => (st, Pipelines.Fail Pipelines.PyIndexError)
    | c :: _ =>
        let (st', r) := Pipelines.run_case st (Some s) (Some [c]) in
        (st', Pipelines.call r)
    end.
Proof.
  unfold Pipelines.init.
  destruct (Pipelines.call (Pipelines.validate_path_to_file s None)); [|done].
  destruct (Pipelines.call (Pipelines.validate_path_to_directory _)); [|done].
  intros [= <-]. unfold Pipelines.run. simpl.
  destruct o as [|c o]; [done|]. simpl.
  by destruct (Pipelines.run_case st (Some s) (Some [c])) as [st' [e|]].
Qed.

Lemma run_single_path_witness :
  let s := [97%N] in
  let o := [111; 117; 116; 47; 42]%N in
  @Pipelines.run recording
    (Pipelines.mk_pipeline (Pipelines.OnePath s) (Some (Pipelines.OnePath o))) []
  = ([(Some s, Some [111%N])], Pipelines.Done tt).
Proof.
  intros s o.
  exact (@run_single_path recording s o
           (Pipelines.mk_pipeline (Pipelines.OnePath s) (Some (Pipelines.OnePath o)))
           [] eq_refl).
Defined.

(** X23 (fewer output paths than input paths): when [out_pcloud] has fewer
    elements (characters, for a string) than there are input point clouds,
    [run] works through the cases that have an output path, as a pipeline
    of those inputs alone would, and then raises IndexError: the later
    inputs never run. *)
Theorem run_too_few_outputs {C : Pipelines.Collaborators}
    (l : list (option Pipelines.str)) (out : Pipelines.pclouds)
    (st st' : Pipelines.state) :
  (length (Pipelines.iterate out) < length l)%nat ->
  Pipelines.run
    (Pipelines.mk_pipeline
       (Pipelines.ManyPaths (take (length (Pipelines.iterate out)) l)) (Some out)) st
  = (st', Pipelines.Done tt) ->
  Pipelines.run (Pipelines.mk_pipeline (Pipelines.ManyPaths l) (Some out)) st
  = (st', Pipelines.Fail Pipelines.PyIndexError).
Proof.
  intros Hlt Hrun. unfold Pipelines.run in *. simpl in *.
  by apply (run_loop_short l out (length (Pipelines.iterate out)) 0 st st').
Qed.

Lemma run_too_few_outputs_witness :
  let a := Some [97%N] in
  let b := Some [98%N] in
  let out := Pipelines.ManyPaths [Some [111%N]] in
  @Pipelines.run recording (Pipelines.mk_pipeline (Pipelines.ManyPaths [a; b]) (Some out)) []
  = ([(a, Some [111%N])], Pipelines.Fail Pipelines.PyIndexError).
Proof.
  intros a b out.
  apply (@run_too_few_outputs recording [a; b] out [] [(a, Some [111%N])]).
  - simpl. lia.
  - reflexivity.
Defined.
